(** * Cloudflare Prometheus exporter: counter accumulation, serialization,
      identity parsing, time windows, rate-limited fetch and the
      coordinator hierarchy, embedded from the TypeScript sources.

    Conventions of the embedding.
    - A JavaScript [number] holding a count or an epoch time is an integer
      [Z]; the non-finite branches of [formatValue] are therefore not
      reachable and are left out.
    - A [Record<string,string>] is the list of its [Object.entries], in
      insertion order.
    - A JavaScript [Map] is an insertion-ordered association list
      ([mapGet]/[mapSet]); a [Record] used as a dictionary of counters is a
      [gmap]; a [Set] is a [gset].
    - [String.prototype.localeCompare] depends on the host's collation and
      is a Section variable.
    - Asynchronous calls to collaborators (upstream API, rate limiter,
      child actors) are oracles passed as arguments, with [inl e] for a
      rejected promise; effects are returned as an event trace.
    - Each actor method is modelled on the state it finds after its
      [get]/[initialize] has run; the clock is read once per call. *)

From Stdlib Require Import Ascii String ZArith Lia.
From stdpp Require Import gmap strings list fin_maps pretty.

Local Open Scope Z_scope.

(* ===================================================================== *)
(** ** Strings *)
(* ===================================================================== *)

Definition quoteChar : ascii := "034"%char.
Definition newlineChar : ascii := "010"%char.
Definition backslashChar : ascii := "092"%char.
Definition colonChar : ascii := ":"%char.
Definition commaChar : ascii := ","%char.

Definition str1 (c : ascii) : string := String c EmptyString.

(** [Array.prototype.join]. *)
Fixpoint join (sep : string) (l : list string) : string :=
  match l with
  | [] => EmptyString
  | [x] => x
  | x :: l' => x +:+ sep +:+ join sep l'
  end.

(** [s.replace(/c/g, by)] for a single character [c]. *)
Fixpoint replaceAll (c : ascii) (by_ : string) (s : string) : string :=
  match s with
  | EmptyString => EmptyString
  | String a s' =>
      if Ascii.eqb a c then by_ +:+ replaceAll c by_ s'
      else String a (replaceAll c by_ s')
  end.

(** [s.split(sep)] for a single-character separator: always at least one
    part. *)
Fixpoint split (sep : ascii) (s : string) : list string :=
  match s with
  | EmptyString => [EmptyString]
  | String a s' =>
      if Ascii.eqb a sep then EmptyString :: split sep s'
      else match split sep s' with
           | p :: ps => String a p :: ps
           | [] => [str1 a]
           end
  end.

Fixpoint countChar (c : ascii) (s : string) : nat :=
  match s with
  | EmptyString => 0%nat
  | String a s' => ((if Ascii.eqb a c then 1 else 0) + countChar c s')%nat
  end.

(* ===================================================================== *)
(** ** Insertion-ordered maps (JavaScript [Map]) *)
(* ===================================================================== *)

Section OrderedMap.
Context {V : Type}.

Fixpoint mapGet (m : list (string * V)) (k : string) : option V :=
  match m with
  | [] => None
  | (k', v) :: m' => if decide (k = k') then Some v else mapGet m' k
  end.

(** [Map.prototype.set]: an existing key keeps its position. *)
Fixpoint mapSet (m : list (string * V)) (k : string) (v : V)
  : list (string * V) :=
  match m with
  | [] => [(k, v)]
  | (k', v') :: m' =>
      if decide (k = k') then (k, v) :: m' else (k', v') :: mapSet m' k v
  end.

Definition mapValues (m : list (string * V)) : list V := map snd m.
Definition mapKeys (m : list (string * V)) : list string := map fst m.
End OrderedMap.

(* ===================================================================== *)
(** ** Metric data model (lib/metrics.ts) *)
(* ===================================================================== *)

Inductive MetricType := counter | gauge.

#[global] Instance MetricType_eq_dec : EqDecision MetricType.
Proof. solve_decision. Defined.

Abbreviation Labels := (list (string * string)).

Record MetricValue := mkValue { labels : Labels; value : Z }.

Record MetricDefinition := mkMetric {
  name : string;
  help : string;
  type : MetricType;
  values : list MetricValue
}.

Record CounterState := mkCounter { accumulated : Z }.

Definition typeName (t : MetricType) : string :=
  match t with counter => "counter" | gauge => "gauge" end.

(* ===================================================================== *)
(** ** Signatures and the counter accumulator (lib/time.ts, MetricExporter) *)
(* ===================================================================== *)

Section Collation.
(** [a.localeCompare(b)]: negative, zero or positive. *)
Variable localeCompare : string -> string -> Z.

(** [entries.sort(([a], [b]) => a.localeCompare(b))]: a stable sort on
    the keys. *)
Fixpoint insertEntry (e : string * string) (l : Labels) : Labels :=
  match l with
  | [] => [e]
  | e' :: l' =>
      if localeCompare (fst e) (fst e') <=? 0 then e :: l
      else e' :: insertEntry e l'
  end.

Definition sortEntries (l : Labels) : Labels := foldr insertEntry [] l.

Definition metricKey (name : string) (labels : Labels) : string :=
  let sortedLabels :=
    join "," (map (fun '(k, v) => k +:+ "=" +:+ v) (sortEntries labels)) in
  name +:+ "{" +:+ sortedLabels +:+ "}".

Definition updateCounter (existing : option CounterState) (rawValue : Z)
  : CounterState :=
  match existing with
  | None => {| accumulated := rawValue |}
  | Some e => {| accumulated := accumulated e + rawValue |}
  end.

(** The inner [metric.values.map], threading [newCounters]. *)
Fixpoint processValues (mname : string) (vs : list MetricValue)
    (newCounters : gmap string CounterState)
  : list MetricValue * gmap string CounterState :=
  match vs with
  | [] => ([], newCounters)
  | v :: vs' =>
      let key := metricKey mname (labels v) in
      let c := updateCounter (newCounters !! key) (value v) in
      let '(out, final) := processValues mname vs' (<[key := c]> newCounters) in
      ({| labels := labels v; value := accumulated c |} :: out, final)
  end.

(** The outer [rawMetrics.map]. *)
Fixpoint processMetrics (rawMetrics : list MetricDefinition)
    (newCounters : gmap string CounterState)
  : list MetricDefinition * gmap string CounterState :=
  match rawMetrics with
  | [] => ([], newCounters)
  | metric :: rest =>
      match type metric with
      | gauge =>
          let '(out, final) := processMetrics rest newCounters in
          (metric :: out, final)
      | counter =>
          let '(processedValues, mid) :=
            processValues (name metric) (values metric) newCounters in
          let '(out, final) := processMetrics rest mid in
          ({| name := name metric; help := help metric;
              type := type metric; values := processedValues |} :: out,
           final)
      end
  end.

Definition processCounters (rawMetrics : list MetricDefinition)
    (existingCounters : gmap string CounterState)
  : list MetricDefinition * gmap string CounterState :=
  processMetrics rawMetrics existingCounters.





End Collation.



(** Code-unit order, one admissible instance of the collation. *)
Definition codeUnitCompare (a b : string) : Z :=
  match String.compare a b with Lt => -1 | Eq => 0 | Gt => 1 end.

(* ===================================================================== *)
(** ** Prometheus serializer (lib/prometheus.ts) *)
(* ===================================================================== *)

Record SerializeOptions := mkOptions {
  denylist : option (gset string);
  excludeLabels : option (gset string)
}.

Definition escapeHelp (h : string) : string :=
  replaceAll newlineChar (str1 backslashChar +:+ "n")
    (replaceAll backslashChar (str1 backslashChar +:+ str1 backslashChar) h).

Definition escapeLabel (v : string) : string :=
  replaceAll newlineChar (str1 backslashChar +:+ "n")
    (replaceAll quoteChar (str1 backslashChar +:+ str1 quoteChar)
       (replaceAll backslashChar (str1 backslashChar +:+ str1 backslashChar) v)).

(** [String(value)] on an integer. *)
Definition formatValue (v : Z) : string := pretty v.

Definition formatLabels (ls : Labels) : string :=
  match ls with
  | [] => EmptyString
  | _ =>
      let formatted :=
        join ","
          (map (fun '(key, v) =>
                  key +:+ "=" +:+ str1 quoteChar +:+ escapeLabel v
                      +:+ str1 quoteChar) ls) in
      "{" +:+ formatted +:+ "}"
  end.

Definition filterLabels (ls : Labels) (exclude : gset string) : Labels :=
  filter (fun kv => fst kv ∉ exclude) ls.

Section Serializer.
Variable localeCompare : string -> string -> Z.

Definition labelSignature (ls : Labels) : string :=
  join (str1 "001"%char)
    (map (fun '(k, v) => k +:+ str1 "000"%char +:+ v)
         (sortEntries localeCompare ls)).

(** One iteration of the loop of [aggregateByLabels]; the in-place update
    of [existing] is a [mapSet] under the same signature. *)
Definition aggregateStep (type : MetricType)
    (bySignature : list (string * MetricValue)) (v : MetricValue)
  : list (string * MetricValue) :=
  let sig := labelSignature (labels v) in
  match mapGet bySignature sig with
  | Some existing =>
      mapSet bySignature sig
        {| labels := labels existing;
           value := match type with
                    | counter => value existing + value v
                    | gauge => Z.max (value existing) (value v)
                    end |}
  | None => mapSet bySignature sig {| labels := labels v; value := value v |}
  end.

Definition aggregateByLabels (values : list MetricValue) (type : MetricType)
  : list MetricValue :=
  mapValues (fold_left (aggregateStep type) values []).

(** The [filteredValues] of the grouping loop. *)
Definition filteredValues (excludeLabels : gset string)
    (metric : MetricDefinition) : list MetricValue :=
  if (0 <? size excludeLabels)%nat
  then map (fun v => {| labels := filterLabels (labels v) excludeLabels;
                        value := value v |}) (values metric)
  else values metric.

(** One iteration of the grouping loop of [serializeToPrometheus]. *)
Definition groupStep (denylist excludeLabels : gset string)
    (grouped : list (string * MetricDefinition)) (metric : MetricDefinition)
  : list (string * MetricDefinition) :=
  if decide (name metric ∈ denylist) then grouped
  else
    match mapGet grouped (name metric) with
    | Some existing =>
        mapSet grouped (name metric)
          {| name := name existing; help := help existing;
             type := type existing;
             values := values existing ++ filteredValues excludeLabels metric |}
    | None =>
        mapSet grouped (name metric)
          {| name := name metric; help := help metric;
             type := type metric;
             values := filteredValues excludeLabels metric |}
    end.

Definition groupMetrics (metrics : list MetricDefinition)
    (options : option SerializeOptions) : list (string * MetricDefinition) :=
  let denylist := default ∅ (options ≫= denylist) in
  let excludeLabels := default ∅ (options ≫= excludeLabels) in
  fold_left (groupStep denylist excludeLabels) metrics [].

(** The lines pushed for one group, before they are rendered as text. *)
Inductive Line :=
| LHelp (n : string) (h : string)
| LType (n : string) (t : MetricType)
| LValue (n : string) (ls : Labels) (v : Z)
| LBlank.

Definition groupLines (n : string) (metric : MetricDefinition) : list Line :=
  [LHelp n (help metric); LType n (type metric)]
    ++ map (fun v => LValue n (labels v) (value v))
           (aggregateByLabels (values metric) (type metric))
    ++ [LBlank].

Definition serializeLines (metrics : list MetricDefinition)
    (options : option SerializeOptions) : list Line :=
  flat_map (fun '(n, metric) => groupLines n metric)
           (groupMetrics metrics options).
End Serializer.

Definition renderLine (l : Line) : string :=
  match l with
  | LHelp n h => "# HELP " +:+ n +:+ " " +:+ escapeHelp h
  | LType n t => "# TYPE " +:+ n +:+ " " +:+ typeName t
  | LValue n ls v => n +:+ formatLabels ls +:+ " " +:+ formatValue v
  | LBlank => EmptyString
  end.

Definition lineName (l : Line) : option string :=
  match l with
  | LHelp n _ | LType n _ | LValue n _ _ => Some n
  | LBlank => None
  end.

Definition serializeToPrometheus (localeCompare : string -> string -> Z)
    (metrics : list MetricDefinition) (options : option SerializeOptions)
  : string :=
  join (str1 newlineChar)
       (map renderLine (serializeLines localeCompare metrics options)).

(* ===================================================================== *)
(** ** Exporter identity strings (lib/types.ts) *)
(* ===================================================================== *)

(** The fragment of regular expressions the identity pattern uses. *)
Inductive regex :=
| Void
| Eps
| Chr (c : ascii)
| NotChr (c : ascii)
| Cat (r1 r2 : regex)
| Alt (r1 r2 : regex)
| Star (r : regex).

Definition Plus (r : regex) : regex := Cat r (Star r).

Fixpoint literal (s : string) : regex :=
  match s with
  | EmptyString => Eps
  | String c s' => Cat (Chr c) (literal s')
  end.

(** The language of a pattern. *)
Inductive matches : regex -> string -> Prop :=
| MEps : matches Eps EmptyString
| MChr c : matches (Chr c) (str1 c)
| MNotChr c a : a <> c -> matches (NotChr c) (str1 a)
| MCat r1 r2 s1 s2 :
    matches r1 s1 -> matches r2 s2 -> matches (Cat r1 r2) (s1 +:+ s2)
| MAltL r1 r2 s : matches r1 s -> matches (Alt r1 r2) s
| MAltR r1 r2 s : matches r2 s -> matches (Alt r1 r2) s
| MStarNil r : matches (Star r) EmptyString
| MStarCons r s1 s2 :
    matches r s1 -> matches (Star r) s2 -> matches (Star r) (s1 +:+ s2).

Fixpoint nullable (r : regex) : bool :=
  match r with
  | Void | Chr _ | NotChr _ => false
  | Eps | Star _ => true
  | Cat r1 r2 => nullable r1 && nullable r2
  | Alt r1 r2 => nullable r1 || nullable r2
  end.

Fixpoint deriv (a : ascii) (r : regex) : regex :=
  match r with
  | Void | Eps => Void
  | Chr c => if Ascii.eqb a c then Eps else Void
  | NotChr c => if Ascii.eqb a c then Void else Eps
  | Cat r1 r2 =>
      if nullable r1 then Alt (Cat (deriv a r1) r2) (deriv a r2)
      else Cat (deriv a r1) r2
  | Alt r1 r2 => Alt (deriv a r1) (deriv a r2)
  | Star r' => Cat (deriv a r') (Star r')
  end.

(** [re.test(s)] for a pattern anchored by [^] and [$] (no flags): the
    whole input has to match the body. *)
Fixpoint regexTest (r : regex) (s : string) : bool :=
  match s with
  | EmptyString => nullable r
  | String a s' => regexTest (deriv a r) s'
  end.

(** [/^(account|zone):[^:]+:[^:]+$/] *)
Definition idPattern : regex :=
  Cat (Alt (literal "account") (literal "zone"))
      (Cat (Chr colonChar)
           (Cat (Plus (NotChr colonChar))
                (Cat (Chr colonChar) (Plus (NotChr colonChar))))).

Inductive ScopeType := scope_account | scope_zone.

#[global] Instance ScopeType_eq_dec : EqDecision ScopeType.
Proof. solve_decision. Defined.

Definition scopeName (t : ScopeType) : string :=
  match t with scope_account => "account" | scope_zone => "zone" end.

Record MetricExporterId := mkExporterId {
  id_scopeType : ScopeType;
  id_scopeId : string;
  id_queryName : string
}.

(** [ScopeTypeSchema.parse]: [None] stands for a thrown [ZodError], also on
    [undefined]. *)
Definition ScopeTypeSchema_parse (x : option string) : option ScopeType :=
  match x with
  | Some s =>
      if decide (s = "account") then Some scope_account
      else if decide (s = "zone") then Some scope_zone
      else None
  | None => None
  end.

(** [z.string().min(1).parse]. *)
Definition nonEmptyString_parse (x : option string) : option string :=
  match x with
  | Some s => if (1 <=? String.length s)%nat then Some s else None
  | None => None
  end.

Definition MetricExporterIdSchema_parse (s : string) : option MetricExporterId :=
  if regexTest idPattern s then
    let parts := split colonChar s in
    scopeType ← ScopeTypeSchema_parse (parts !! 0%nat);
    scopeId ← nonEmptyString_parse (parts !! 1%nat);
    queryName ← nonEmptyString_parse (parts !! 2%nat);
    Some {| id_scopeType := scopeType; id_scopeId := scopeId;
            id_queryName := queryName |}
  else None.

(** The text of an identity with scope [t] and parts [a], [b]. *)
Definition idText (t : ScopeType) (a b : string) : string :=
  scopeName t +:+ str1 colonChar +:+ a +:+ str1 colonChar +:+ b.

(* ===================================================================== *)
(** ** Shared time window (lib/time.ts) *)
(* ===================================================================== *)

(** Both fields are the instants, in epoch milliseconds, whose ISO-8601
    text the source returns. *)
Record TimeRange := mkTimeRange { mintime : Z; maxtime : Z }.

(** [date.setSeconds(0, 0)]: back to the start of the current minute. *)
Definition setSecondsZero (t : Z) : Z := t - t mod 60000.

Definition getTimeRange (now : Z) (scrapeDelaySeconds timeWindowSeconds : option Z)
  : TimeRange :=
  let scrapeDelaySeconds := default 300 scrapeDelaySeconds in
  let timeWindowSeconds := default 60 timeWindowSeconds in
  let t0 := setSecondsZero now in
  let t1 := t0 - scrapeDelaySeconds * 1000 in
  let maxtime := t1 in
  let t2 := t1 - timeWindowSeconds * 1000 in
  let mintime := t2 in
  {| mintime := mintime; maxtime := maxtime |}.

Definition minuteAligned (t : Z) : Prop := t mod 60000 = 0.

(* ===================================================================== *)
(** ** Rate-limited fetch (cloudflare/client.ts) *)
(* ===================================================================== *)

Definition MAX_RETRIES : nat := 3.
Definition BASE_DELAY_MS : Z := 250.

Inductive FetchEvent :=
| EvLimit (key : string)
| EvFetch
| EvWarn (delay_ms : Z) (attempt : nat)
| EvSleep (delay_ms : Z)
| EvError (max_retries : nat).

Section RateLimitedFetch.
Context {Response : Type}.
(** The answer of [rateLimiter.limit] to the call made at each attempt. *)
Variable limiter : nat -> bool.
(** What the underlying [fetch] settles to: [inl] is a rejection. *)
Variable fetch : string + Response.

(** The [for] loop from [attempt]; [fuel] bounds the iterations, and
    [None] would be an exhausted bound. *)
Fixpoint attemptLoop (fuel : nat) (attempt : nat)
  : option ((string + Response) * list FetchEvent) :=
  match fuel with
  | O => None
  | S fuel' =>
      if (attempt <=? MAX_RETRIES)%nat then
        if limiter attempt then Some (fetch, [EvLimit "cf-api"; EvFetch])
        else
          let backoff :=
            if (attempt <? MAX_RETRIES)%nat then
              let delay := BASE_DELAY_MS * 2 ^ Z.of_nat attempt in
              [EvWarn delay attempt; EvSleep delay]
            else [] in
          '(r, evs) ← attemptLoop fuel' (S attempt);
          Some (r, EvLimit "cf-api" :: backoff ++ evs)
      else
        Some (inl "Rate limit exceeded after retries", [EvError MAX_RETRIES])
  end.

Definition rateLimitedFetch : option ((string + Response) * list FetchEvent) :=
  attemptLoop (MAX_RETRIES + 2) 0.
End RateLimitedFetch.

(* ===================================================================== *)
(** ** Errors (lib/errors.ts), filters (lib/filters.ts), configuration *)
(* ===================================================================== *)

Inductive ErrorCode :=
| API_RATE_LIMITED | API_TIMEOUT | API_UNAVAILABLE | API_AUTH_FAILED
| GRAPHQL_ERROR | GRAPHQL_FIELD_ACCESS
| CONFIG_INVALID | CONFIG_PARSE_ERROR
| STATE_NOT_INITIALIZED | VALIDATION_ERROR | TIMEOUT | UNKNOWN.

Definition errorCodeName (c : ErrorCode) : string :=
  match c with
  | API_RATE_LIMITED => "API_RATE_LIMITED"
  | API_TIMEOUT => "API_TIMEOUT"
  | API_UNAVAILABLE => "API_UNAVAILABLE"
  | API_AUTH_FAILED => "API_AUTH_FAILED"
  | GRAPHQL_ERROR => "GRAPHQL_ERROR"
  | GRAPHQL_FIELD_ACCESS => "GRAPHQL_FIELD_ACCESS"
  | CONFIG_INVALID => "CONFIG_INVALID"
  | CONFIG_PARSE_ERROR => "CONFIG_PARSE_ERROR"
  | STATE_NOT_INITIALIZED => "STATE_NOT_INITIALIZED"
  | VALIDATION_ERROR => "VALIDATION_ERROR"
  | TIMEOUT => "TIMEOUT"
  | UNKNOWN => "UNKNOWN"
  end.

(** What a rejected promise carries: one of the repository's errors, any
    other [Error], or a value that is not an [Error]. *)
Inductive Thrown :=
| CloudflarePrometheusError (code : ErrorCode) (message : string)
| JsError (message : string)
| NonError (text : string).

Record ErrorInfo := mkErrorInfo { info_message : string; info_code : ErrorCode }.

Definition extractErrorInfo (error : Thrown) : ErrorInfo :=
  match error with
  | CloudflarePrometheusError c m => {| info_message := m; info_code := c |}
  | JsError m => {| info_message := m; info_code := UNKNOWN |}
  | NonError t => {| info_message := t; info_code := UNKNOWN |}
  end.

(** [error instanceof Error ? error.message : String(error)] *)
Definition errorMessage (error : Thrown) : string :=
  match error with
  | CloudflarePrometheusError _ m | JsError m => m
  | NonError t => t
  end.

(** White space as [String.prototype.trim] sees it, within ASCII. *)
Definition isSpace (a : ascii) : bool :=
  let n := nat_of_ascii a in
  ((9 <=? n) && (n <=? 13) || (n =? 32))%nat.

Fixpoint trimStart (s : string) : string :=
  match s with
  | EmptyString => EmptyString
  | String a s' => if isSpace a then trimStart s' else s
  end.

Fixpoint trimEnd (s : string) : string :=
  match s with
  | EmptyString => EmptyString
  | String a s' =>
      match trimEnd s' with
      | EmptyString => if isSpace a then EmptyString else str1 a
      | rest => String a rest
      end
  end.

Definition trim (s : string) : string := trimEnd (trimStart s).

Definition parseCommaSeparated (value : string) : gset string :=
  if decide (value = EmptyString) then ∅
  else if decide (trim value = EmptyString) then ∅
  else list_to_set
         (filter (fun s => (0 < String.length s)%nat)
                 (map trim (split commaChar value))).

Record Account := mkAccount { account_id : string; account_name : string }.

Record Zone := mkZone {
  zone_id : string;
  zone_name : string;
  zone_status : string;
  zone_plan_id : string;
  zone_plan_name : string;
  zone_account_id : string;
  zone_account_name : string
}.

Definition filterAccountsByIds (accounts : list Account) (includeIds : gset string)
  : list Account :=
  filter (fun a => account_id a ∈ includeIds) accounts.

Definition filterZonesByIds (zones : list Zone) (includeIds : gset string)
  : list Zone :=
  filter (fun z => zone_id z ∈ includeIds) zones.

Definition FREE_PLAN_ID : string := "0feeeeeeeeeeeeeeeeeeeeeeeeeeeeee".

Definition isFreeTierZone (zone : Zone) : bool :=
  bool_decide (zone_plan_id zone = FREE_PLAN_ID).

(** [partitionZonesByTier]: [(paid, free)]. *)
Definition partitionZonesByTier (zones : list Zone) : list Zone * list Zone :=
  (List.filter (fun z => negb (isFreeTierZone z)) zones,
   List.filter isFreeTierZone zones).

Definition ACCOUNT_LEVEL_QUERIES : list string :=
  ["worker-totals"; "logpush-account"; "magic-transit"].

Definition ZONE_LEVEL_QUERIES : list string :=
  ["http-metrics"; "adaptive-metrics"; "edge-country-metrics"; "colo-metrics";
   "colo-error-metrics"; "request-method-metrics"; "health-check-metrics";
   "load-balancer-metrics"; "logpush-zone"; "origin-status-metrics";
   "cache-miss-metrics"; "ssl-certificates"; "lb-weight-metrics"].

Definition FREE_TIER_QUERIES : list string :=
  ["worker-totals"; "logpush-account"; "magic-transit"].

Definition PAID_TIER_GRAPHQL_QUERIES : list string :=
  ["http-metrics"; "adaptive-metrics"; "edge-country-metrics"; "colo-metrics";
   "colo-error-metrics"; "request-method-metrics"; "health-check-metrics";
   "load-balancer-metrics"; "logpush-zone"; "origin-status-metrics";
   "cache-miss-metrics"].

Definition includes (l : list string) (q : string) : bool := bool_decide (q ∈ l).

Definition isAccountLevelQuery := includes ACCOUNT_LEVEL_QUERIES.
Definition isZoneLevelQuery := includes ZONE_LEVEL_QUERIES.
Definition isPaidTierGraphQLQuery := includes PAID_TIER_GRAPHQL_QUERIES.

Record ResolvedConfig := mkConfig {
  scrapeDelaySeconds : Z;
  timeWindowSeconds : Z;
  metricRefreshIntervalSeconds : Z;
  accountListCacheTtlSeconds : Z;
  zoneListCacheTtlSeconds : Z;
  sslCertsCacheTtlSeconds : Z;
  cfAccounts : option string;
  cfZones : option string;
  cfFreeTierAccounts : string;
  metricsDenylist : string;
  excludeHost : bool
}.

(** The upstream client, as the answers its calls settle to. *)
Record Client := mkClient {
  getAccounts : Thrown + list Account;
  getZones : string -> Thrown + list Zone;
  getFirewallRules : string -> Thrown + list (string * string);
  getAccountMetrics :
    string -> string -> string -> TimeRange -> Thrown + list MetricDefinition;
  getZoneMetrics :
    string -> list string -> list Zone -> gmap string string -> TimeRange ->
    Thrown + list MetricDefinition;
  getSSLCertificateMetricsForZone : Zone -> Thrown + list MetricDefinition;
  getLbWeightMetricsForZone : Zone -> Thrown + list MetricDefinition
}.

(* ===================================================================== *)
(** ** Query exporter (durable-objects/MetricExporter.ts) *)
(* ===================================================================== *)

Module MetricExporter.

Record State := mkState {
  scopeType : ScopeType;
  scopeId : string;
  queryName : string;
  counters : gmap string CounterState;
  metrics : list MetricDefinition;
  lastIngest : Z;
  accountId : string;
  accountName : string;
  zones : list Zone;
  firewallRules : gmap string string;
  zoneMetadata : option Zone;
  refreshInterval : Z;
  lastRefresh : Z;
  lastError : option string;
  lastSslFetch : Z
}.

Inductive Effect :=
| UpstreamCall (query : string)
| StoragePut (s : State)
| SetAlarm (t : Z).

(** [{ ...state, lastError: msg }] *)
Definition withLastError (state : State) (msg : option string) : State :=
  {| scopeType := scopeType state; scopeId := scopeId state;
     queryName := queryName state; counters := counters state;
     metrics := metrics state; lastIngest := lastIngest state;
     accountId := accountId state; accountName := accountName state;
     zones := zones state; firewallRules := firewallRules state;
     zoneMetadata := zoneMetadata state;
     refreshInterval := refreshInterval state;
     lastRefresh := lastRefresh state; lastError := msg;
     lastSslFetch := lastSslFetch state |}.

(** [jitter] is the value of [1000 + Math.random() * 4000]. *)
Definition scheduleNextAlarm (config : ResolvedConfig) (now jitter : Z) : Effect :=
  let intervalMs := metricRefreshIntervalSeconds config * 1000 in
  let startOfInterval := (now / intervalMs) * intervalMs in
  SetAlarm (startOfInterval + intervalMs + jitter).

Definition fetchAccountScopedMetrics (client : Client) (state : State)
    (timeRange : TimeRange) : (Thrown + list MetricDefinition) * list Effect :=
  let q := queryName state in
  if isAccountLevelQuery q then
    (getAccountMetrics client q (accountId state) (accountName state) timeRange,
     [UpstreamCall q])
  else if isZoneLevelQuery q then
    let zonesToQuery :=
      if isPaidTierGraphQLQuery q then fst (partitionZonesByTier (zones state))
      else zones state in
    if isPaidTierGraphQLQuery q && bool_decide (zonesToQuery = []) then
      (inr [], [])
    else
      (getZoneMetrics client q (map zone_id zonesToQuery) zonesToQuery
         (firewallRules state) timeRange,
       [UpstreamCall q])
  else (inr [], []).

Definition fetchZoneScopedMetrics (client : Client) (state : State)
  : (Thrown + list MetricDefinition) * list Effect :=
  match zoneMetadata state with
  | None => (inr [], [])
  | Some zone =>
      let q := queryName state in
      if decide (q = "ssl-certificates") then
        (getSSLCertificateMetricsForZone client zone, [UpstreamCall q])
      else if decide (q = "lb-weight-metrics") then
        (getLbWeightMetricsForZone client zone, [UpstreamCall q])
      else (inr [], [])
  end.

(** The three early returns of [refreshWithTimeRange]. *)
Definition skipsFetch (state : State) (config : ResolvedConfig) (now : Z) : bool :=
  match scopeType state with
  | scope_account => bool_decide (zones state = [])
  | scope_zone =>
      bool_decide (zoneMetadata state = None)
      || ((0 <? lastSslFetch state)
          && (now - lastSslFetch state <? sslCertsCacheTtlSeconds config * 1000))
  end.

Definition fetchMetrics (client : Client) (state : State) (timeRange : TimeRange)
  : (Thrown + list MetricDefinition) * list Effect :=
  match scopeType state with
  | scope_account => fetchAccountScopedMetrics client state timeRange
  | scope_zone => fetchZoneScopedMetrics client state
  end.

(** [now] is the reading of [Date.now()]; the model reads the clock once
    per call. *)
Definition refreshWithTimeRange (localeCompare : string -> string -> Z)
    (client : Client) (state : State) (timeRange : TimeRange)
    (config : ResolvedConfig) (now jitter : Z) : State * list Effect :=
  if skipsFetch state config now then
    (state, [scheduleNextAlarm config now jitter])
  else
    let '(fetched, calls) := fetchMetrics client state timeRange in
    match fetched with
    | inr raw =>
        let processed := processCounters localeCompare raw (counters state) in
        let state' :=
          {| scopeType := scopeType state; scopeId := scopeId state;
             queryName := queryName state; counters := snd processed;
             metrics := fst processed; lastIngest := lastIngest state;
             accountId := accountId state; accountName := accountName state;
             zones := zones state; firewallRules := firewallRules state;
             zoneMetadata := zoneMetadata state;
             refreshInterval := refreshInterval state;
             lastRefresh := now; lastError := None;
             lastSslFetch :=
               match scopeType state with
               | scope_zone => now
               | scope_account => lastSslFetch state
               end |} in
        (state',
         calls ++ [StoragePut state'; scheduleNextAlarm config now jitter])
    | inl error =>
        let msg := errorMessage error in
        let state' := withLastError state (Some msg) in
        (state',
         calls ++ [StoragePut state'; scheduleNextAlarm config now jitter])
    end.

(** [export()]: [state] is [None] before [initialize]. *)
Definition export (state : option State)
  : (Thrown + list MetricDefinition) * list Effect :=
  match state with
  | None => (inl (JsError "State not initialized"), [])
  | Some st => (inr (metrics st), [])
  end.

(** [initialize(id)] on an exporter whose stored state is [state]: [None]
    is the [ZodError] of a malformed id, thrown before anything is
    stored. *)
Definition initialize (state : option State) (config : ResolvedConfig)
    (id : string) : option (State * list Effect) :=
  match state with
  | Some st => Some (st, [])
  | None =>
      parsed ← MetricExporterIdSchema_parse id;
      let st :=
        {| scopeType := id_scopeType parsed; scopeId := id_scopeId parsed;
           queryName := id_queryName parsed; counters := ∅; metrics := [];
           lastIngest := 0; accountId := EmptyString;
           accountName := EmptyString; zones := []; firewallRules := ∅;
           zoneMetadata := None;
           refreshInterval := metricRefreshIntervalSeconds config;
           lastRefresh := 0; lastError := None; lastSslFetch := 0 |} in
      Some (st, [StoragePut st])
  end.

(** [{ ...state, accountId, accountName, zones, firewallRules }] *)
Definition withZoneContext (state : State) (newAccountId newAccountName : string)
    (newZones : list Zone) (newFirewallRules : gmap string string) : State :=
  {| scopeType := scopeType state; scopeId := scopeId state;
     queryName := queryName state; counters := counters state;
     metrics := metrics state; lastIngest := lastIngest state;
     accountId := newAccountId; accountName := newAccountName;
     zones := newZones; firewallRules := newFirewallRules;
     zoneMetadata := zoneMetadata state;
     refreshInterval := refreshInterval state;
     lastRefresh := lastRefresh state; lastError := lastError state;
     lastSslFetch := lastSslFetch state |}.

Definition updateZoneContext (localeCompare : string -> string -> Z)
    (client : Client) (state : State) (config : ResolvedConfig)
    (newAccountId newAccountName : string) (newZones : list Zone)
    (newFirewallRules : gmap string string) (timeRange : TimeRange)
    (now jitter : Z) : State * list Effect :=
  match scopeType state with
  | scope_zone => (state, [])
  | scope_account =>
      let isFirstContext :=
        bool_decide (zones state = []) && negb (bool_decide (newZones = []))
        && (lastRefresh state =? 0) in
      let state' :=
        withZoneContext state newAccountId newAccountName newZones
                        newFirewallRules in
      if isFirstContext then
        let '(state'', effects) :=
          refreshWithTimeRange localeCompare client state' timeRange config
                               now jitter in
        (state'', StoragePut state' :: effects)
      else (state', [StoragePut state'])
  end.

(** [{ ...state, accountId, accountName, zoneMetadata: zone }] *)
Definition withZoneMetadata (state : State) (zone : Zone)
    (newAccountId newAccountName : string) : State :=
  {| scopeType := scopeType state; scopeId := scopeId state;
     queryName := queryName state; counters := counters state;
     metrics := metrics state; lastIngest := lastIngest state;
     accountId := newAccountId; accountName := newAccountName;
     zones := zones state; firewallRules := firewallRules state;
     zoneMetadata := Some zone;
     refreshInterval := refreshInterval state;
     lastRefresh := lastRefresh state; lastError := lastError state;
     lastSslFetch := lastSslFetch state |}.

Definition initializeZone (localeCompare : string -> string -> Z)
    (client : Client) (state : State) (config : ResolvedConfig)
    (zone : Zone) (newAccountId newAccountName : string)
    (timeRange : TimeRange) (now jitter : Z) : State * list Effect :=
  match scopeType state with
  | scope_account => (state, [])
  | scope_zone =>
      let isFirstInit :=
        bool_decide (zoneMetadata state = None) && (lastRefresh state =? 0) in
      let state' := withZoneMetadata state zone newAccountId newAccountName in
      if isFirstInit then
        let '(state'', effects) :=
          refreshWithTimeRange localeCompare client state' timeRange config
                               now jitter in
        (state'', StoragePut state' :: effects)
      else (state', [StoragePut state'])
  end.

(** [alarm()]: the window is computed from the configuration at the time
    the alarm fires. *)
Definition alarm (localeCompare : string -> string -> Z) (client : Client)
    (state : State) (config : ResolvedConfig) (now jitter : Z)
  : State * list Effect :=
  refreshWithTimeRange localeCompare client state
    (getTimeRange now (Some (scrapeDelaySeconds config))
                  (Some (timeWindowSeconds config)))
    config now jitter.

Definition isUpstreamCall (e : Effect) : bool :=
  match e with UpstreamCall _ => true | _ => false end.

End MetricExporter.

(* ===================================================================== *)
(** ** Account coordinator (durable-objects/AccountMetricCoordinator.ts) *)
(* ===================================================================== *)

Record ZoneCounts := mkZoneCounts {
  total : Z;
  filtered : Z;
  processed : Z;
  skippedFreeTier : Z
}.

Record AccountExport := mkAccountExport {
  export_metrics : list MetricDefinition;
  export_zoneCounts : ZoneCounts
}.

Module AccountMetricCoordinator.

Definition ACCOUNT_SCOPED_QUERIES : list string :=
  ACCOUNT_LEVEL_QUERIES
    ++ List.filter
         (fun q => negb (String.eqb q "ssl-certificates")
                   && negb (String.eqb q "lb-weight-metrics"))
         ZONE_LEVEL_QUERIES.

Definition ZONE_SCOPED_QUERIES : list string :=
  ["ssl-certificates"; "lb-weight-metrics"].

Record State := mkState {
  accountId : string;
  accountName : string;
  zones : list Zone;
  totalZoneCount : Z;
  firewallRules : gmap string string;
  lastZoneFetch : Z;
  lastRefresh : Z
}.

Inductive Event :=
| GetZones (accountId : string)
| GetFirewallRules (zoneId : string)
| StoragePut (s : State)
| SetAlarm (t : Z)
| UpdateZoneContext (exporterId : string)
| InitializeZone (exporterId : string)
| ExporterExport (exporterId : string).

Definition isExporterExport (e : Event) : bool :=
  match e with ExporterExport _ => true | _ => false end.

Definition accountQueries (config : ResolvedConfig) (state : State) : list string :=
  let cfFreeTierSet := parseCommaSeparated (cfFreeTierAccounts config) in
  if decide (accountId state ∈ cfFreeTierSet)
  then List.filter (includes FREE_TIER_QUERIES) ACCOUNT_SCOPED_QUERIES
  else ACCOUNT_SCOPED_QUERIES.

Definition isFreeTierAccount (config : ResolvedConfig) (state : State) : bool :=
  bool_decide (accountId state ∈ parseCommaSeparated (cfFreeTierAccounts config)).

Definition accountExporterId (state : State) (query : string) : string :=
  "account:" +:+ accountId state +:+ ":" +:+ query.

Definition zoneExporterId (zone : Zone) (query : string) : string :=
  "zone:" +:+ zone_id zone +:+ ":" +:+ query.

(** The firewall-rule map built from the per-zone answers; a rejected
    lookup counts as an empty map. *)
Definition buildFirewallRules (client : Client) (zones : list Zone)
  : gmap string string :=
  fold_left
    (fun acc zone =>
       match getFirewallRules client (zone_id zone) with
       | inr rules => fold_left (fun m '(id, nm) => <[id := nm]> m) rules acc
       | inl _ => acc
       end)
    zones ∅.

(** The final [Promise.all] of [refreshZonesAndPushContext]: one context
    push per account-scoped query and, unless the account is free tier, one
    initialization per zone and zone-scoped query. A failed push is caught
    per exporter and leaves no trace in the state. *)
Definition pushContext (state : State) (config : ResolvedConfig)
    (zones : list Zone) : list Event :=
  map (fun q => UpdateZoneContext (accountExporterId state q))
      (accountQueries config state)
  ++ (if isFreeTierAccount config state then []
      else flat_map
             (fun zone =>
                map (fun q => InitializeZone (zoneExporterId zone q))
                    ZONE_SCOPED_QUERIES)
             zones).

(** [inl] is an exception leaving the function. *)
Definition refreshZonesAndPushContext (client : Client) (state : State)
    (config : ResolvedConfig) (now : Z) : (Thrown + State) * list Event :=
  let ttlMs := zoneListCacheTtlSeconds config * 1000 in
  let isStale := ttlMs <=? now - lastZoneFetch state in
  let refreshed : (Thrown + State) * list Event :=
    if isStale || bool_decide (zones state = []) then
      match getZones client (accountId state) with
      | inl e => (inl e, [GetZones (accountId state)])
      | inr allZones =>
          let zones' :=
            match cfZones config with
            | Some s => filterZonesByIds allZones (parseCommaSeparated s)
            | None => allZones
            end in
          let state' :=
            {| accountId := accountId state; accountName := accountName state;
               zones := zones'; totalZoneCount := Z.of_nat (length allZones);
               firewallRules := buildFirewallRules client zones';
               lastZoneFetch := now; lastRefresh := lastRefresh state |} in
          (inr state',
           GetZones (accountId state)
             :: map (fun z => GetFirewallRules (zone_id z)) zones'
             ++ [StoragePut state'])
      end
    else (inr state, []) in
  match refreshed with
  | (inl e, evs) => (inl e, evs)
  | (inr state', evs) =>
      (inr state', evs ++ pushContext state config (zones state'))
  end.

Definition refresh (client : Client) (state : State) (config : ResolvedConfig)
    (now : Z) : State * list Event :=
  let alarm := SetAlarm (now + metricRefreshIntervalSeconds config * 1000) in
  match refreshZonesAndPushContext client state config now with
  | (inr state', evs) =>
      let state'' :=
        {| accountId := accountId state'; accountName := accountName state';
           zones := zones state'; totalZoneCount := totalZoneCount state';
           firewallRules := firewallRules state';
           lastZoneFetch := lastZoneFetch state'; lastRefresh := now |} in
      (state'', evs ++ [StoragePut state''; alarm])
  | (inl _, evs) => (state, evs ++ [alarm])
  end.

(** The guard of [export()]. *)
Definition needsRefresh (state : State) (config : ResolvedConfig) (now : Z) : bool :=
  let staleThreshold := metricRefreshIntervalSeconds config * 2 * 1000 in
  (lastRefresh state =? 0) || (staleThreshold <? now - lastRefresh state).

(** A rejected exporter call counts as an empty snapshot. *)
Definition pull (exporterExport : string -> Thrown + list MetricDefinition)
    (exporterId : string) : list MetricDefinition :=
  match exporterExport exporterId with inr ms => ms | inl _ => [] end.

Definition zonesWithMetrics (allMetrics : list MetricDefinition) : gset string :=
  list_to_set
    (flat_map
       (fun metric =>
          flat_map
            (fun v => match mapGet (labels v) "zone" with
                      | Some z => if decide (z = EmptyString) then [] else [z]
                      | None => []
                      end)
            (values metric))
       allMetrics).

Definition export (client : Client)
    (exporterExport : string -> Thrown + list MetricDefinition)
    (initialState : State) (config : ResolvedConfig) (now : Z)
  : AccountExport * State * list Event :=
  let '(state, refreshEvents) :=
    if needsRefresh initialState config now
    then refresh client initialState config now
    else (initialState, []) in
  let accountIds := map (accountExporterId state) (accountQueries config state) in
  let zoneIds :=
    if isFreeTierAccount config state then []
    else flat_map (fun zone => map (zoneExporterId zone) ZONE_SCOPED_QUERIES)
                  (zones state) in
  let allMetrics := concat (map (pull exporterExport) (accountIds ++ zoneIds)) in
  let processedZones := Z.of_nat (size (zonesWithMetrics allMetrics)) in
  let freeTierCount := Z.of_nat (length (List.filter isFreeTierZone (zones state))) in
  ({| export_metrics := allMetrics;
      export_zoneCounts :=
        {| total := totalZoneCount state;
           filtered := Z.of_nat (length (zones state));
           processed := processedZones;
           skippedFreeTier := freeTierCount |} |},
   state,
   refreshEvents ++ map ExporterExport (accountIds ++ zoneIds)).

(** [initialize(accountId, accountName)] on a coordinator whose stored
    state is [state]. *)
Definition initialize (state : option State) (config : ResolvedConfig)
    (newAccountId newAccountName : string) (now : Z) : State * list Event :=
  match state with
  | Some st => (st, [])
  | None =>
      let st :=
        {| accountId := newAccountId; accountName := newAccountName;
           zones := []; totalZoneCount := 0; firewallRules := ∅;
           lastZoneFetch := 0; lastRefresh := 0 |} in
      (st, [StoragePut st;
            SetAlarm (now + metricRefreshIntervalSeconds config * 1000)])
  end.

(** The exporter an event addresses, if it addresses one. *)
Definition addressedExporter (e : Event) : option string :=
  match e with
  | UpdateZoneContext id | InitializeZone id | ExporterExport id => Some id
  | _ => None
  end.

(** The zone list has to be fetched: the test of
    [refreshZonesAndPushContext]. *)
Definition zoneListStale (state : State) (config : ResolvedConfig) (now : Z)
  : Prop :=
  zoneListCacheTtlSeconds config * 1000 <= now - lastZoneFetch state
  \/ zones state = [].

End AccountMetricCoordinator.

(* ===================================================================== *)
(** ** Fleet coordinator (durable-objects/MetricCoordinator.ts) *)
(* ===================================================================== *)

Module MetricCoordinator.

Record State := mkState {
  identifier : string;
  accounts : list Account;
  lastAccountFetch : Z
}.

Record ErrorTally := mkTally { code : string; count : Z }.

Definition zeroCounts : ZoneCounts :=
  {| total := 0; filtered := 0; processed := 0; skippedFreeTier := 0 |}.

(** [inl] is an exception leaving the method. *)
Definition refreshAccountsIfStale (client : Client) (state : State)
    (config : ResolvedConfig) (now : Z) : Thrown + (list Account * State) :=
  let ttlMs := accountListCacheTtlSeconds config * 1000 in
  if negb (bool_decide (accounts state = []))
     && (now - lastAccountFetch state <? ttlMs)
  then inr (accounts state, state)
  else
    match getAccounts client with
    | inl e => inl e
    | inr allAccounts =>
        let accounts' :=
          match cfAccounts config with
          | Some s => filterAccountsByIds allAccounts (parseCommaSeparated s)
          | None => allAccounts
          end in
        inr (accounts',
             {| identifier := identifier state; accounts := accounts';
                lastAccountFetch := now |})
    end.

(** [existing.count++] on the first entry with that code, or a push. *)
Fixpoint bump (accountErrors : list ErrorTally) (c : string) : list ErrorTally :=
  match accountErrors with
  | [] => [{| code := c; count := 1 |}]
  | e :: rest =>
      if decide (code e = c) then {| code := code e; count := count e + 1 |} :: rest
      else e :: bump rest c
  end.

(** The body of the [catch] arm: it runs without suspending. *)
Definition recordError (errorsByAccount : list (string * list ErrorTally))
    (account : Account) (error : Thrown) : list (string * list ErrorTally) :=
  let info := extractErrorInfo error in
  let accountErrors := default [] (mapGet errorsByAccount (account_id account)) in
  mapSet errorsByAccount (account_id account)
         (bump accountErrors (errorCodeName (info_code info))).

(** The fan-out over the accounts. [accountExport a] is what
    [AccountMetricCoordinator.get] followed by [export()] settles to for
    [a]; the results keep the order of the accounts, and the tallies are
    recorded in that order too. *)
Fixpoint fanOut (accountExport : Account -> Thrown + AccountExport)
    (accounts : list Account)
    (errorsByAccount : list (string * list ErrorTally))
  : list AccountExport * list (string * list ErrorTally) :=
  match accounts with
  | [] => ([], errorsByAccount)
  | account :: rest =>
      match accountExport account with
      | inr result =>
          let '(results, errs) := fanOut accountExport rest errorsByAccount in
          (result :: results, errs)
      | inl error =>
          let '(results, errs) :=
            fanOut accountExport rest
                   (recordError errorsByAccount account error) in
          ({| export_metrics := []; export_zoneCounts := zeroCounts |} :: results,
           errs)
      end
  end.

Definition addCounts (a b : ZoneCounts) : ZoneCounts :=
  {| total := total a + total b; filtered := filtered a + filtered b;
     processed := processed a + processed b;
     skippedFreeTier := skippedFreeTier a + skippedFreeTier b |}.

Definition aggregate (results : list AccountExport)
  : ZoneCounts * list MetricDefinition :=
  fold_left
    (fun '(zc, allMetrics) result =>
       (addCounts zc (export_zoneCounts result),
        allMetrics ++ export_metrics result))
    results (zeroCounts, []).

Definition gaugeOf (n h : string) (v : Z) : MetricDefinition :=
  {| name := n; help := h; type := gauge;
     values := [{| labels := []; value := v |}] |}.

(** [{ account_id: accountId, error_code: code }] *)
Definition errorLabels (accountId code : string) : Labels :=
  [("account_id", accountId); ("error_code", code)].

Definition errorRows (errorsByAccount : list (string * list ErrorTally))
  : list MetricValue :=
  flat_map
    (fun '(accountId, errors) =>
       map (fun e => {| labels := errorLabels accountId (code e);
                        value := count e |}) errors)
    errorsByAccount.

(** The [errorsMetric] of [buildExporterInfoMetrics], with its rows. *)
Definition errorsMetric (errorsByAccount : list (string * list ErrorTally))
  : MetricDefinition :=
  {| name := "cloudflare_exporter_errors_total";
     help := "Total errors during metric collection by account and error code";
     type := counter;
     values := errorRows errorsByAccount |}.

Definition buildExporterInfoMetrics (accountCount : Z) (zoneCounts : ZoneCounts)
    (errorsByAccount : list (string * list ErrorTally)) : list MetricDefinition :=
  let metrics :=
    [ gaugeOf "cloudflare_exporter_up" "Exporter health" 1;
      gaugeOf "cloudflare_accounts" "Total accounts discovered" accountCount;
      gaugeOf "cloudflare_zones" "Total zones before filtering" (total zoneCounts);
      gaugeOf "cloudflare_zones_filtered" "Zones after whitelist filter"
              (filtered zoneCounts);
      gaugeOf "cloudflare_zones_processed" "Zones successfully processed"
              (processed zoneCounts);
      gaugeOf "cloudflare_zones_skipped_free_tier"
              "Zones skipped due to free tier plan (no GraphQL analytics access)"
              (skippedFreeTier zoneCounts) ] in
  if (0 <? length errorsByAccount)%nat then
    metrics ++ [errorsMetric errorsByAccount]
  else metrics.

Definition serializeOptions (config : ResolvedConfig) : option SerializeOptions :=
  Some {| denylist := Some (parseCommaSeparated (metricsDenylist config));
          excludeLabels :=
            if excludeHost config then Some {["host"]} else None |}.

(** What [export()] hands to the serializer once the accounts are known. *)
Definition collect (accountExport : Account -> Thrown + AccountExport)
    (accounts : list Account) : list MetricDefinition :=
  let '(results, errorsByAccount) := fanOut accountExport accounts [] in
  let '(zoneCounts, allMetrics) := aggregate results in
  buildExporterInfoMetrics (Z.of_nat (length accounts)) zoneCounts errorsByAccount
    ++ allMetrics.

Definition exportLines (localeCompare : string -> string -> Z)
    (accountExport : Account -> Thrown + AccountExport)
    (config : ResolvedConfig) (accounts : list Account) : list Line :=
  match accounts with
  | [] => []
  | _ => serializeLines localeCompare (collect accountExport accounts)
                        (serializeOptions config)
  end.

(** [export()]: [state] is [None] before [setIdentifier]; [inl] is an
    exception leaving the method. *)
Definition export (localeCompare : string -> string -> Z) (client : Client)
    (accountExport : Account -> Thrown + AccountExport)
    (state : option State) (config : ResolvedConfig) (now : Z)
  : Thrown + string :=
  match state with
  | None => inl (JsError "State not initialized")
  | Some st =>
      match refreshAccountsIfStale client st config now with
      | inl e => inl e
      | inr (accounts, _) =>
          if bool_decide (accounts = []) then inr EmptyString
          else
            inr (serializeToPrometheus localeCompare
                   (collect accountExport accounts) (serializeOptions config))
      end
  end.

End MetricCoordinator.

(* ===================================================================== *)
(** ** Vocabulary of the statements and sample inputs *)
(* ===================================================================== *)

Definition sumZ (l : list Z) : Z := foldr Z.add 0 l.

Definition sampleCounter (w : Z) : MetricDefinition :=
  {| name := "cloudflare_zone_requests_total"; help := "Requests";
     type := counter;
     values := [{| labels := [("zone", "example.com")]; value := w |}] |}.

Definition sampleKey : string :=
  "cloudflare_zone_requests_total{zone=example.com}".

Definition sampleGauge : MetricDefinition :=
  {| name := "cloudflare_zone_pool_health"; help := "Pool health";
     type := gauge;
     values := [{| labels := [("zone", "example.com")]; value := 1 |}] |}.

(** Two rows [{host:"a"} = 3] and [{host:"b"} = 5] under one metric name. *)
Definition hostRows (n h : string) (t : MetricType) : MetricDefinition :=
  {| name := n; help := h; type := t;
     values := [{| labels := [("host", "a")]; value := 3 |};
                {| labels := [("host", "b")]; value := 5 |}] |}.

Definition excludeHostOnly : option SerializeOptions :=
  Some {| denylist := None; excludeLabels := Some {["host"]} |}.

Definition denyPoolHealth : option SerializeOptions :=
  Some {| denylist := Some {["cloudflare_zone_pool_health"]};
          excludeLabels := None |}.

(** One denied attempt: the request for admission, the warning and the
    sleep. *)
Definition backoffRound (attempt : nat) : list FetchEvent :=
  let delay := BASE_DELAY_MS * 2 ^ Z.of_nat attempt in
  [EvLimit "cf-api"; EvWarn delay attempt; EvSleep delay].

Definition sampleZone : Zone :=
  {| zone_id := "z1"; zone_name := "example.com"; zone_status := "active";
     zone_plan_id := "enterprise"; zone_plan_name := "Enterprise";
     zone_account_id := "acc1"; zone_account_name := "Example" |}.

Definition sampleConfig : ResolvedConfig :=
  {| scrapeDelaySeconds := 300; timeWindowSeconds := 60;
     metricRefreshIntervalSeconds := 60; accountListCacheTtlSeconds := 600;
     zoneListCacheTtlSeconds := 1800; sslCertsCacheTtlSeconds := 1800;
     cfAccounts := None; cfZones := None; cfFreeTierAccounts := EmptyString;
     metricsDenylist := EmptyString; excludeHost := false |}.

(** An upstream whose every call is rejected. *)
Definition failingClient : Client :=
  {| getAccounts := inl (JsError "upstream unavailable");
     getZones := fun _ => inl (JsError "upstream unavailable");
     getFirewallRules := fun _ => inl (JsError "upstream unavailable");
     getAccountMetrics := fun _ _ _ _ => inl (JsError "upstream unavailable");
     getZoneMetrics := fun _ _ _ _ _ => inl (JsError "upstream unavailable");
     getSSLCertificateMetricsForZone := fun _ => inl (JsError "upstream unavailable");
     getLbWeightMetricsForZone := fun _ => inl (JsError "upstream unavailable") |}.

Definition sampleExporterState : MetricExporter.State :=
  {| MetricExporter.scopeType := scope_account;
     MetricExporter.scopeId := "acc1";
     MetricExporter.queryName := "worker-totals";
     MetricExporter.counters := {[ sampleKey := {| accumulated := 7 |} ]};
     MetricExporter.metrics := [sampleCounter 7];
     MetricExporter.lastIngest := 0;
     MetricExporter.accountId := "acc1";
     MetricExporter.accountName := "Example";
     MetricExporter.zones := [sampleZone];
     MetricExporter.firewallRules := ∅;
     MetricExporter.zoneMetadata := None;
     MetricExporter.refreshInterval := 60;
     MetricExporter.lastRefresh := 1700000000000;
     MetricExporter.lastError := None;
     MetricExporter.lastSslFetch := 0 |}.

Definition sampleCoordinatorState (lastRefresh : Z)
  : AccountMetricCoordinator.State :=
  {| AccountMetricCoordinator.accountId := "acc1";
     AccountMetricCoordinator.accountName := "Example";
     AccountMetricCoordinator.zones := [sampleZone];
     AccountMetricCoordinator.totalZoneCount := 1;
     AccountMetricCoordinator.firewallRules := ∅;
     AccountMetricCoordinator.lastZoneFetch := lastRefresh;
     AccountMetricCoordinator.lastRefresh := lastRefresh |}.

(** The signature under which the serializer files a row. *)
Definition sigOf (localeCompare : string -> string -> Z) (v : MetricValue)
  : string :=
  labelSignature localeCompare (labels v).

(** The invariant of the aggregation loop: every entry of the map carries
    the labels of the first row seen with its signature, and every row seen
    has an entry. *)
Definition aggregated (localeCompare : string -> string -> Z)
    (m : list (string * MetricValue)) (seen : list MetricValue) : Prop :=
  (forall k r, mapGet m k = Some r ->
     exists v0, head (filter (fun x => sigOf localeCompare x = k) seen) = Some v0
                /\ labels r = labels v0)
  /\ (forall v, v ∈ seen -> is_Some (mapGet m (sigOf localeCompare v))).

(** The labels a row is serialized with under the coordinator's options. *)
Definition exportedLabels (config : ResolvedConfig) (ls : Labels) : Labels :=
  if excludeHost config then filterLabels ls {["host"]} else ls.

(** What the fan-out keeps for an account. *)
Definition accountResult (accountExport : Account -> Thrown + AccountExport)
    (a : Account) : AccountExport :=
  match accountExport a with
  | inr r => r
  | inl _ => {| export_metrics := [];
                export_zoneCounts := MetricCoordinator.zeroCounts |}
  end.

(** The tally map has an entry for [accountId] with the code [c]. *)
Definition tallied (errorsByAccount : list (string * list MetricCoordinator.ErrorTally))
    (accountId c : string) : Prop :=
  exists errors, mapGet errorsByAccount accountId = Some errors
                 /\ exists e, e ∈ errors /\ MetricCoordinator.code e = c.

(** Every code of the tally map is the name of an [ErrorCode]. *)
Definition codesNamed (errorsByAccount : list (string * list MetricCoordinator.ErrorTally))
  : Prop :=
  forall accountId errors e,
    (accountId, errors) ∈ errorsByAccount -> e ∈ errors ->
    exists c, MetricCoordinator.code e = errorCodeName c.

(** The error code the coordinator extracts from a failure, as text. *)
Definition thrownCode (error : Thrown) : string :=
  errorCodeName (info_code (extractErrorInfo error)).

Definition errorsName : string := "cloudflare_exporter_errors_total".

Definition sampleAccounts : list Account :=
  [ {| account_id := "acc1"; account_name := "One" |};
    {| account_id := "acc2"; account_name := "Two" |};
    {| account_id := "acc3"; account_name := "Three" |} ].

(** The second account's [export()] rejects; the others return one counter
    each. *)
Definition sampleAccountExport (a : Account) : Thrown + AccountExport :=
  if decide (account_id a = "acc2")
  then inl (CloudflarePrometheusError API_RATE_LIMITED "rate limited")
  else inr {| export_metrics := [sampleCounter 4];
              export_zoneCounts :=
                {| total := 1; filtered := 1; processed := 1;
                   skippedFreeTier := 0 |} |}.

Definition denyErrorsConfig : ResolvedConfig :=
  {| scrapeDelaySeconds := 300; timeWindowSeconds := 60;
     metricRefreshIntervalSeconds := 60; accountListCacheTtlSeconds := 600;
     zoneListCacheTtlSeconds := 1800; sslCertsCacheTtlSeconds := 1800;
     cfAccounts := None; cfZones := None; cfFreeTierAccounts := EmptyString;
     metricsDenylist := "cloudflare_exporter_errors_total";
     excludeHost := false |}.

(** An upstream that knows no account. *)
Definition emptyClient : Client :=
  {| getAccounts := inr [];
     getZones := fun _ => inr [];
     getFirewallRules := fun _ => inr [];
     getAccountMetrics := fun _ _ _ _ => inr [];
     getZoneMetrics := fun _ _ _ _ _ => inr [];
     getSSLCertificateMetricsForZone := fun _ => inr [];
     getLbWeightMetricsForZone := fun _ => inr [] |}.



(** How the aggregation folds the values of one signature: left to right,
    by sum for a counter and by maximum for a gauge. *)
Definition combineValues (t : MetricType) (l : list Z) : Z :=
  match l with
  | [] => 0
  | x :: rest =>
      fold_left (fun acc v => match t with
                              | counter => acc + v
                              | gauge => Z.max acc v
                              end) rest x
  end.

(** The invariant of the aggregation loop on keys and values: keys are
    distinct, every entry is filed under the signature of its labels, and
    its value combines the values of the rows seen with that signature. *)
Definition aggregatedValues (localeCompare : string -> string -> Z)
    (t : MetricType) (m : list (string * MetricValue))
    (seen : list MetricValue) : Prop :=
  NoDup (mapKeys m)
  /\ (forall k r, (k, r) ∈ m -> sigOf localeCompare r = k)
  /\ (forall k r, mapGet m k = Some r ->
        let group := filter (fun x => sigOf localeCompare x = k) seen in
        group <> [] /\ value r = combineValues t (map value group))
  /\ (forall v, v ∈ seen -> is_Some (mapGet m (sigOf localeCompare v))).

(** The names of the HELP lines, in order. *)
Definition helpNames (lines : list Line) : list string :=
  omap (fun l => match l with LHelp n _ => Some n | _ => None end) lines.

(** The names of the TYPE lines, in order. *)
Definition typeNames (lines : list Line) : list string :=
  omap (fun l => match l with LType n _ => Some n | _ => None end) lines.

(** Three rows of which the first and the last carry the same labels. *)
Definition duplicateRows : list MetricValue :=
  [ {| labels := [("zone", "a")]; value := 3 |};
    {| labels := [("zone", "b")]; value := 5 |};
    {| labels := [("zone", "a")]; value := 4 |} ].

(** [cmp] orders the keys [ks] consistently: any two are comparable, only
    equal keys compare both ways, and the order is transitive. *)
Definition collatesOn (cmp : string -> string -> Z) (ks : list string) : Prop :=
  Forall (fun a =>
    Forall (fun b =>
      (cmp a b <= 0 \/ cmp b a <= 0)
      /\ (cmp a b <= 0 -> cmp b a <= 0 -> a = b)
      /\ Forall (fun c => cmp a b <= 0 -> cmp b c <= 0 -> cmp a c <= 0) ks)
      ks) ks.

(** The same three labels, inserted in two different orders. *)
Definition labelsInOrder : Labels :=
  [("zone", "example.com"); ("host", "a"); ("status", "200")].

Definition labelsReordered : Labels :=
  [("status", "200"); ("zone", "example.com"); ("host", "a")].

(** The separators of [labelSignature]. *)
Definition nulChar : ascii := "000"%char.
Definition sohChar : ascii := "001"%char.

(** No key holds one of the two separators of the signature and no value
    holds the separator of the entries. *)
Definition separatorFree (ls : Labels) : Prop :=
  Forall (fun kv => countChar nulChar (fst kv) = 0%nat
                    /\ countChar sohChar (fst kv) = 0%nat
                    /\ countChar sohChar (snd kv) = 0%nat) ls.

(** The signatures of the counter rows of a snapshot, in visiting order. *)
Definition signaturesOf (localeCompare : string -> string -> Z)
    (ms : list MetricDefinition) : list string :=
  flat_map
    (fun m => match type m with
              | counter =>
                  map (fun v => metricKey localeCompare (name m) (labels v))
                      (values m)
              | gauge => []
              end) ms.

(** What [processCounters] may change in a metric: the values of its rows,
    nothing else. *)
Definition sameShape (m m' : MetricDefinition) : Prop :=
  name m' = name m /\ help m' = help m /\ type m' = type m
  /\ map labels (values m') = map labels (values m).

(** A zone on the free plan, and an exporter of a paid-tier query holding
    one paid and one free zone. *)
Definition freeZone : Zone :=
  {| zone_id := "z2"; zone_name := "free.example"; zone_status := "active";
     zone_plan_id := FREE_PLAN_ID; zone_plan_name := "Free";
     zone_account_id := "acc1"; zone_account_name := "Example" |}.

Definition httpExporterState (zs : list Zone) : MetricExporter.State :=
  {| MetricExporter.scopeType := scope_account;
     MetricExporter.scopeId := "acc1";
     MetricExporter.queryName := "http-metrics";
     MetricExporter.counters := ∅;
     MetricExporter.metrics := [];
     MetricExporter.lastIngest := 0;
     MetricExporter.accountId := "acc1";
     MetricExporter.accountName := "Example";
     MetricExporter.zones := zs;
     MetricExporter.firewallRules := ∅;
     MetricExporter.zoneMetadata := None;
     MetricExporter.refreshInterval := 60;
     MetricExporter.lastRefresh := 0;
     MetricExporter.lastError := None;
     MetricExporter.lastSslFetch := 0 |}.

Definition sslExporterState : MetricExporter.State :=
  {| MetricExporter.scopeType := scope_zone;
     MetricExporter.scopeId := "z1";
     MetricExporter.queryName := "ssl-certificates";
     MetricExporter.counters := ∅;
     MetricExporter.metrics := [];
     MetricExporter.lastIngest := 0;
     MetricExporter.accountId := "acc1";
     MetricExporter.accountName := "Example";
     MetricExporter.zones := [];
     MetricExporter.firewallRules := ∅;
     MetricExporter.zoneMetadata := Some sampleZone;
     MetricExporter.refreshInterval := 60;
     MetricExporter.lastRefresh := 0;
     MetricExporter.lastError := None;
     MetricExporter.lastSslFetch := 0 |}.

Definition freeTierConfig : ResolvedConfig :=
  {| scrapeDelaySeconds := 300; timeWindowSeconds := 60;
     metricRefreshIntervalSeconds := 60; accountListCacheTtlSeconds := 600;
     zoneListCacheTtlSeconds := 1800; sslCertsCacheTtlSeconds := 1800;
     cfAccounts := None; cfZones := None; cfFreeTierAccounts := "acc1";
     metricsDenylist := EmptyString; excludeHost := false |}.

(** An upstream that lists one zone and answers every metrics call with an
    empty list. *)
Definition oneZoneClient : Client :=
  {| getAccounts := inr [{| account_id := "acc1"; account_name := "Example" |}];
     getZones := fun _ => inr [sampleZone];
     getFirewallRules := fun _ => inr [];
     getAccountMetrics := fun _ _ _ _ => inr [];
     getZoneMetrics := fun _ _ _ _ _ => inr [];
     getSSLCertificateMetricsForZone := fun _ => inr [];
     getLbWeightMetricsForZone := fun _ => inr [] |}.

(** The count an account's tally list holds for an error code: that of the
    first entry with the code ([Array.prototype.find]), 0 when there is
    none. *)
Definition countOf (errors : list MetricCoordinator.ErrorTally) (c : string) : Z :=
  match List.find (fun e => bool_decide (MetricCoordinator.code e = c)) errors with
  | Some e => MetricCoordinator.count e
  | None => 0
  end.

Definition tallyOf (errorsByAccount : list (string * list MetricCoordinator.ErrorTally))
    (accountId c : string) : Z :=
  countOf (default [] (mapGet errorsByAccount accountId)) c.

(** How many accounts of the list carry the id [accountId] and have an
    export that rejects with the error code [c]. *)
Definition failuresOf (accountExport : Account -> Thrown + AccountExport)
    (accounts : list Account) (accountId c : string) : Z :=
  Z.of_nat
    (length
       (List.filter
          (fun a => match accountExport a with
                    | inl e => bool_decide (account_id a = accountId
                                            /\ thrownCode e = c)
                    | inr _ => false
                    end)
          accounts)).

(** The tally map is well formed: one entry per account id, one tally per
    code in it, and every count positive. *)
Definition tallyWellFormed
    (errorsByAccount : list (string * list MetricCoordinator.ErrorTally)) : Prop :=
  NoDup (mapKeys errorsByAccount)
  /\ forall accountId errors,
      (accountId, errors) ∈ errorsByAccount ->
      NoDup (map MetricCoordinator.code errors)
      /\ Forall (fun e => 0 < MetricCoordinator.count e) errors.

(** Three accounts of which the first and the last are rejected with the
    same code. *)
Definition twoFailures (a : Account) : Thrown + AccountExport :=
  if decide (account_id a = "acc2")
  then inr {| export_metrics := [];
              export_zoneCounts := MetricCoordinator.zeroCounts |}
  else inl (CloudflarePrometheusError API_RATE_LIMITED "rate limited").

Definition sameIdTwice : list Account :=
  [ {| account_id := "acc1"; account_name := "One" |};
    {| account_id := "acc1"; account_name := "One again" |} ].

Definition staleCoordinator : MetricCoordinator.State :=
  {| MetricCoordinator.identifier := "metric-coordinator";
     MetricCoordinator.accounts := sampleAccounts;
     MetricCoordinator.lastAccountFetch := 1700000000000 |}.

(** The test of [refreshAccountsIfStale] for answering from the cache. *)
Definition accountCacheFresh (state : MetricCoordinator.State)
    (config : ResolvedConfig) (now : Z) : Prop :=
  MetricCoordinator.accounts state <> []
  /\ now - MetricCoordinator.lastAccountFetch state
     < accountListCacheTtlSeconds config * 1000.

(* ===================================================================== *)
(** * Properties *)
(* ===================================================================== *)

(** ** Counter accumulator *)






Section CounterFacts.
Variable localeCompare : string -> string -> Z.









End CounterFacts.




(** ** Insertion-ordered maps *)

Section OrderedMapFacts.
Context {V : Type}.
Implicit Types (m : list (string * V)) (k : string) (v : V).

Lemma mapGet_mapSet_eq m k v : mapGet (mapSet m k v) k = Some v.
Proof.
  induction m as [|[k' v'] m IH]; simpl.
  - by rewrite decide_True.
  - destruct (decide (k = k')) as [->|Hne]; simpl.
    + by rewrite decide_True.
    + by rewrite decide_False.
Qed.

Lemma mapGet_mapSet_ne m k k' v : k <> k' -> mapGet (mapSet m k v) k' = mapGet m k'.
Proof.
  intros Hne. induction m as [|[k0 v0] m IH]; simpl.
  - by rewrite decide_False.
  - destruct (decide (k = k0)) as [->|Hk]; simpl.
    + by rewrite !decide_False.
    + destruct (decide (k' = k0)); [done|exact IH].
Qed.

Lemma mapGet_Some_elem m k v : mapGet m k = Some v -> (k, v) ∈ m.
Proof.
  induction m as [|[k0 v0] m IH]; simpl; [done|].
  destruct (decide (k = k0)) as [->|Hk].
  - intros [= ->]. left.
  - intros H. right. by apply IH.
Qed.

Lemma mapKeys_mapSet m k v k' :
  k' ∈ mapKeys (mapSet m k v) -> k' = k \/ k' ∈ mapKeys m.
Proof.
  unfold mapKeys. induction m as [|[k0 v0] m IH]; simpl.
  - intros H. apply list_elem_of_singleton in H. by left.
  - destruct (decide (k = k0)) as [->|Hk]; simpl.
    + intros H. right. done.
    + intros H. apply elem_of_cons in H as [->|H].
      * right. left.
      * apply IH in H as [->|H]; [by left|]. right. by right.
Qed.
End OrderedMapFacts.

(** ** Serializer *)

Section SerializerFacts.
Variable localeCompare : string -> string -> Z.

Lemma groupStep_denied (D E : gset string)
    (acc : list (string * MetricDefinition)) (m : MetricDefinition) :
  name m ∈ D -> groupStep D E acc m = acc.
Proof. intros H. unfold groupStep. by rewrite decide_True. Qed.

Lemma groupStep_keys (D E : gset string)
    (acc : list (string * MetricDefinition)) (m : MetricDefinition) (k : string) :
  k ∈ mapKeys (groupStep D E acc m) -> k ∈ mapKeys acc \/ (k = name m /\ name m ∉ D).
Proof.
  unfold groupStep. destruct (decide (name m ∈ D)) as [Hd|Hd]; [by left|].
  destruct (mapGet acc (name m)); intros H;
    apply mapKeys_mapSet in H as [->|H]; auto.
Qed.

Lemma fold_groupStep_keys (D E : gset string) (ms : list MetricDefinition) :
  forall acc : list (string * MetricDefinition),
    (forall k, k ∈ mapKeys acc -> k ∉ D) ->
    forall k, k ∈ mapKeys (fold_left (groupStep D E) ms acc) -> k ∉ D.
Proof.
  induction ms as [|m ms IH]; intros acc Hacc k; simpl; [by apply Hacc|].
  apply IH. intros k' Hk'.
  apply groupStep_keys in Hk' as [Hk'|[-> Hd]]; [by apply Hacc|done].
Qed.

Lemma fold_groupStep_filter (D E : gset string) (ms : list MetricDefinition) :
  forall acc : list (string * MetricDefinition),
    fold_left (groupStep D E) ms acc
    = fold_left (groupStep D E) (filter (fun m => name m ∉ D) ms) acc.
Proof.
  induction ms as [|m ms IH]; intros acc; simpl; [done|].
  rewrite filter_cons. destruct (decide (name m ∉ D)) as [Hd|Hd]; simpl.
  - apply IH.
  - rewrite groupStep_denied; [apply IH|]. by apply dec_stable.
Qed.

Lemma groupLines_name (n : string) (g : MetricDefinition) (l : Line) (n' : string) :
  l ∈ groupLines localeCompare n g -> lineName l = Some n' -> n' = n.
Proof.
  unfold groupLines. simpl. intros Hl Hn.
  apply elem_of_cons in Hl as [->|Hl]; [by injection Hn|].
  apply elem_of_cons in Hl as [->|Hl]; [by injection Hn|].
  apply elem_of_app in Hl as [Hl|Hl].
  - apply list_elem_of_fmap in Hl as (v & -> & _). by injection Hn.
  - apply list_elem_of_singleton in Hl as ->. discriminate.
Qed.

Lemma serializeLines_group (metrics : list MetricDefinition)
    (options : option SerializeOptions) (l : Line) :
  l ∈ serializeLines localeCompare metrics options <->
  exists n g, (n, g) ∈ groupMetrics metrics options
              /\ l ∈ groupLines localeCompare n g.
Proof.
  unfold serializeLines. rewrite list_elem_of_In, in_flat_map. split.
  - intros ([n g] & Hin & Hl). exists n, g.
    by rewrite !list_elem_of_In.
  - intros (n & g & Hin & Hl). exists (n, g).
    by rewrite <- !list_elem_of_In.
Qed.

(** C9. A denied metric name contributes nothing: no HELP, TYPE or value
    line of the output carries a name of the denylist, and the serialized
    text is the one obtained after removing every denied entry from the
    input, however many there are. *)
Theorem denylist_removes_metric (metrics : list MetricDefinition)
    (options : option SerializeOptions) :
  let denied := default ∅ (options ≫= denylist) in
  (forall (l : Line) (n : string),
      l ∈ serializeLines localeCompare metrics options ->
      lineName l = Some n -> n ∉ denied)
  /\ serializeToPrometheus localeCompare metrics options
     = serializeToPrometheus localeCompare
         (filter (fun m => name m ∉ denied) metrics) options.
Proof.
  intros denied. split.
  - intros l n Hl Hn.
    apply serializeLines_group in Hl as (n0 & g & Hin & Hl).
    rewrite (groupLines_name _ _ _ _ Hl Hn).
    unfold groupMetrics in Hin. fold denied in Hin.
    eapply fold_groupStep_keys; [|apply list_elem_of_fmap; by exists (n0, g)].
    intros k Hk. by apply elem_of_nil in Hk.
  - unfold serializeToPrometheus, serializeLines, groupMetrics. fold denied.
    by rewrite <- fold_groupStep_filter.
Qed.
End SerializerFacts.



Lemma denylist_removes_metric_witness :
  ("cloudflare_zone_requests_total"
     ∉ default (∅ : gset string) (denyPoolHealth ≫= denylist))
  /\ serializeToPrometheus codeUnitCompare
       [sampleGauge; sampleCounter 1; sampleGauge] denyPoolHealth
     = serializeToPrometheus codeUnitCompare [sampleCounter 1] denyPoolHealth.
Proof.
  pose proof (denylist_removes_metric codeUnitCompare
                [sampleGauge; sampleCounter 1; sampleGauge] denyPoolHealth)
    as [Hlines Htext].
  split.
  - apply (Hlines (LHelp "cloudflare_zone_requests_total" "Requests")).
    + apply list_elem_of_In. vm_compute. left. reflexivity.
    + reflexivity.
  - exact Htext.
Defined.

Section AggregationFacts.
Variable localeCompare : string -> string -> Z.

Lemma hostRows_lines (n h : string) (t : MetricType) :
  serializeLines localeCompare [hostRows n h t] excludeHostOnly
  = [LHelp n h; LType n t;
     LValue n [] (match t with counter => 8 | gauge => 5 end); LBlank].
Proof.
  cbv [serializeLines groupMetrics fold_left groupStep filteredValues hostRows name].
  rewrite decide_False by set_solver.
  destruct t; vm_compute; reflexivity.
Qed.

(** C2. One metric name with the rows [{host:"a"} = 3] and
    [{host:"b"} = 5], serialized with [excludeLabels = {host}], yields a
    single value row: 8 for a counter (sum), 5 for a gauge (maximum). *)
Theorem excluded_label_rows_are_merged (n h : string) :
  serializeLines localeCompare [hostRows n h counter] excludeHostOnly
  = [LHelp n h; LType n counter; LValue n [] 8; LBlank]
  /\ serializeLines localeCompare [hostRows n h gauge] excludeHostOnly
     = [LHelp n h; LType n gauge; LValue n [] 5; LBlank]
  /\ serializeToPrometheus localeCompare [hostRows n h counter] excludeHostOnly
     = join (str1 newlineChar)
         ["# HELP " +:+ n +:+ " " +:+ escapeHelp h;
          "# TYPE " +:+ n +:+ " counter"; n +:+ " 8"; EmptyString]
  /\ serializeToPrometheus localeCompare [hostRows n h gauge] excludeHostOnly
     = join (str1 newlineChar)
         ["# HELP " +:+ n +:+ " " +:+ escapeHelp h;
          "# TYPE " +:+ n +:+ " gauge"; n +:+ " 5"; EmptyString].
Proof.
  split; [exact (hostRows_lines n h counter)|].
  split; [exact (hostRows_lines n h gauge)|].
  unfold serializeToPrometheus.
  split.
  - rewrite (hostRows_lines n h counter). vm_compute. reflexivity.
  - rewrite (hostRows_lines n h gauge). vm_compute. reflexivity.
Qed.
End AggregationFacts.

(** ** Identity strings *)

Lemma append_cons (a : ascii) (s t : string) :
  String a s +:+ t = String a (s +:+ t).
Proof. reflexivity. Qed.

Lemma append_nil_l (t : string) : EmptyString +:+ t = t.
Proof. reflexivity. Qed.

Lemma append_nil_r (s : string) : s +:+ EmptyString = s.
Proof.
  induction s as [|a s IH]; [done|]. by rewrite append_cons, IH.
Qed.

Lemma append_assoc (s1 s2 s3 : string) : (s1 +:+ s2) +:+ s3 = s1 +:+ (s2 +:+ s3).
Proof.
  induction s1 as [|a s1 IH]; [done|]. by rewrite !append_cons, IH.
Qed.

Lemma append_eq_nil (s1 s2 : string) :
  s1 +:+ s2 = EmptyString -> s1 = EmptyString /\ s2 = EmptyString.
Proof. destruct s1; [by rewrite append_nil_l|]. rewrite append_cons. discriminate. Qed.

Lemma append_eq_cons (s1 s2 : string) (a : ascii) (s : string) :
  s1 +:+ s2 = String a s ->
  (s1 = EmptyString /\ s2 = String a s)
  \/ exists s1', s1 = String a s1' /\ s = s1' +:+ s2.
Proof.
  destruct s1 as [|b s1]; [rewrite append_nil_l; by left|].
  rewrite append_cons. intros [= -> <-]. right. by exists s1.
Qed.

Lemma matches_cat_inv (r1 r2 : regex) (s : string) :
  matches (Cat r1 r2) s ->
  exists s1 s2, s = s1 +:+ s2 /\ matches r1 s1 /\ matches r2 s2.
Proof. inversion 1; subst; eauto. Qed.

Lemma matches_alt_inv (r1 r2 : regex) (s : string) :
  matches (Alt r1 r2) s -> matches r1 s \/ matches r2 s.
Proof. inversion 1; subst; eauto. Qed.

Lemma matches_chr_inv (c : ascii) (s : string) : matches (Chr c) s -> s = str1 c.
Proof. by inversion 1. Qed.

Lemma matches_notchr_inv (c : ascii) (s : string) :
  matches (NotChr c) s -> exists a, a <> c /\ s = str1 a.
Proof. inversion 1; subst; eauto. Qed.

Lemma matches_eps_inv (s : string) : matches Eps s -> s = EmptyString.
Proof. by inversion 1. Qed.

Lemma matches_void_inv (s : string) : ~ matches Void s.
Proof. inversion 1. Qed.

Lemma nullable_matches (r : regex) : nullable r = true <-> matches r EmptyString.
Proof.
  induction r as [| |c|c|r1 IH1 r2 IH2|r1 IH1 r2 IH2|r IH]; simpl.
  - split; [done|]. intros H. by apply matches_void_inv in H.
  - split; [constructor|done].
  - split; [done|]. intros H. by apply matches_chr_inv in H.
  - split; [done|]. intros H. by apply matches_notchr_inv in H as (a & _ & ?).
  - rewrite andb_true_iff, IH1, IH2. split.
    + intros [H1 H2]. apply (MCat _ _ EmptyString EmptyString H1 H2).
    + intros H. apply matches_cat_inv in H as (s1 & s2 & Heq & H1 & H2).
      symmetry in Heq. apply append_eq_nil in Heq as [-> ->]. done.
  - rewrite orb_true_iff, IH1, IH2. split.
    + intros [H|H]; [by apply MAltL|by apply MAltR].
    + apply matches_alt_inv.
  - split; [constructor|done].
Qed.

Lemma matches_star_cons (r : regex) (a : ascii) (s : string) :
  matches (Star r) (String a s) ->
  exists s1 s2, s = s1 +:+ s2 /\ matches r (String a s1) /\ matches (Star r) s2.
Proof.
  intros H. remember (Star r) as r' eqn:Hr. remember (String a s) as w eqn:Hw.
  induction H as [| | | | | | |r0 s1 s2 H1 _ H2 IH2]; try discriminate.
  injection Hr as ->.
  destruct s1 as [|b s1].
  - rewrite append_nil_l in Hw. by apply IH2.
  - rewrite append_cons in Hw. injection Hw as -> <-. by exists s1, s2.
Qed.

Lemma deriv_matches (r : regex) :
  forall (a : ascii) (s : string),
    matches (deriv a r) s <-> matches r (String a s).
Proof.
  induction r as [| |c|c|r1 IH1 r2 IH2|r1 IH1 r2 IH2|r IH]; intros a s; simpl.
  - split; intros H; by apply matches_void_inv in H.
  - split; intros H; [by apply matches_void_inv in H|by apply matches_eps_inv in H].
  - destruct (Ascii.eqb_spec a c) as [->|Hne]; split; intros H.
    + apply matches_eps_inv in H as ->. constructor.
    + apply matches_chr_inv in H. injection H as ->. constructor.
    + by apply matches_void_inv in H.
    + apply matches_chr_inv in H. injection H as -> _. done.
  - destruct (Ascii.eqb_spec a c) as [->|Hne]; split; intros H.
    + by apply matches_void_inv in H.
    + apply matches_notchr_inv in H as (b & Hb & [= -> _]). done.
    + apply matches_eps_inv in H as ->. by constructor.
    + apply matches_notchr_inv in H as (b & Hb & [= -> ->]). constructor.
  - assert (Hcat : matches (Cat (deriv a r1) r2) s ->
                   matches (Cat r1 r2) (String a s)).
    { intros H. apply matches_cat_inv in H as (s1 & s2 & -> & H1 & H2).
      apply IH1 in H1. apply (MCat _ _ (String a s1) s2 H1 H2). }
    assert (Hinv : matches (Cat r1 r2) (String a s) ->
                   matches (Cat (deriv a r1) r2) s
                   \/ (matches r1 EmptyString /\ matches (deriv a r2) s)).
    { intros H. apply matches_cat_inv in H as (s1 & s2 & Heq & H1 & H2).
      symmetry in Heq.
      apply append_eq_cons in Heq as [[-> ->]|(s1' & -> & ->)].
      - right. split; [done|]. by apply IH2.
      - left. constructor; [by apply IH1|done]. }
    destruct (nullable r1) eqn:Hn.
    + split.
      * intros H. apply matches_alt_inv in H as [H|H]; [by apply Hcat|].
        apply (MCat _ _ EmptyString (String a s)); [by apply nullable_matches|].
        by apply IH2.
      * intros H. apply Hinv in H as [H|[_ H]]; [by apply MAltL|by apply MAltR].
    + split; [exact Hcat|].
      intros H. apply Hinv in H as [H|[H _]]; [done|].
      apply nullable_matches in H. congruence.
  - split; intros H; apply matches_alt_inv in H as [H|H];
      first [apply MAltL; by apply IH1 | apply MAltR; by apply IH2].
  - split.
    + intros H. apply matches_cat_inv in H as (s1 & s2 & -> & H1 & H2).
      apply IH in H1. apply (MStarCons _ (String a s1) s2 H1 H2).
    + intros H. apply matches_star_cons in H as (s1 & s2 & -> & H1 & H2).
      constructor; [by apply IH|done].
Qed.

Lemma regexTest_matches (s : string) :
  forall r : regex, regexTest r s = true <-> matches r s.
Proof.
  induction s as [|a s IH]; intros r; simpl.
  - apply nullable_matches.
  - rewrite IH. apply deriv_matches.
Qed.

Lemma matches_literal (w s : string) : matches (literal w) s <-> s = w.
Proof.
  revert s. induction w as [|c w IH]; intros s; simpl.
  - split; [apply matches_eps_inv|intros ->; constructor].
  - split.
    + intros H. apply matches_cat_inv in H as (s1 & s2 & -> & H1 & H2).
      apply matches_chr_inv in H1 as ->. apply IH in H2 as ->. done.
    + intros ->. apply (MCat _ _ (str1 c) w); [constructor|by apply IH].
Qed.

Lemma countChar_append (c : ascii) (s1 s2 : string) :
  countChar c (s1 +:+ s2) = (countChar c s1 + countChar c s2)%nat.
Proof.
  induction s1 as [|a s1 IH]; [done|].
  rewrite append_cons. simpl. rewrite IH. lia.
Qed.

Lemma countChar_cons_0 (c a : ascii) (s : string) :
  countChar c (String a s) = 0%nat <-> a <> c /\ countChar c s = 0%nat.
Proof.
  simpl. destruct (Ascii.eqb_spec a c) as [->|Hne]; split.
  - discriminate.
  - by intros [? _].
  - by intros H.
  - by intros [_ ?].
Qed.

Lemma matches_star_notchr (c : ascii) (s : string) :
  matches (Star (NotChr c)) s <-> countChar c s = 0%nat.
Proof.
  induction s as [|a s IH].
  - split; [done|constructor].
  - rewrite countChar_cons_0. split.
    + intros H. apply matches_star_cons in H as (s1 & s2 & -> & H1 & H2).
      apply matches_notchr_inv in H1 as (b & Hb & [= -> ->]).
      rewrite append_nil_l in IH. split; [done|]. by apply IH.
    + intros [Hne Hs]. apply (MStarCons _ (str1 a) s); [by constructor|].
      by apply IH.
Qed.

Lemma matches_plus_notchr (c : ascii) (s : string) :
  matches (Plus (NotChr c)) s <-> s <> EmptyString /\ countChar c s = 0%nat.
Proof.
  unfold Plus. split.
  - intros H. apply matches_cat_inv in H as (s1 & s2 & -> & H1 & H2).
    apply matches_notchr_inv in H1 as (a & Ha & ->).
    apply matches_star_notchr in H2.
    split; [done|]. by apply countChar_cons_0.
  - intros [Hne Hc]. destruct s as [|a s]; [done|].
    apply countChar_cons_0 in Hc as [Ha Hs].
    apply (MCat _ _ (str1 a) s); [by constructor|].
    by apply matches_star_notchr.
Qed.

Lemma idPattern_matches (s : string) :
  matches idPattern s <->
  exists (t : ScopeType) (a b : string),
    s = idText t a b
    /\ (a <> EmptyString /\ countChar colonChar a = 0%nat)
    /\ (b <> EmptyString /\ countChar colonChar b = 0%nat).
Proof.
  unfold idPattern, idText. split.
  - intros H.
    apply matches_cat_inv in H as (p & s1 & -> & Hp & H).
    apply matches_cat_inv in H as (c1 & s2 & -> & Hc1 & H).
    apply matches_cat_inv in H as (a & s3 & -> & Ha & H).
    apply matches_cat_inv in H as (c2 & b & -> & Hc2 & Hb).
    apply matches_chr_inv in Hc1 as ->. apply matches_chr_inv in Hc2 as ->.
    apply matches_plus_notchr in Ha. apply matches_plus_notchr in Hb.
    apply matches_alt_inv in Hp as [Hp|Hp]; apply matches_literal in Hp as ->.
    + by exists scope_account, a, b.
    + by exists scope_zone, a, b.
  - intros (t & a & b & -> & Ha & Hb).
    apply MCat.
    { destruct t; [apply MAltL|apply MAltR]; by apply matches_literal. }
    apply MCat; [constructor|].
    apply MCat; [by apply matches_plus_notchr|].
    apply MCat; [constructor|by apply matches_plus_notchr].
Qed.

Lemma split_nonempty (c : ascii) (s : string) : split c s <> [].
Proof.
  induction s as [|a s IH]; simpl; [done|].
  destruct (Ascii.eqb a c); [done|]. by destruct (split c s).
Qed.

Lemma split_no_sep (c : ascii) (s : string) :
  countChar c s = 0%nat -> split c s = [s].
Proof.
  induction s as [|a s IH]; [done|].
  intros H. apply countChar_cons_0 in H as [Ha Hs]. simpl.
  destruct (Ascii.eqb_spec a c); [done|]. by rewrite IH.
Qed.

Lemma split_append_sep (c : ascii) (p rest : string) :
  countChar c p = 0%nat ->
  split c (p +:+ String c rest) = p :: split c rest.
Proof.
  induction p as [|a p IH]; intros H.
  - rewrite append_nil_l. simpl. by rewrite Ascii.eqb_refl.
  - apply countChar_cons_0 in H as [Ha Hp]. rewrite append_cons. simpl.
    destruct (Ascii.eqb_spec a c); [done|]. by rewrite IH.
Qed.

Lemma split_idText (t : ScopeType) (a b : string) :
  countChar colonChar a = 0%nat -> countChar colonChar b = 0%nat ->
  split colonChar (idText t a b) = [scopeName t; a; b].
Proof.
  intros Ha Hb. unfold idText, str1.
  rewrite !append_cons, !append_nil_l.
  rewrite split_append_sep by (by destruct t).
  rewrite split_append_sep by done.
  by rewrite split_no_sep.
Qed.

Lemma countChar_idText (t : ScopeType) (a b : string) :
  countChar colonChar a = 0%nat -> countChar colonChar b = 0%nat ->
  countChar colonChar (idText t a b) = 2%nat.
Proof.
  intros Ha Hb. unfold idText. rewrite !countChar_append, Ha, Hb.
  by destruct t.
Qed.

Lemma parse_idText (t : ScopeType) (a b : string) :
  a <> EmptyString -> countChar colonChar a = 0%nat ->
  b <> EmptyString -> countChar colonChar b = 0%nat ->
  MetricExporterIdSchema_parse (idText t a b)
  = Some {| id_scopeType := t; id_scopeId := a; id_queryName := b |}.
Proof.
  intros Ha Hca Hb Hcb. unfold MetricExporterIdSchema_parse.
  assert (Ht : regexTest idPattern (idText t a b) = true).
  { apply regexTest_matches, idPattern_matches. by exists t, a, b. }
  rewrite Ht, split_idText by done.
  destruct a as [|x a]; [done|]. destruct b as [|y b]; [done|].
  by destruct t.
Qed.

Lemma parse_Some_inv (s : string) (id : MetricExporterId) :
  MetricExporterIdSchema_parse s = Some id ->
  s = idText (id_scopeType id) (id_scopeId id) (id_queryName id)
  /\ (id_scopeId id <> EmptyString /\ countChar colonChar (id_scopeId id) = 0%nat)
  /\ (id_queryName id <> EmptyString
      /\ countChar colonChar (id_queryName id) = 0%nat).
Proof.
  intros H.
  destruct (regexTest idPattern s) eqn:Ht.
  - apply regexTest_matches, idPattern_matches in Ht
      as (t & a & b & -> & [Ha Hca] & [Hb Hcb]).
    rewrite parse_idText in H by done. by injection H as <-.
  - unfold MetricExporterIdSchema_parse in H. by rewrite Ht in H.
Qed.

(** C4. The sample identity parses to its three fields; a string that
    parses consists of exactly three colon-separated parts, the first being
    "account" or "zone" and the other two non-empty, and the result holds
    those parts; a string that does not have exactly two colons, or does not
    start with "account:" or "zone:", is rejected. *)
Theorem exporter_id_parsing :
  MetricExporterIdSchema_parse "account:abc123:worker-totals"
  = Some {| id_scopeType := scope_account; id_scopeId := "abc123";
            id_queryName := "worker-totals" |}
  /\ (forall (s : string) (id : MetricExporterId),
        MetricExporterIdSchema_parse s = Some id ->
        split colonChar s
        = [scopeName (id_scopeType id); id_scopeId id; id_queryName id]
        /\ id_scopeId id <> EmptyString /\ id_queryName id <> EmptyString)
  /\ (forall s : string,
        countChar colonChar s <> 2%nat -> MetricExporterIdSchema_parse s = None)
  /\ (forall s : string,
        (forall rest, s <> "account:" +:+ rest) ->
        (forall rest, s <> "zone:" +:+ rest) ->
        MetricExporterIdSchema_parse s = None).
Proof.
  split; [by vm_compute|]. split; [|split].
  - intros s id H.
    apply parse_Some_inv in H as (Hs & [Ha Hca] & [Hb Hcb]).
    rewrite Hs at 1. by rewrite split_idText.
  - intros s Hc. destruct (MetricExporterIdSchema_parse s) as [id|] eqn:H; [|done].
    apply parse_Some_inv in H as (Hs & [Ha Hca] & [Hb Hcb]).
    rewrite Hs, countChar_idText in Hc; done.
  - intros s Hacc Hzone.
    destruct (MetricExporterIdSchema_parse s) as [id|] eqn:H; [|done].
    apply parse_Some_inv in H as (Hs & _).
    destruct (id_scopeType id).
    + by destruct (Hacc (id_scopeId id +:+ str1 colonChar +:+ id_queryName id)).
    + by destruct (Hzone (id_scopeId id +:+ str1 colonChar +:+ id_queryName id)).
Qed.

Lemma exporter_id_parsing_witness :
  split colonChar "zone:z1:ssl-certificates" = ["zone"; "z1"; "ssl-certificates"]
  /\ MetricExporterIdSchema_parse "account:abc123" = None
  /\ MetricExporterIdSchema_parse "user:u1:http-metrics" = None.
Proof.
  destruct exporter_id_parsing as (_ & Hparts & Hcolons & Hprefix).
  split; [|split].
  - apply (Hparts "zone:z1:ssl-certificates"
             {| id_scopeType := scope_zone; id_scopeId := "z1";
                id_queryName := "ssl-certificates" |}).
    by vm_compute.
  - apply Hcolons. by vm_compute.
  - apply Hprefix; intros rest H; inversion H.
Defined.

(** ** Shared time window *)

Lemma setSecondsZero_aligned (t : Z) : minuteAligned (setSecondsZero t).
Proof.
  unfold minuteAligned, setSecondsZero.
  rewrite Zminus_mod, Zmod_mod, Z.sub_diag. reflexivity.
Qed.

Lemma minuteAligned_shift (t s : Z) :
  minuteAligned t -> (minuteAligned (t - s * 1000) <-> s mod 60 = 0).
Proof.
  unfold minuteAligned. intros Ht.
  assert (H1 : (t - s * 1000) mod 60000 = (- (s * 1000)) mod 60000).
  { replace (t - s * 1000) with (- (s * 1000) + (t / 60000) * 60000).
    - apply Z_mod_plus_full.
    - pose proof (Z_div_mod_eq_full t 60000). lia. }
  rewrite H1. split; intros H.
  - apply Z.mod_divide in H; [|lia]. apply Z.mod_divide; [lia|].
    destruct H as [q Hq]. exists (- q). lia.
  - apply Z.mod_divide in H; [|lia]. apply Z.mod_divide; [lia|].
    destruct H as [q Hq]. exists (- q). lia.
Qed.

(** C8 (as amended). [getTimeRange] truncates the current time to the
    start of its minute and then subtracts the scrape delay and the window:
    [maxtime] is that minute start minus the delay, [mintime] is [maxtime]
    minus the window, so [maxtime - mintime] is exactly the window; an
    endpoint is whole-minute-aligned exactly when the seconds subtracted to
    reach it are a multiple of 60. *)
Theorem time_range_window (now scrapeDelaySeconds timeWindowSeconds : Z) :
  let r := getTimeRange now (Some scrapeDelaySeconds) (Some timeWindowSeconds) in
  maxtime r = setSecondsZero now - scrapeDelaySeconds * 1000
  /\ mintime r = maxtime r - timeWindowSeconds * 1000
  /\ maxtime r - mintime r = timeWindowSeconds * 1000
  /\ (minuteAligned (maxtime r) <-> scrapeDelaySeconds mod 60 = 0)
  /\ (minuteAligned (mintime r)
      <-> (scrapeDelaySeconds + timeWindowSeconds) mod 60 = 0).
Proof.
  simpl. repeat split; try lia.
  - by apply minuteAligned_shift, setSecondsZero_aligned.
  - intros H. apply (minuteAligned_shift (setSecondsZero now) scrapeDelaySeconds);
      [apply setSecondsZero_aligned|done].
  - intros H.
    apply (minuteAligned_shift (setSecondsZero now)
             (scrapeDelaySeconds + timeWindowSeconds));
      [apply setSecondsZero_aligned|].
    by replace (setSecondsZero now - (scrapeDelaySeconds + timeWindowSeconds) * 1000)
      with (setSecondsZero now - scrapeDelaySeconds * 1000
            - timeWindowSeconds * 1000) by lia.
  - intros H.
    replace (setSecondsZero now - scrapeDelaySeconds * 1000
             - timeWindowSeconds * 1000)
      with (setSecondsZero now - (scrapeDelaySeconds + timeWindowSeconds) * 1000)
      by lia.
    by apply minuteAligned_shift; [apply setSecondsZero_aligned|].
Qed.

(** The claim as stated fails for a scrape delay of 30 seconds: the window
    then ends 30 seconds past a minute. *)
Lemma time_range_not_aligned :
  ~ (forall now scrapeDelaySeconds timeWindowSeconds : Z,
       0 <= scrapeDelaySeconds -> 0 < timeWindowSeconds ->
       let r := getTimeRange now (Some scrapeDelaySeconds)
                             (Some timeWindowSeconds) in
       minuteAligned (maxtime r) /\ minuteAligned (mintime r)).
Proof.
  intros H. destruct (H 1700000000000 30 60) as [Hmax _]; [lia..|].
  vm_compute in Hmax. discriminate.
Qed.

(** ** Rate-limited fetch *)

Section RateLimitedFetchFacts.
Context {Response : Type}.
Variable limiter : nat -> bool.
Variable fetch : string + Response.

Lemma rateLimitedFetch_cases :
  rateLimitedFetch limiter fetch
  = Some
      (if limiter 0%nat then (fetch, [EvLimit "cf-api"; EvFetch])
       else if limiter 1%nat then
         (fetch, backoffRound 0 ++ [EvLimit "cf-api"; EvFetch])
       else if limiter 2%nat then
         (fetch, backoffRound 0 ++ backoffRound 1 ++ [EvLimit "cf-api"; EvFetch])
       else if limiter 3%nat then
         (fetch, backoffRound 0 ++ backoffRound 1 ++ backoffRound 2
                   ++ [EvLimit "cf-api"; EvFetch])
       else
         (inl "Rate limit exceeded after retries",
          backoffRound 0 ++ backoffRound 1 ++ backoffRound 2
            ++ [EvLimit "cf-api"; EvError 3])).
Proof.
  unfold rateLimitedFetch. vm_compute.
  destruct (limiter 0%nat); [done|]. destruct (limiter 1%nat); [done|].
  destruct (limiter 2%nat); [done|]. by destruct (limiter 3%nat).
Qed.

(** C7. The wrapper asks the limiter before the single outbound call it
    can make; a denial at attempt 0, 1, 2 is followed by a sleep of 250,
    500, 1000 ms and another request for admission; after four consecutive
    denials it throws without having called the underlying fetch. *)
Theorem rate_limited_fetch_backoff :
  (exists (r : string + Response) (evs : list FetchEvent),
      rateLimitedFetch limiter fetch = Some (r, evs)
      /\ (forall i : nat,
            evs !! i = Some EvFetch ->
            exists j : nat, i = S j /\ evs !! j = Some (EvLimit "cf-api"))
      /\ (EvFetch ∈ evs -> r = fetch))
  /\ (forall k : nat,
        (k <= MAX_RETRIES)%nat ->
        (forall i : nat, (i < k)%nat -> limiter i = false) ->
        limiter k = true ->
        rateLimitedFetch limiter fetch
        = Some (fetch,
                flat_map backoffRound (seq 0 k) ++ [EvLimit "cf-api"; EvFetch]))
  /\ (limiter 0%nat = false -> limiter 1%nat = false ->
      limiter 2%nat = false -> limiter 3%nat = false ->
      rateLimitedFetch limiter fetch
      = Some (inl "Rate limit exceeded after retries",
              [EvLimit "cf-api"; EvWarn 250 0; EvSleep 250;
               EvLimit "cf-api"; EvWarn 500 1; EvSleep 500;
               EvLimit "cf-api"; EvWarn 1000 2; EvSleep 1000;
               EvLimit "cf-api"; EvError 3])
      /\ forall r evs, rateLimitedFetch limiter fetch = Some (r, evs) ->
                       EvFetch ∉ evs).
Proof.
  rewrite rateLimitedFetch_cases. split; [|split].
  - destruct (limiter 0%nat); [|destruct (limiter 1%nat);
      [|destruct (limiter 2%nat); [|destruct (limiter 3%nat)]]];
      eexists _, _; (split; [reflexivity|]); (split; [|try done]).
    all: try (intros i Hi;
              do 12 (destruct i as [|i]; [try discriminate Hi; eauto|]);
              discriminate Hi).
    intros Hin. exfalso. vm_compute in Hin.
    repeat (apply elem_of_cons in Hin as [Hin|Hin]; [discriminate Hin|]).
    by apply elem_of_nil in Hin.
  - intros k Hk Hden Hadm. unfold MAX_RETRIES in Hk.
    destruct k as [|[|[|[|k]]]]; [..|lia].
    + by rewrite Hadm.
    + by rewrite (Hden 0%nat), Hadm by lia.
    + by rewrite (Hden 0%nat), (Hden 1%nat), Hadm by lia.
    + by rewrite (Hden 0%nat), (Hden 1%nat), (Hden 2%nat), Hadm by lia.
  - intros H0 H1 H2 H3. rewrite H0, H1, H2, H3. split; [reflexivity|].
    intros r evs [= <- <-] Hin. vm_compute in Hin.
    repeat (apply elem_of_cons in Hin as [Hin|Hin]; [discriminate Hin|]).
    by apply elem_of_nil in Hin.
Qed.
End RateLimitedFetchFacts.

Lemma rate_limited_fetch_backoff_witness :
  rateLimitedFetch (fun _ => false) (inr 200 : string + Z)
  = Some (inl "Rate limit exceeded after retries",
          [EvLimit "cf-api"; EvWarn 250 0; EvSleep 250;
           EvLimit "cf-api"; EvWarn 500 1; EvSleep 500;
           EvLimit "cf-api"; EvWarn 1000 2; EvSleep 1000;
           EvLimit "cf-api"; EvError 3])
  /\ rateLimitedFetch (fun i => bool_decide (i = 2%nat)) (inr 200 : string + Z)
     = Some (inr 200,
             flat_map backoffRound (seq 0 2) ++ [EvLimit "cf-api"; EvFetch]).
Proof.
  split.
  - apply (rate_limited_fetch_backoff (fun _ => false) (inr 200)); reflexivity.
  - apply (rate_limited_fetch_backoff (fun i => bool_decide (i = 2%nat)) (inr 200)).
    + unfold MAX_RETRIES. lia.
    + intros i Hi. apply bool_decide_eq_false. lia.
    + reflexivity.
Defined.

(** ** Query exporter *)



(** ** Account coordinator *)

Lemma refreshZonesAndPushContext_events (client : Client)
    (state : AccountMetricCoordinator.State) (config : ResolvedConfig) (now : Z) :
  Forall (fun e => AccountMetricCoordinator.isExporterExport e = false)
    (snd (AccountMetricCoordinator.refreshZonesAndPushContext client state config now)).
Proof.
  unfold AccountMetricCoordinator.refreshZonesAndPushContext.
  assert (Hpush : forall zs,
             Forall (fun e => AccountMetricCoordinator.isExporterExport e = false)
                    (AccountMetricCoordinator.pushContext state config zs)).
  { intros zs. unfold AccountMetricCoordinator.pushContext.
    apply Forall_app. split.
    - apply Forall_forall. intros e He.
      apply list_elem_of_fmap in He as (q & -> & _). done.
    - destruct (AccountMetricCoordinator.isFreeTierAccount config state); [done|].
      apply Forall_forall. intros e He.
      apply list_elem_of_In, in_flat_map in He as (z & _ & He).
      apply list_elem_of_In, list_elem_of_fmap in He as (q & -> & _). done. }
  destruct (_ || _).
  - destruct (getZones client _) as [e|allZones]; simpl.
    + by repeat constructor.
    + constructor; [done|].
      apply Forall_app. split; [|apply Hpush].
      apply Forall_app. split; [|by repeat constructor].
      apply Forall_forall. intros e He.
      apply list_elem_of_fmap in He as (z & -> & _). done.
  - simpl. apply Hpush.
Qed.

Lemma refresh_events (client : Client)
    (state : AccountMetricCoordinator.State) (config : ResolvedConfig) (now : Z) :
  let evs := snd (AccountMetricCoordinator.refresh client state config now) in
  Forall (fun e => AccountMetricCoordinator.isExporterExport e = false) evs
  /\ AccountMetricCoordinator.SetAlarm
       (now + metricRefreshIntervalSeconds config * 1000) ∈ evs.
Proof.
  unfold AccountMetricCoordinator.refresh.
  pose proof (refreshZonesAndPushContext_events client state config now) as H.
  destruct (AccountMetricCoordinator.refreshZonesAndPushContext client state config now)
    as [[e|st'] evs]; simpl in *.
  - split.
    + apply Forall_app. split; [done|by repeat constructor].
    + apply elem_of_app. right. left.
  - split.
    + apply Forall_app. split; [done|by repeat constructor].
    + apply elem_of_app. right. right. left.
Qed.




(** ** Grouping and aggregation in the serializer *)

Section GroupingFacts.
Variable localeCompare : string -> string -> Z.

Lemma fold_groupStep_get (D E : gset string) (n : string) :
  n ∉ D ->
  forall (ms : list MetricDefinition) (acc : list (string * MetricDefinition)),
    mapGet (fold_left (groupStep D E) ms acc) n
    = match mapGet acc n with
      | Some g =>
          Some {| name := name g; help := help g; type := type g;
                  values :=
                    values g
                    ++ flat_map (filteredValues E)
                         (filter (fun m => name m = n) ms) |}
      | None =>
          match filter (fun m => name m = n) ms with
          | [] => None
          | m0 :: rest =>
              Some {| name := name m0; help := help m0; type := type m0;
                      values :=
                        filteredValues E m0
                        ++ flat_map (filteredValues E) rest |}
          end
      end.
Proof.
  intros Hn. induction ms as [|m ms IH]; intros acc.
  - simpl. destruct (mapGet acc n) as [[]|]; simpl; [|done].
    by rewrite app_nil_r.
  - simpl fold_left. rewrite IH, filter_cons.
    destruct (decide (name m = n)) as [Hm|Hm].
    + unfold groupStep. rewrite decide_False by (by rewrite Hm).
      rewrite Hm.
      destruct (mapGet acc n) as [g|]; rewrite mapGet_mapSet_eq; simpl.
      * by rewrite <- app_assoc.
      * done.
    + assert (Hget : mapGet (groupStep D E acc m) n = mapGet acc n).
      { unfold groupStep. destruct (decide (name m ∈ D)); [done|].
        destruct (mapGet acc (name m)); by rewrite mapGet_mapSet_ne. }
      by rewrite Hget.
Qed.

(** The group of a name that is not denied: header of the first entry,
    rows of all entries in order. *)
Lemma groupMetrics_first (options : option SerializeOptions)
    (pre post : list MetricDefinition) (m : MetricDefinition) :
  name m ∉ default ∅ (options ≫= denylist) ->
  Forall (fun m' => name m' <> name m) pre ->
  exists rest,
    mapGet (groupMetrics (pre ++ m :: post) options) (name m)
    = Some {| name := name m; help := help m; type := type m;
              values :=
                filteredValues (default ∅ (options ≫= excludeLabels)) m
                ++ rest |}.
Proof.
  intros Hn Hpre. unfold groupMetrics.
  rewrite (fold_groupStep_get _ _ _ Hn). simpl.
  rewrite filter_app, filter_cons, decide_True by done.
  assert (Hnil : filter (fun m' => name m' = name m) pre = []).
  { clear -Hpre. induction pre as [|x pre IH]; [done|].
    inversion Hpre; subst. rewrite filter_cons, decide_False by done. auto. }
  rewrite Hnil. simpl. by eexists.
Qed.

Lemma groupMetrics_member (options : option SerializeOptions)
    (ms : list MetricDefinition) (m : MetricDefinition) :
  name m ∉ default ∅ (options ≫= denylist) ->
  m ∈ ms ->
  exists g,
    mapGet (groupMetrics ms options) (name m) = Some g
    /\ forall v,
        v ∈ filteredValues (default ∅ (options ≫= excludeLabels)) m ->
        v ∈ values g.
Proof.
  intros Hn Hm. unfold groupMetrics.
  rewrite (fold_groupStep_get _ _ _ Hn). simpl.
  assert (Hin : m ∈ filter (fun m' => name m' = name m) ms)
    by (by apply list_elem_of_filter).
  destruct (filter (fun m' => name m' = name m) ms) as [|m0 rest] eqn:Hf.
  - by apply elem_of_nil in Hin.
  - eexists. split; [reflexivity|]. simpl. intros v Hv.
    change (v ∈ flat_map (filteredValues (default ∅ (options ≫= excludeLabels)))
                (m0 :: rest)).
    apply list_elem_of_In, in_flat_map. exists m.
    split; by apply list_elem_of_In.
Qed.

Lemma aggregateStep_aggregated (t : MetricType)
    (m : list (string * MetricValue)) (seen : list MetricValue) (v : MetricValue) :
  aggregated localeCompare m seen ->
  aggregated localeCompare (aggregateStep localeCompare t m v) (seen ++ [v]).
Proof.
  intros [Hfirst Hall]. unfold aggregateStep. fold (sigOf localeCompare v).
  split.
  - intros k r Hk. rewrite filter_app.
    destruct (decide (sigOf localeCompare v = k)) as [<-|Hne].
    + destruct (mapGet m (sigOf localeCompare v)) as [existing|] eqn:Hex;
        rewrite mapGet_mapSet_eq in Hk; injection Hk as <-; simpl.
      * destruct (Hfirst _ _ Hex) as (v0 & Hv0 & Hl).
        exists v0. split; [|done].
        destruct (filter _ seen); [done|]. done.
      * exists v. split; [|done].
        assert (Hnil : filter (fun x => sigOf localeCompare x
                                        = sigOf localeCompare v) seen = []).
        { destruct (filter _ seen) as [|x l] eqn:Hf; [done|].
          assert (Hx : x ∈ filter (fun x => sigOf localeCompare x
                                            = sigOf localeCompare v) seen)
            by (rewrite Hf; left).
          apply list_elem_of_filter in Hx as [Hsx Hx].
          destruct (Hall x Hx) as [r Hr]. congruence. }
        rewrite Hnil. simpl. rewrite filter_cons, decide_True by done. done.
    + assert (Hk' : mapGet m k = Some r).
      { destruct (mapGet m (sigOf localeCompare v)); by rewrite mapGet_mapSet_ne in Hk. }
      destruct (Hfirst _ _ Hk') as (v0 & Hv0 & Hl).
      exists v0. split; [|done].
      destruct (filter _ seen); [done|]. done.
  - intros x Hx. apply elem_of_app in Hx as [Hx|Hx].
    + destruct (decide (sigOf localeCompare v = sigOf localeCompare x)) as [Heq|Hne].
      * rewrite <- Heq. destruct (mapGet m (sigOf localeCompare v));
          rewrite mapGet_mapSet_eq; by eexists.
      * destruct (mapGet m (sigOf localeCompare v)); rewrite mapGet_mapSet_ne by done;
          by apply Hall.
    + apply list_elem_of_singleton in Hx as ->.
      destruct (mapGet m (sigOf localeCompare v)); rewrite mapGet_mapSet_eq; by eexists.
Qed.

Lemma fold_aggregateStep_aggregated (t : MetricType) (vs : list MetricValue) :
  forall (m : list (string * MetricValue)) (seen : list MetricValue),
    aggregated localeCompare m seen ->
    aggregated localeCompare
      (fold_left (aggregateStep localeCompare t) vs m) (seen ++ vs).
Proof.
  induction vs as [|v vs IH]; intros m seen H; simpl.
  - by rewrite app_nil_r.
  - replace (seen ++ v :: vs) with ((seen ++ [v]) ++ vs)
      by (by rewrite <- app_assoc).
    apply IH. by apply aggregateStep_aggregated.
Qed.

(** Every row leaves a row of its signature in the aggregate, labelled as
    the first row of that signature. *)
Lemma aggregateByLabels_first (vs : list MetricValue) (t : MetricType)
    (v : MetricValue) :
  v ∈ vs ->
  exists r v0,
    r ∈ aggregateByLabels localeCompare vs t
    /\ head (filter (fun x => sigOf localeCompare x = sigOf localeCompare v) vs)
       = Some v0
    /\ labels r = labels v0.
Proof.
  intros Hv.
  assert (H : aggregated localeCompare
                (fold_left (aggregateStep localeCompare t) vs []) vs).
  { apply (fold_aggregateStep_aggregated t vs [] []). split; [done|].
    intros x Hx. by apply elem_of_nil in Hx. }
  destruct H as [Hfirst Hall].
  destruct (Hall v Hv) as [r Hr].
  destruct (Hfirst _ _ Hr) as (v0 & Hv0 & Hl).
  exists r, v0. split; [|done].
  unfold aggregateByLabels, mapValues.
  apply list_elem_of_fmap. exists (sigOf localeCompare v, r).
  split; [done|]. by apply mapGet_Some_elem.
Qed.

Lemma serializeLines_of_group (metrics : list MetricDefinition)
    (options : option SerializeOptions) (n : string) (g : MetricDefinition) :
  mapGet (groupMetrics metrics options) n = Some g ->
  LHelp n (help g) ∈ serializeLines localeCompare metrics options
  /\ LType n (type g) ∈ serializeLines localeCompare metrics options
  /\ forall r, r ∈ aggregateByLabels localeCompare (values g) (type g) ->
               LValue n (labels r) (value r)
                 ∈ serializeLines localeCompare metrics options.
Proof.
  intros Hg. apply mapGet_Some_elem in Hg.
  repeat split; [| |intros r Hr]; apply serializeLines_group; exists n, g;
    (split; [done|]); unfold groupLines.
  - left.
  - right. left.
  - right. right. apply elem_of_app. left.
    apply list_elem_of_fmap. by exists r.
Qed.
End GroupingFacts.

(** ** Label signatures of the error rows *)

Lemma append_length (s t : string) :
  String.length (s +:+ t) = (String.length s + String.length t)%nat.
Proof.
  induction s as [|a s IH]; [done|]. rewrite append_cons. simpl. by rewrite IH.
Qed.

Lemma append_inj_l (s t1 t2 : string) : s +:+ t1 = s +:+ t2 -> t1 = t2.
Proof.
  induction s as [|a s IH]; [done|]. rewrite !append_cons.
  intros [= H]. by apply IH.
Qed.

Lemma append_inj_r (t s1 s2 : string) : s1 +:+ t = s2 +:+ t -> s1 = s2.
Proof.
  revert s2. induction s1 as [|a s1 IH]; intros [|b s2] H; [done| | |].
  - apply (f_equal String.length) in H. rewrite append_nil_l, append_length in H.
    simpl in H. lia.
  - apply (f_equal String.length) in H. rewrite append_nil_l, append_length in H.
    simpl in H. lia.
  - rewrite !append_cons in H. injection H as -> H. f_equal. by apply IH.
Qed.

(** A separator that occurs in neither head delimits the heads. *)
Lemma append_sep_prefix (z : ascii) (c1 c2 y1 y2 : string) :
  countChar z c1 = 0%nat -> countChar z c2 = 0%nat ->
  c1 +:+ String z y1 = c2 +:+ String z y2 -> c1 = c2 /\ y1 = y2.
Proof.
  revert c2. induction c1 as [|a c1 IH]; intros [|b c2] H1 H2 H.
  - rewrite !append_nil_l in H. by injection H as ->.
  - rewrite append_nil_l, append_cons in H. injection H as <- _.
    apply countChar_cons_0 in H2 as [? _]. done.
  - rewrite append_nil_l, append_cons in H. injection H as -> _.
    apply countChar_cons_0 in H1 as [? _]. done.
  - rewrite !append_cons in H. injection H as -> H.
    apply countChar_cons_0 in H1 as [_ H1]. apply countChar_cons_0 in H2 as [_ H2].
    destruct (IH c2 H1 H2 H) as [-> ->]. done.
Qed.

(** A separator that occurs in neither tail delimits the tails. *)
Lemma append_sep_suffix (z : ascii) (x1 x2 c1 c2 : string) :
  countChar z c1 = 0%nat -> countChar z c2 = 0%nat ->
  x1 +:+ String z c1 = x2 +:+ String z c2 -> x1 = x2 /\ c1 = c2.
Proof.
  intros H1 H2. revert x2. induction x1 as [|a x1 IH]; intros [|b x2] H.
  - rewrite !append_nil_l in H. by injection H as ->.
  - rewrite append_nil_l, append_cons in H. injection H as _ H.
    rewrite H, countChar_append in H1. simpl in H1.
    rewrite Ascii.eqb_refl in H1. lia.
  - rewrite append_nil_l, append_cons in H. injection H as _ H.
    rewrite <- H, countChar_append in H2. simpl in H2.
    rewrite Ascii.eqb_refl in H2. lia.
  - rewrite !append_cons in H. injection H as -> H.
    destruct (IH x2 H) as [-> ->]. done.
Qed.

Lemma errorCodeName_plain (c : ErrorCode) :
  countChar "000"%char (errorCodeName c) = 0%nat
  /\ countChar "001"%char (errorCodeName c) = 0%nat.
Proof. by destruct c. Qed.

Lemma errorLabels_signature_inj (localeCompare : string -> string -> Z)
    (a1 a2 : string) (c1 c2 : ErrorCode) :
  labelSignature localeCompare
    (MetricCoordinator.errorLabels a1 (errorCodeName c1))
  = labelSignature localeCompare
      (MetricCoordinator.errorLabels a2 (errorCodeName c2)) ->
  MetricCoordinator.errorLabels a1 (errorCodeName c1)
  = MetricCoordinator.errorLabels a2 (errorCodeName c2).
Proof.
  destruct (errorCodeName_plain c1) as [H10 H11].
  destruct (errorCodeName_plain c2) as [H20 H21].
  unfold labelSignature, MetricCoordinator.errorLabels, sortEntries. simpl.
  destruct (localeCompare "account_id" "error_code" <=? 0); simpl;
    unfold str1; rewrite ?append_cons, ?append_nil_l; intros H.
  - apply (append_inj_l "account_id") in H. injection H as H.
    change (a1 +:+ (String "001" "error_code" +:+ String "000" (errorCodeName c1))
            = a2 +:+ (String "001" "error_code" +:+ String "000" (errorCodeName c2)))
      in H.
    rewrite <- !append_assoc in H.
    apply append_sep_suffix in H as [H ->]; [|done..].
    apply append_inj_r in H as ->. done.
  - apply (append_inj_l "error_code") in H. injection H as H.
    apply append_sep_prefix in H as [-> H]; [|done..].
    apply (append_inj_l "account_id") in H. by injection H as ->.
Qed.

(** ** Fleet coordinator *)

Lemma mapSet_elem {V : Type} (m : list (string * V)) (k k' : string) (v v' : V) :
  (k', v') ∈ mapSet m k v -> (k' = k /\ v' = v) \/ (k', v') ∈ m.
Proof.
  induction m as [|[k0 v0] m IH]; simpl.
  - intros H. apply list_elem_of_singleton in H. injection H as -> ->. by left.
  - destruct (decide (k = k0)) as [->|Hk]; intros H;
      apply elem_of_cons in H as [H|H].
    + injection H as -> ->. by left.
    + right. by right.
    + right. rewrite H. left.
    + apply IH in H as [H|H]; [by left|]. right. by right.
Qed.

Section FanOutFacts.
Import MetricCoordinator.
Variable accountExport : Account -> Thrown + AccountExport.

Lemma fanOut_results (accounts : list Account) :
  forall errs : list (string * list ErrorTally),
    fst (fanOut accountExport accounts errs)
    = map (accountResult accountExport) accounts.
Proof.
  induction accounts as [|a accounts IH]; intros errs; simpl; [done|].
  unfold accountResult at 1.
  destruct (accountExport a) as [e|r].
  - specialize (IH (recordError errs a e)).
    destruct (fanOut accountExport accounts (recordError errs a e)).
    simpl in *. by rewrite IH.
  - specialize (IH errs). destruct (fanOut accountExport accounts errs).
    simpl in *. by rewrite IH.
Qed.

Lemma aggregate_metrics (results : list AccountExport) :
  snd (aggregate results) = flat_map export_metrics results.
Proof.
  unfold aggregate.
  assert (H : forall (zc : ZoneCounts) (acc : list MetricDefinition),
             snd (fold_left
                    (fun '(zc, allMetrics) result =>
                       (addCounts zc (export_zoneCounts result),
                        allMetrics ++ export_metrics result))
                    results (zc, acc))
             = acc ++ flat_map export_metrics results).
  { induction results as [|r results IH]; intros zc acc; simpl.
    - by rewrite app_nil_r.
    - by rewrite IH, <- app_assoc. }
  by rewrite H.
Qed.

Lemma bump_has (l : list ErrorTally) (c : string) :
  exists e, e ∈ bump l c /\ code e = c.
Proof.
  induction l as [|e l IH]; simpl.
  - eexists. split; [left|done].
  - destruct (decide (code e = c)) as [Hc|Hc].
    + eexists. split; [left|done].
    + destruct IH as (e' & He' & Hc'). exists e'. split; [by right|done].
Qed.

Lemma bump_keeps (l : list ErrorTally) (c : string) (e : ErrorTally) :
  e ∈ l -> exists e', e' ∈ bump l c /\ code e' = code e.
Proof.
  induction l as [|e0 l IH]; simpl; intros He; [by apply elem_of_nil in He|].
  apply elem_of_cons in He as [->|He].
  - destruct (decide (code e0 = c)); eexists; (split; [left|done]).
  - destruct (decide (code e0 = c)).
    + exists e. split; [by right|done].
    + destruct (IH He) as (e' & He' & Hc'). exists e'. split; [by right|done].
Qed.

Lemma bump_codes (l : list ErrorTally) (c : string) (e' : ErrorTally) :
  e' ∈ bump l c -> code e' = c \/ exists e, e ∈ l /\ code e = code e'.
Proof.
  induction l as [|e0 l IH]; simpl; intros He.
  - apply list_elem_of_singleton in He as ->. by left.
  - destruct (decide (code e0 = c)) as [Hc|Hc];
      apply elem_of_cons in He as [->|He].
    + by left.
    + right. exists e'. split; [by right|done].
    + right. exists e0. split; [left|done].
    + apply IH in He as [He|(e & He & Hce)]; [by left|].
      right. exists e. split; [by right|done].
Qed.

Lemma recordError_tallied (errs : list (string * list ErrorTally))
    (a : Account) (error : Thrown) :
  tallied (recordError errs a error) (account_id a) (thrownCode error).
Proof.
  unfold tallied, recordError. rewrite mapGet_mapSet_eq.
  eexists. split; [done|]. apply bump_has.
Qed.

Lemma recordError_keeps (errs : list (string * list ErrorTally))
    (a : Account) (error : Thrown) (accountId c : string) :
  tallied errs accountId c -> tallied (recordError errs a error) accountId c.
Proof.
  intros (errors & Hget & e & He & Hc). unfold tallied, recordError.
  destruct (decide (account_id a = accountId)) as [<-|Hne].
  - rewrite mapGet_mapSet_eq, Hget. simpl.
    eexists. split; [done|].
    destruct (bump_keeps errors (errorCodeName (info_code (extractErrorInfo error)))
                e He) as (e' & He' & Hc').
    exists e'. split; [done|congruence].
  - rewrite mapGet_mapSet_ne by done. by exists errors; eauto.
Qed.

Lemma recordError_codesNamed (errs : list (string * list ErrorTally))
    (a : Account) (error : Thrown) :
  codesNamed errs -> codesNamed (recordError errs a error).
Proof.
  intros Hwf accountId errors e Hin He. unfold recordError in Hin.
  apply mapSet_elem in Hin as [[-> ->]|Hin]; [|by eapply Hwf].
  apply bump_codes in He as [He|(e0 & He0 & Hc0)].
  - by eexists.
  - rewrite <- Hc0.
    destruct (mapGet errs (account_id a)) as [l|] eqn:Hget; simpl in He0.
    + eapply Hwf; [by apply mapGet_Some_elem|done].
    + by apply elem_of_nil in He0.
Qed.

Lemma fanOut_keeps (accounts : list Account) (accountId c : string) :
  forall errs : list (string * list ErrorTally),
    tallied errs accountId c ->
    tallied (snd (fanOut accountExport accounts errs)) accountId c.
Proof.
  induction accounts as [|a accounts IH]; intros errs H; simpl; [done|].
  destruct (accountExport a) as [e|r].
  - specialize (IH _ (recordError_keeps errs a e _ _ H)).
    by destruct (fanOut accountExport accounts (recordError errs a e)).
  - specialize (IH _ H). by destruct (fanOut accountExport accounts errs).
Qed.

Lemma fanOut_tallied (accounts : list Account) (a : Account) (error : Thrown) :
  a ∈ accounts -> accountExport a = inl error ->
  forall errs : list (string * list ErrorTally),
    tallied (snd (fanOut accountExport accounts errs))
            (account_id a) (thrownCode error).
Proof.
  intros Ha Herr. induction accounts as [|a0 accounts IH]; intros errs;
    [by apply elem_of_nil in Ha|].
  simpl. apply elem_of_cons in Ha as [<-|Ha].
  - rewrite Herr.
    pose proof (fanOut_keeps accounts _ _ _ (recordError_tallied errs a error)) as H.
    by destruct (fanOut accountExport accounts (recordError errs a error)).
  - destruct (accountExport a0) as [e|r].
    + specialize (IH Ha (recordError errs a0 e)).
      by destruct (fanOut accountExport accounts (recordError errs a0 e)).
    + specialize (IH Ha errs). by destruct (fanOut accountExport accounts errs).
Qed.

Lemma fanOut_codesNamed (accounts : list Account) :
  forall errs : list (string * list ErrorTally),
    codesNamed errs -> codesNamed (snd (fanOut accountExport accounts errs)).
Proof.
  induction accounts as [|a accounts IH]; intros errs H; simpl; [done|].
  destruct (accountExport a) as [e|r].
  - specialize (IH _ (recordError_codesNamed errs a e H)).
    by destruct (fanOut accountExport accounts (recordError errs a e)).
  - specialize (IH _ H). by destruct (fanOut accountExport accounts errs).
Qed.

Lemma errorRows_tallied (errs : list (string * list ErrorTally))
    (accountId c : string) :
  tallied errs accountId c ->
  exists n, {| labels := errorLabels accountId c; value := n |} ∈ errorRows errs.
Proof.
  intros (errors & Hget & e & He & <-). exists (count e).
  unfold errorRows. apply list_elem_of_In, in_flat_map.
  exists (accountId, errors). split.
  - by apply list_elem_of_In, mapGet_Some_elem.
  - apply list_elem_of_In, list_elem_of_fmap. by exists e.
Qed.

Lemma errorRows_form (errs : list (string * list ErrorTally)) (v : MetricValue) :
  codesNamed errs -> v ∈ errorRows errs ->
  exists accountId c, labels v = errorLabels accountId (errorCodeName c).
Proof.
  intros Hwf Hv. unfold errorRows in Hv.
  apply list_elem_of_In, in_flat_map in Hv as ([accountId errors] & Hin & Hv).
  apply list_elem_of_In, list_elem_of_fmap in Hv as (e & -> & He).
  apply list_elem_of_In in Hin.
  destruct (Hwf _ _ _ Hin He) as [c Hc]. exists accountId, c. simpl.
  by rewrite Hc.
Qed.
End FanOutFacts.

Section CollectFacts.
Import MetricCoordinator.
Variable localeCompare : string -> string -> Z.
Variable accountExport : Account -> Thrown + AccountExport.

Lemma collect_unfold (accounts : list Account) :
  collect accountExport accounts
  = buildExporterInfoMetrics (Z.of_nat (length accounts))
      (fst (aggregate (map (accountResult accountExport) accounts)))
      (snd (fanOut accountExport accounts []))
    ++ flat_map export_metrics (map (accountResult accountExport) accounts).
Proof.
  unfold collect.
  pose proof (fanOut_results accountExport accounts []) as Hres.
  destruct (fanOut accountExport accounts []) as [results errs]. simpl in *.
  subst results.
  pose proof (aggregate_metrics (map (accountResult accountExport) accounts)) as Hagg.
  destruct (aggregate (map (accountResult accountExport) accounts)) as [zc ms].
  simpl in *. by subst ms.
Qed.

Lemma collect_with_errors (accounts : list Account) :
  snd (fanOut accountExport accounts []) <> [] ->
  exists pre post,
    collect accountExport accounts
    = pre ++ errorsMetric (snd (fanOut accountExport accounts [])) :: post
    /\ Forall (fun m => name m <> errorsName) pre.
Proof.
  intros Hne. rewrite collect_unfold. unfold buildExporterInfoMetrics.
  destruct (snd (fanOut accountExport accounts [])) as [|x errs]; [done|].
  simpl. eexists [_; _; _; _; _; _], _. split; [reflexivity|].
  repeat constructor; by vm_compute.
Qed.

Lemma collect_success (accounts : list Account) (a : Account)
    (r : AccountExport) (m : MetricDefinition) :
  a ∈ accounts -> accountExport a = inr r -> m ∈ export_metrics r ->
  m ∈ collect accountExport accounts.
Proof.
  intros Ha Hr Hm. rewrite collect_unfold. apply elem_of_app. right.
  apply list_elem_of_In, in_flat_map. exists r. split; [|by apply list_elem_of_In].
  apply list_elem_of_In, list_elem_of_fmap. exists a. split; [|done].
  unfold accountResult. by rewrite Hr.
Qed.

Lemma filterLabels_errorLabels (accountId c : string) :
  filterLabels (errorLabels accountId c) {["host"]} = errorLabels accountId c.
Proof.
  unfold filterLabels, errorLabels.
  rewrite !filter_cons. simpl.
  rewrite !decide_True; [done|..]; by apply not_elem_of_singleton.
Qed.

Lemma excludeLabels_of_config (config : ResolvedConfig) :
  default ∅ (serializeOptions config ≫= excludeLabels)
  = if excludeHost config then {["host"]} else ∅.
Proof. unfold serializeOptions. by destruct (excludeHost config). Qed.

Lemma filteredValues_errorsMetric (config : ResolvedConfig)
    (errs : list (string * list ErrorTally)) :
  filteredValues (default ∅ (serializeOptions config ≫= excludeLabels))
                 (errorsMetric errs)
  = errorRows errs.
Proof.
  rewrite excludeLabels_of_config. unfold filteredValues.
  destruct (excludeHost config); [|by rewrite size_empty].
  rewrite size_singleton. simpl.
  unfold errorRows. induction errs as [|[accountId errors] errs IH]; [done|].
  simpl. rewrite map_app, IH. f_equal.
  clear IH. induction errors as [|e errors IH]; [done|].
  simpl. by rewrite filterLabels_errorLabels, IH.
Qed.

Lemma filteredValues_row (config : ResolvedConfig) (m : MetricDefinition)
    (v : MetricValue) :
  v ∈ values m ->
  {| labels := exportedLabels config (labels v); value := value v |}
    ∈ filteredValues (default ∅ (serializeOptions config ≫= excludeLabels)) m.
Proof.
  intros Hv. rewrite excludeLabels_of_config.
  unfold filteredValues, exportedLabels.
  destruct (excludeHost config).
  - rewrite size_singleton. simpl. apply list_elem_of_fmap. by exists v.
  - rewrite size_empty. simpl. by destruct v.
Qed.

Lemma head_filter_app {A : Type} (P : A -> Prop) `{forall x, Decision (P x)}
    (l1 l2 : list A) (x v0 : A) :
  x ∈ l1 -> P x ->
  head (filter P (l1 ++ l2)) = Some v0 -> v0 ∈ l1 /\ P v0.
Proof.
  intros Hx HP. rewrite filter_app.
  assert (Hin : x ∈ filter P l1) by (by apply list_elem_of_filter).
  destruct (filter P l1) as [|y l] eqn:Hf; [by apply elem_of_nil in Hin|].
  simpl. intros [= <-].
  assert (Hy : y ∈ filter P l1) by (rewrite Hf; left).
  by apply list_elem_of_filter in Hy as [? ?].
Qed.

Lemma head_filter_elem {A : Type} (P : A -> Prop) `{forall x, Decision (P x)}
    (l : list A) (v0 : A) :
  head (filter P l) = Some v0 -> v0 ∈ l /\ P v0.
Proof.
  destruct (filter P l) as [|y l'] eqn:Hf; [done|]. simpl. intros [= <-].
  assert (Hy : y ∈ filter P l) by (rewrite Hf; left).
  by apply list_elem_of_filter in Hy as [? ?].
Qed.

Lemma exportLines_nonempty (config : ResolvedConfig) (accounts : list Account)
    (a : Account) :
  a ∈ accounts ->
  exportLines localeCompare accountExport config accounts
  = serializeLines localeCompare (collect accountExport accounts)
      (serializeOptions config).
Proof. destruct accounts; [intros H; by apply elem_of_nil in H|done]. Qed.

Lemma export_text (client : Client) (state state' : State)
    (config : ResolvedConfig) (now : Z) (accounts : list Account) :
  refreshAccountsIfStale client state config now = inr (accounts, state') ->
  export localeCompare client accountExport (Some state) config now
  = inr (join (str1 newlineChar)
           (map renderLine
              (exportLines localeCompare accountExport config accounts))).
Proof.
  intros H. unfold export. rewrite H. by destruct accounts.
Qed.

Lemma error_sample_line (config : ResolvedConfig) (accounts : list Account)
    (a : Account) (error : Thrown) :
  a ∈ accounts -> accountExport a = inl error ->
  errorsName ∉ parseCommaSeparated (metricsDenylist config) ->
  LType errorsName counter
    ∈ exportLines localeCompare accountExport config accounts
  /\ exists val,
      LValue errorsName (errorLabels (account_id a) (thrownCode error)) val
        ∈ exportLines localeCompare accountExport config accounts.
Proof.
  intros Ha Herr Hden. rewrite (exportLines_nonempty config accounts a Ha).
  set (errs := snd (fanOut accountExport accounts [])).
  assert (Htal : tallied errs (account_id a) (thrownCode error))
    by (by apply fanOut_tallied).
  assert (Hwf : codesNamed errs).
  { apply fanOut_codesNamed. intros ? ? ? H. by apply elem_of_nil in H. }
  assert (Hne : errs <> []).
  { destruct Htal as (? & Hget & _). by destruct errs. }
  destruct (collect_with_errors accounts Hne) as (pre & post & Hcol & Hpre).
  fold errs in Hcol. rewrite Hcol.
  destruct (groupMetrics_first (serializeOptions config) pre post
              (errorsMetric errs) Hden Hpre) as [rest Hg].
  rewrite filteredValues_errorsMetric in Hg.
  destruct (serializeLines_of_group localeCompare _ _ _ _ Hg) as (_ & Hty & Hrows).
  split; [exact Hty|].
  destruct (errorRows_tallied errs _ _ Htal) as [n Hn].
  set (t := {| labels := errorLabels (account_id a) (thrownCode error);
               value := n |}) in *.
  destruct (aggregateByLabels_first localeCompare (errorRows errs ++ rest)
              counter t) as (r & v0 & Hr & Hhead & Hl).
  { apply elem_of_app. by left. }
  apply (head_filter_app _ _ _ t) in Hhead as [Hv0 Hsig]; [|done..].
  destruct (errorRows_form errs v0 Hwf Hv0) as (id' & c' & Hform).
  assert (Hlab : labels v0 = labels t).
  { rewrite Hform.
    apply errorLabels_signature_inj with (localeCompare := localeCompare).
    unfold sigOf in Hsig. by rewrite <- Hform. }
  exists (value r). specialize (Hrows r Hr). by rewrite Hl, Hlab in Hrows.
Qed.

Lemma success_lines (config : ResolvedConfig) (accounts : list Account)
    (a : Account) (r : AccountExport) (m : MetricDefinition) :
  a ∈ accounts -> accountExport a = inr r -> m ∈ export_metrics r ->
  name m ∉ parseCommaSeparated (metricsDenylist config) ->
  (exists h, LHelp (name m) h
               ∈ exportLines localeCompare accountExport config accounts)
  /\ (exists t, LType (name m) t
                  ∈ exportLines localeCompare accountExport config accounts)
  /\ forall v, v ∈ values m ->
       exists ls val,
         LValue (name m) ls val
           ∈ exportLines localeCompare accountExport config accounts
         /\ labelSignature localeCompare ls
            = labelSignature localeCompare (exportedLabels config (labels v)).
Proof.
  intros Ha Hr Hm Hden. rewrite (exportLines_nonempty config accounts a Ha).
  pose proof (collect_success accounts a r m Ha Hr Hm) as Hcol.
  destruct (groupMetrics_member (serializeOptions config) _ m Hden Hcol)
    as (g & Hg & Hvals).
  destruct (serializeLines_of_group localeCompare _ _ _ _ Hg) as (Hh & Ht & Hrows).
  split; [by eexists|]. split; [by eexists|].
  intros v Hv.
  pose proof (Hvals _ (filteredValues_row config m v Hv)) as Hin.
  destruct (aggregateByLabels_first localeCompare (values g) (type g) _ Hin)
    as (row & v0 & Hrow & Hhead & Hl).
  apply head_filter_elem in Hhead as [_ Hsig].
  exists (labels row), (value row). split; [by apply Hrows|].
  rewrite Hl. exact Hsig.
Qed.
End CollectFacts.

(** C3 (as amended). In the fan-out of [MetricCoordinator.export()] every
    account yields a result, the one of a rejecting account being the
    zero-metrics, zero-zone-counts placeholder, so no exception leaves the
    fan-out. The metrics of every account whose [export()] succeeded are
    handed to the serializer, and those whose name is not in the denylist
    appear in the output with their HELP and TYPE lines and a value line for
    the signature of each of their rows. Unless
    [cloudflare_exporter_errors_total] is in the denylist, the output has the
    TYPE line of that counter and a sample of it labelled with the rejecting
    account's id and the error code extracted from the failure. *)
Theorem partial_failure_isolation (localeCompare : string -> string -> Z)
    (accountExport : Account -> Thrown + AccountExport)
    (config : ResolvedConfig) (accounts : list Account) :
  let lines :=
    MetricCoordinator.exportLines localeCompare accountExport config accounts in
  let denied := parseCommaSeparated (metricsDenylist config) in
  fst (MetricCoordinator.fanOut accountExport accounts [])
  = map (accountResult accountExport) accounts
  /\ (forall (a : Account) (error : Thrown),
        a ∈ accounts -> accountExport a = inl error ->
        accountResult accountExport a
        = {| export_metrics := [];
             export_zoneCounts := MetricCoordinator.zeroCounts |}
        /\ (errorsName ∉ denied ->
            LType errorsName counter ∈ lines
            /\ exists val,
                LValue errorsName
                  (MetricCoordinator.errorLabels (account_id a) (thrownCode error))
                  val ∈ lines))
  /\ (forall (a : Account) (r : AccountExport) (m : MetricDefinition),
        a ∈ accounts -> accountExport a = inr r -> m ∈ export_metrics r ->
        m ∈ MetricCoordinator.collect accountExport accounts
        /\ (name m ∉ denied ->
            (exists h, LHelp (name m) h ∈ lines)
            /\ (exists t, LType (name m) t ∈ lines)
            /\ forall v, v ∈ values m ->
                 exists ls val,
                   LValue (name m) ls val ∈ lines
                   /\ labelSignature localeCompare ls
                      = labelSignature localeCompare
                          (exportedLabels config (labels v))))
  /\ (forall (client : Client) (state state' : MetricCoordinator.State) (now : Z),
        MetricCoordinator.refreshAccountsIfStale client state config now
        = inr (accounts, state') ->
        MetricCoordinator.export localeCompare client accountExport (Some state)
          config now
        = inr (join (str1 newlineChar) (map renderLine lines))).
Proof.
  intros lines denied. split; [apply fanOut_results|]. split; [|split].
  - intros a error Ha Herr. split.
    + unfold accountResult. by rewrite Herr.
    + intros Hden. by apply error_sample_line.
  - intros a r m Ha Hr Hm. split.
    + by eapply collect_success.
    + intros Hden. by eapply success_lines.
  - intros client state state' now H. by eapply export_text.
Qed.

Lemma partial_failure_isolation_witness :
  (exists val,
      LValue errorsName (MetricCoordinator.errorLabels "acc2" "API_RATE_LIMITED") val
        ∈ MetricCoordinator.exportLines codeUnitCompare sampleAccountExport
            sampleConfig sampleAccounts)
  /\ sampleCounter 4
       ∈ MetricCoordinator.collect sampleAccountExport sampleAccounts.
Proof.
  pose proof (partial_failure_isolation codeUnitCompare sampleAccountExport
                sampleConfig sampleAccounts) as (_ & Hfail & Hok & _).
  split.
  - apply (Hfail {| account_id := "acc2"; account_name := "Two" |}
                 (CloudflarePrometheusError API_RATE_LIMITED "rate limited")).
    + apply list_elem_of_In. vm_compute. right. left. reflexivity.
    + reflexivity.
    + intros H. vm_compute in H. discriminate H.
  - apply (Hok {| account_id := "acc3"; account_name := "Three" |}
               {| export_metrics := [sampleCounter 4];
                  export_zoneCounts :=
                    {| total := 1; filtered := 1; processed := 1;
                       skippedFreeTier := 0 |} |}).
    + apply list_elem_of_In. vm_compute. right. right. left. reflexivity.
    + reflexivity.
    + left.
Defined.

(** The claim as stated fails when the denylist names the error counter:
    the second of three accounts rejects and the output has no sample of
    [cloudflare_exporter_errors_total]. *)
Lemma denied_error_counter_is_absent :
  sampleAccountExport {| account_id := "acc2"; account_name := "Two" |}
  = inl (CloudflarePrometheusError API_RATE_LIMITED "rate limited")
  /\ ~ (exists ls val,
          LValue errorsName ls val
            ∈ MetricCoordinator.exportLines codeUnitCompare sampleAccountExport
                denyErrorsConfig sampleAccounts).
Proof.
  split; [reflexivity|].
  intros (ls & val & H). apply list_elem_of_In in H. vm_compute in H.
  repeat (destruct H as [H|H]; [discriminate H|]). exact H.
Qed.




(* ===================================================================== *)
(** * Further properties of the code *)
(* ===================================================================== *)

(** ** Further facts on insertion-ordered maps *)

Section OrderedMapMore.
Context {V : Type}.
Implicit Types (m : list (string * V)) (k : string) (v : V).

Lemma mapGet_None_keys m k : mapGet m k = None <-> k ∉ mapKeys m.
Proof.
  unfold mapKeys. induction m as [|[k0 v0] m IH]; simpl.
  - split; [intros _ H; by apply elem_of_nil in H|done].
  - destruct (decide (k = k0)) as [->|Hk].
    + split; [done|]. intros H. exfalso. apply H. left.
    + rewrite IH. split.
      * intros H H'. apply elem_of_cons in H' as [?|?]; done.
      * intros H H'. apply H. by right.
Qed.

Lemma mapKeys_mapSet_present m k v :
  k ∈ mapKeys m -> mapKeys (mapSet m k v) = mapKeys m.
Proof.
  unfold mapKeys. induction m as [|[k0 v0] m IH]; simpl; intros H.
  - by apply elem_of_nil in H.
  - destruct (decide (k = k0)) as [->|Hk]; simpl; [done|].
    apply elem_of_cons in H as [?|H]; [done|]. by rewrite IH.
Qed.

Lemma mapKeys_mapSet_absent m k v :
  k ∉ mapKeys m -> mapKeys (mapSet m k v) = mapKeys m ++ [k].
Proof.
  unfold mapKeys. induction m as [|[k0 v0] m IH]; simpl; intros H; [done|].
  destruct (decide (k = k0)) as [->|Hk]; simpl.
  - exfalso. apply H. left.
  - rewrite IH; [done|]. intros H'. apply H. by right.
Qed.

Lemma mapSet_NoDup m k v : NoDup (mapKeys m) -> NoDup (mapKeys (mapSet m k v)).
Proof.
  intros Hnd. destruct (decide (k ∈ mapKeys m)) as [Hin|Hin].
  - by rewrite mapKeys_mapSet_present.
  - rewrite mapKeys_mapSet_absent by done.
    apply NoDup_app. split; [done|]. split; [|apply NoDup_singleton].
    intros x Hx Hx'. apply list_elem_of_singleton in Hx' as ->. done.
Qed.

Lemma mapGet_elem_NoDup m k v :
  NoDup (mapKeys m) -> (k, v) ∈ m -> mapGet m k = Some v.
Proof.
  unfold mapKeys. induction m as [|[k0 v0] m IH]; simpl; intros Hnd Hin.
  - by apply elem_of_nil in Hin.
  - apply NoDup_cons in Hnd as [Hk0 Hnd].
    apply elem_of_cons in Hin as [[= -> ->]|Hin].
    + by rewrite decide_True.
    + destruct (decide (k = k0)) as [->|Hne]; [|by apply IH].
      exfalso. apply Hk0. apply list_elem_of_fmap. by exists (k0, v).
Qed.
End OrderedMapMore.

(** ** Aggregation: distinct signatures, sums and maxima *)

Section AggregationValues.
Variable localeCompare : string -> string -> Z.

Lemma combineValues_snoc (t : MetricType) (l : list Z) (v : Z) :
  l <> [] ->
  combineValues t (l ++ [v])
  = match t with
    | counter => combineValues t l + v
    | gauge => Z.max (combineValues t l) v
    end.
Proof.
  destruct l as [|x rest]; [done|]. intros _. simpl.
  rewrite fold_left_app. simpl. by destruct t.
Qed.

Lemma aggregateStep_values (t : MetricType)
    (m : list (string * MetricValue)) (seen : list MetricValue) (v : MetricValue) :
  aggregatedValues localeCompare t m seen ->
  aggregatedValues localeCompare t (aggregateStep localeCompare t m v) (seen ++ [v]).
Proof.
  intros (Hnd & Hkey & Hval & Hall). unfold aggregateStep.
  fold (sigOf localeCompare v).
  split; [|split; [|split]].
  - destruct (mapGet m (sigOf localeCompare v)); by apply mapSet_NoDup.
  - intros k r Hin.
    destruct (mapGet m (sigOf localeCompare v)) as [existing|] eqn:Hex;
      apply mapSet_elem in Hin as [[-> ->]|Hin]; try (by apply Hkey).
    + apply (Hkey _ existing). by apply mapGet_Some_elem.
    + done.
  - intros k r Hk group. unfold group. rewrite filter_app.
    destruct (decide (sigOf localeCompare v = k)) as [<-|Hne].
    + rewrite (filter_cons _ v), decide_True by done. simpl.
      destruct (mapGet m (sigOf localeCompare v)) as [existing|] eqn:Hex;
        rewrite mapGet_mapSet_eq in Hk; injection Hk as <-; simpl.
      * destruct (Hval _ _ Hex) as [Hne Hv]. split.
        { intros H. by apply app_eq_nil in H as [? _]. }
        rewrite map_app. simpl. rewrite combineValues_snoc.
        -- rewrite <- Hv. by destruct t.
        -- intros H. apply map_eq_nil in H. done.
      * assert (Hnil : filter (fun x => sigOf localeCompare x
                                        = sigOf localeCompare v) seen = []).
        { destruct (filter _ seen) as [|x l] eqn:Hf; [done|].
          assert (Hx : x ∈ filter (fun x => sigOf localeCompare x
                                            = sigOf localeCompare v) seen)
            by (rewrite Hf; left).
          apply list_elem_of_filter in Hx as [Hsx Hx].
          destruct (Hall x Hx) as [r Hr]. congruence. }
        rewrite Hnil. simpl. done.
    + rewrite (filter_cons _ v), decide_False by done.
      rewrite filter_nil, app_nil_r.
      apply Hval.
      destruct (mapGet m (sigOf localeCompare v));
        by rewrite mapGet_mapSet_ne in Hk.
  - intros x Hx. apply elem_of_app in Hx as [Hx|Hx].
    + destruct (decide (sigOf localeCompare v = sigOf localeCompare x))
        as [Heq|Hne].
      * rewrite <- Heq. destruct (mapGet m (sigOf localeCompare v));
          rewrite mapGet_mapSet_eq; by eexists.
      * destruct (mapGet m (sigOf localeCompare v));
          rewrite mapGet_mapSet_ne by done; by apply Hall.
    + apply list_elem_of_singleton in Hx as ->.
      destruct (mapGet m (sigOf localeCompare v));
        rewrite mapGet_mapSet_eq; by eexists.
Qed.

Lemma fold_aggregateStep_values (t : MetricType) (vs : list MetricValue) :
  forall (m : list (string * MetricValue)) (seen : list MetricValue),
    aggregatedValues localeCompare t m seen ->
    aggregatedValues localeCompare t
      (fold_left (aggregateStep localeCompare t) vs m) (seen ++ vs).
Proof.
  induction vs as [|v vs IH]; intros m seen H; simpl.
  - by rewrite app_nil_r.
  - replace (seen ++ v :: vs) with ((seen ++ [v]) ++ vs)
      by (by rewrite <- app_assoc).
    apply IH. by apply aggregateStep_values.
Qed.

Lemma aggregateByLabels_values (vs : list MetricValue) (t : MetricType) :
  aggregatedValues localeCompare t
    (fold_left (aggregateStep localeCompare t) vs []) vs.
Proof.
  apply (fold_aggregateStep_values t vs [] []).
  split; [constructor|]. split; [|split].
  - intros k r H. by apply elem_of_nil in H.
  - intros k r H. done.
  - intros v H. by apply elem_of_nil in H.
Qed.

Lemma aggregateByLabels_row (vs : list MetricValue) (t : MetricType)
    (r : MetricValue) :
  r ∈ aggregateByLabels localeCompare vs t ->
  let group :=
    filter (fun x => sigOf localeCompare x = sigOf localeCompare r) vs in
  group <> [] /\ value r = combineValues t (map value group).
Proof.
  intros Hr. destruct (aggregateByLabels_values vs t) as (Hnd & Hkey & Hval & _).
  unfold aggregateByLabels, mapValues in Hr.
  apply list_elem_of_fmap in Hr as ([k r'] & -> & Hin). simpl.
  rewrite (Hkey _ _ Hin). apply Hval. by apply mapGet_elem_NoDup.
Qed.

(** X1. The rows returned by [aggregateByLabels] have pairwise distinct
    label signatures, and every signature of the input is among them. *)
Theorem aggregated_signatures_distinct (vs : list MetricValue) (t : MetricType) :
  NoDup (map (sigOf localeCompare) (aggregateByLabels localeCompare vs t))
  /\ forall v, v ∈ vs ->
       sigOf localeCompare v
         ∈ map (sigOf localeCompare) (aggregateByLabels localeCompare vs t).
Proof.
  destruct (aggregateByLabels_values vs t) as (Hnd & Hkey & _ & Hall).
  assert (Hsame : map (sigOf localeCompare) (aggregateByLabels localeCompare vs t)
                  = mapKeys (fold_left (aggregateStep localeCompare t) vs [])).
  { unfold aggregateByLabels, mapValues, mapKeys. rewrite map_map.
    apply map_ext_in. intros [k r] Hin. simpl. apply Hkey.
    by apply list_elem_of_In. }
  rewrite Hsame. split; [done|].
  intros v Hv. destruct (Hall v Hv) as [r Hr].
  apply mapGet_Some_elem in Hr. apply list_elem_of_fmap. by exists (sigOf localeCompare v, r).
Qed.


Lemma fold_max_bounds (l : list Z) (x : Z) :
  let m := fold_left (fun acc v => Z.max acc v) l x in
  x <= m /\ (forall y, y ∈ l -> y <= m) /\ (m = x \/ m ∈ l).
Proof.
  revert x. induction l as [|y l IH]; intros x; simpl.
  - split; [lia|]. split; [|by left]. intros y H. by apply elem_of_nil in H.
  - destruct (IH (Z.max x y)) as (H1 & H2 & H3). split; [lia|]. split.
    + intros z Hz. apply elem_of_cons in Hz as [->|Hz]; [lia|by apply H2].
    + destruct H3 as [H3|H3]; [|right; by right].
      rewrite H3. destruct (Z.max_spec x y) as [[_ Hm]|[_ Hm]]; rewrite Hm.
      * right. left.
      * by left.
Qed.


(** X3. For a gauge, every row returned by [aggregateByLabels] holds the
    maximum of the input rows that have its signature: it bounds each of
    them and is the value of one of them. *)
Theorem aggregated_gauge_is_max (vs : list MetricValue) (r : MetricValue) :
  r ∈ aggregateByLabels localeCompare vs gauge ->
  (forall v, v ∈ vs -> sigOf localeCompare v = sigOf localeCompare r ->
             value v <= value r)
  /\ exists v, v ∈ vs /\ sigOf localeCompare v = sigOf localeCompare r
               /\ value v = value r.
Proof.
  intros Hr. destruct (aggregateByLabels_row vs gauge r Hr) as [Hne Hv].
  set (P := fun x => sigOf localeCompare x = sigOf localeCompare r) in *.
  destruct (filter P vs) as [|x rest] eqn:Hf; [done|]. simpl in Hv.
  destruct (fold_max_bounds (map value rest) (value x)) as (H1 & H2 & H3).
  rewrite <- Hv in H1, H2, H3.
  assert (Hmem : forall v, v ∈ x :: rest <-> v ∈ vs /\ P v).
  { intros v. rewrite <- Hf, list_elem_of_filter. tauto. }
  split.
  - intros v Hin Hs. assert (Hv' : v ∈ x :: rest) by (apply Hmem; by split).
    apply elem_of_cons in Hv' as [->|Hv']; [done|].
    apply H2. apply list_elem_of_fmap. by exists v.
  - destruct H3 as [H3|H3].
    + exists x. destruct (proj1 (Hmem x)) as [? ?]; [left|]. by split.
    + apply list_elem_of_fmap in H3 as (v & Hvv & Hin).
      exists v. destruct (proj1 (Hmem v)) as [? ?]; [by right|]. by split.
Qed.
End AggregationValues.

(** ** Headers and labels of the serialized groups *)

Section GroupHeaders.
Variable localeCompare : string -> string -> Z.

Lemma groupStep_NoDup (D E : gset string)
    (acc : list (string * MetricDefinition)) (m : MetricDefinition) :
  NoDup (mapKeys acc) -> NoDup (mapKeys (groupStep D E acc m)).
Proof.
  intros H. unfold groupStep. destruct (decide (name m ∈ D)); [done|].
  destruct (mapGet acc (name m)); by apply mapSet_NoDup.
Qed.

Lemma groupMetrics_NoDup (ms : list MetricDefinition)
    (options : option SerializeOptions) :
  NoDup (mapKeys (groupMetrics ms options)).
Proof.
  unfold groupMetrics.
  assert (H : forall acc, NoDup (mapKeys acc) ->
            NoDup (mapKeys (fold_left
                              (groupStep (default ∅ (options ≫= denylist))
                                         (default ∅ (options ≫= excludeLabels)))
                              ms acc))).
  { induction ms as [|m ms IH]; intros acc Hacc; simpl; [done|].
    apply IH. by apply groupStep_NoDup. }
  apply H. constructor.
Qed.

Lemma groupMetrics_keys (ms : list MetricDefinition)
    (options : option SerializeOptions) (n : string) :
  n ∈ mapKeys (groupMetrics ms options)
  <-> (n ∉ default ∅ (options ≫= denylist)) /\ exists m, m ∈ ms /\ name m = n.
Proof.
  split.
  - unfold groupMetrics.
    assert (H : forall acc,
               n ∈ mapKeys (fold_left
                              (groupStep (default ∅ (options ≫= denylist))
                                         (default ∅ (options ≫= excludeLabels)))
                              ms acc) ->
               n ∈ mapKeys acc
               \/ ((n ∉ default ∅ (options ≫= denylist))
                   /\ exists m, m ∈ ms /\ name m = n)).
    { induction ms as [|m ms IH]; intros acc Hn; simpl in Hn; [by left|].
      apply IH in Hn as [Hn|(Hd & m' & Hm' & Hname)].
      - apply groupStep_keys in Hn as [Hn|[-> Hd]]; [by left|].
        right. split; [done|]. exists m. split; [left|done].
      - right. split; [done|]. exists m'. split; [by right|done]. }
    intros Hn. apply H in Hn as [Hn|Hn]; [by apply elem_of_nil in Hn|done].
  - intros (Hd & m & Hm & <-).
    destruct (groupMetrics_member options ms m Hd Hm) as (g & Hg & _).
    apply mapGet_Some_elem in Hg. apply list_elem_of_fmap. by exists (name m, g).
Qed.

Lemma helpNames_groupLines (n : string) (g : MetricDefinition) :
  helpNames (groupLines localeCompare n g) = [n]
  /\ typeNames (groupLines localeCompare n g) = [n].
Proof.
  unfold groupLines, helpNames, typeNames. simpl.
  rewrite !omap_app. simpl.
  assert (H1 : forall vs : list MetricValue,
             omap (fun l => match l with LHelp n _ => Some n | _ => None end)
                  (map (fun v => LValue n (labels v) (value v)) vs) = []).
  { induction vs; [done|]. simpl. done. }
  assert (H2 : forall vs : list MetricValue,
             omap (fun l => match l with LType n _ => Some n | _ => None end)
                  (map (fun v => LValue n (labels v) (value v)) vs) = []).
  { induction vs; [done|]. simpl. done. }
  by rewrite H1, H2.
Qed.

Lemma helpNames_serializeLines (ms : list MetricDefinition)
    (options : option SerializeOptions) :
  helpNames (serializeLines localeCompare ms options)
  = mapKeys (groupMetrics ms options)
  /\ typeNames (serializeLines localeCompare ms options)
     = mapKeys (groupMetrics ms options).
Proof.
  unfold serializeLines. induction (groupMetrics ms options) as [|[n g] l IH].
  - done.
  - cbn [flat_map]. destruct (helpNames_groupLines n g) as [H1 H2].
    unfold helpNames, typeNames in *. rewrite !omap_app.
    destruct IH as [-> ->]. by rewrite H1, H2.
Qed.

(** X4. The output has exactly one HELP line and one TYPE line per metric
    name, however many input entries carry that name, and the names that
    get a header are exactly the names of the input that are not denied. *)
Theorem one_header_per_name (ms : list MetricDefinition)
    (options : option SerializeOptions) :
  let lines := serializeLines localeCompare ms options in
  NoDup (helpNames lines)
  /\ typeNames lines = helpNames lines
  /\ forall n, n ∈ helpNames lines
               <-> (n ∉ default ∅ (options ≫= denylist))
                   /\ exists m, m ∈ ms /\ name m = n.
Proof.
  intros lines. unfold lines.
  destruct (helpNames_serializeLines ms options) as [-> ->].
  split; [apply groupMetrics_NoDup|]. split; [done|].
  apply groupMetrics_keys.
Qed.

Lemma group_values (ms : list MetricDefinition)
    (options : option SerializeOptions) (n : string) (g : MetricDefinition) :
  (n, g) ∈ groupMetrics ms options ->
  values g
  = flat_map (filteredValues (default ∅ (options ≫= excludeLabels)))
             (filter (fun m => name m = n) ms).
Proof.
  intros Hin.
  assert (Hn : n ∈ mapKeys (groupMetrics ms options))
    by (apply list_elem_of_fmap; by exists (n, g)).
  apply groupMetrics_keys in Hn as [Hd _].
  apply (mapGet_elem_NoDup _ _ _ (groupMetrics_NoDup ms options)) in Hin.
  unfold groupMetrics in Hin.
  rewrite (fold_groupStep_get _ _ _ Hd) in Hin. simpl in Hin.
  destruct (filter (fun m => name m = n) ms) as [|m0 rest]; [done|].
  by injection Hin as <-.
Qed.

Lemma aggregateByLabels_labels (vs : list MetricValue) (t : MetricType)
    (r : MetricValue) :
  r ∈ aggregateByLabels localeCompare vs t ->
  exists v, v ∈ vs /\ labels r = labels v.
Proof.
  intros Hr.
  assert (H : aggregated localeCompare
                (fold_left (aggregateStep localeCompare t) vs []) vs).
  { apply (fold_aggregateStep_aggregated localeCompare t vs [] []).
    split; [done|]. intros x Hx. by apply elem_of_nil in Hx. }
  destruct H as [Hfirst _].
  destruct (aggregateByLabels_values localeCompare vs t) as (Hnd & _).
  unfold aggregateByLabels, mapValues in Hr.
  apply list_elem_of_fmap in Hr as ([k r'] & -> & Hin). simpl.
  apply (mapGet_elem_NoDup _ _ _ Hnd) in Hin.
  destruct (Hfirst _ _ Hin) as (v0 & Hv0 & Hl).
  exists v0. split; [|done].
  destruct (filter _ vs) as [|y l] eqn:Hf; [done|]. injection Hv0 as ->.
  assert (Hy : v0 ∈ filter (fun x => sigOf localeCompare x = k) vs)
    by (rewrite Hf; left).
  by apply list_elem_of_filter in Hy as [_ ?].
Qed.

(** X5. No value line of the output carries a label whose key is in
    [excludeLabels]. *)
Theorem excluded_labels_absent (ms : list MetricDefinition)
    (options : option SerializeOptions) (n : string) (ls : Labels) (v : Z)
    (k : string) :
  LValue n ls v ∈ serializeLines localeCompare ms options ->
  k ∈ default ∅ (options ≫= excludeLabels) ->
  k ∉ map fst ls.
Proof.
  set (E := default ∅ (options ≫= excludeLabels)).
  intros Hl Hk.
  apply serializeLines_group in Hl as (n0 & g & Hin & Hl).
  unfold groupLines in Hl.
  apply elem_of_cons in Hl as [Hl|Hl]; [discriminate Hl|].
  apply elem_of_cons in Hl as [Hl|Hl]; [discriminate Hl|].
  apply elem_of_app in Hl as [Hl|Hl];
    [|apply list_elem_of_singleton in Hl; discriminate Hl].
  apply list_elem_of_fmap in Hl as (r & [= -> -> ->] & Hr).
  apply aggregateByLabels_labels in Hr as (v0 & Hv0 & ->).
  rewrite (group_values ms options n0 g Hin) in Hv0. fold E in Hv0.
  apply list_elem_of_In, in_flat_map in Hv0 as (m & _ & Hv0).
  apply list_elem_of_In in Hv0. unfold filteredValues in Hv0.
  destruct (0 <? size E)%nat eqn:Hsz.
  - apply list_elem_of_fmap in Hv0 as (v1 & -> & _). simpl.
    intros Hmem. apply list_elem_of_fmap in Hmem as ([k' x] & -> & Hmem).
    unfold filterLabels in Hmem.
    apply list_elem_of_filter in Hmem as [Hnot _]. simpl in *. done.
  - apply Nat.ltb_ge in Hsz.
    assert (HE : E ≡ ∅) by (apply size_empty_inv; lia).
    rewrite HE in Hk. by apply not_elem_of_empty in Hk.
Qed.

(** X8. The serialized text is empty exactly when every input entry
    carries a denied name (in particular for an empty input). *)
Theorem serialized_empty_iff_all_denied (ms : list MetricDefinition)
    (options : option SerializeOptions) :
  serializeToPrometheus localeCompare ms options = EmptyString
  <-> Forall (fun m => name m ∈ default ∅ (options ≫= denylist)) ms.
Proof.
  split.
  - intros Htext. apply Forall_forall. intros m Hm.
    destruct (decide (name m ∈ default ∅ (options ≫= denylist))) as [|Hd];
      [done|].
    exfalso.
    destruct (groupMetrics_member options ms m Hd Hm) as (g & Hg & _).
    apply mapGet_Some_elem in Hg.
    unfold serializeToPrometheus, serializeLines in Htext.
    destruct (groupMetrics ms options) as [|[n0 g0] l]; [by apply elem_of_nil in Hg|].
    simpl in Htext. rewrite !append_cons in Htext. discriminate Htext.
  - intros Hall. unfold serializeToPrometheus, serializeLines, groupMetrics.
    rewrite fold_groupStep_filter.
    assert (Hnil : filter (fun m => name m ∉ default ∅ (options ≫= denylist)) ms
                   = []).
    { induction Hall as [|m ms Hm _ IH]; [done|].
      rewrite filter_cons, decide_False by (by intros H; apply H). exact IH. }
    by rewrite Hnil.
Qed.
End GroupHeaders.

(** ** Worked instances of the aggregation properties *)


Lemma aggregated_gauge_is_max_witness :
  exists v, v ∈ duplicateRows
            /\ sigOf codeUnitCompare v
               = sigOf codeUnitCompare
                   {| labels := [("zone", "a")]; value := 4 |}
            /\ value v = 4.
Proof.
  apply (aggregated_gauge_is_max codeUnitCompare duplicateRows
           {| labels := [("zone", "a")]; value := 4 |}).
  vm_compute. left.
Defined.

Lemma excluded_labels_absent_witness :
  "host" ∉ map fst ([] : Labels).
Proof.
  apply (excluded_labels_absent codeUnitCompare
           [hostRows "cloudflare_zone_requests_total" "Requests" counter]
           excludeHostOnly "cloudflare_zone_requests_total" [] 8 "host").
  - cbv [serializeLines groupMetrics fold_left groupStep filteredValues
           hostRows name excludeHostOnly]. simpl default.
    rewrite decide_False by set_solver.
    vm_compute. right. right. left.
  - simpl. set_solver.
Defined.

(** ** Escaping *)

Lemma replaceAll_append (c : ascii) (b s1 s2 : string) :
  replaceAll c b (s1 +:+ s2) = replaceAll c b s1 +:+ replaceAll c b s2.
Proof.
  induction s1 as [|a s1 IH]; [done|].
  rewrite append_cons. simpl. rewrite IH.
  destruct (Ascii.eqb a c); [by rewrite append_assoc|by rewrite append_cons].
Qed.

Lemma escapeLabel_cons (a : ascii) (v : string) :
  escapeLabel (String a v)
  = (if Ascii.eqb a backslashChar then str1 backslashChar +:+ str1 backslashChar
     else if Ascii.eqb a quoteChar then str1 backslashChar +:+ str1 quoteChar
     else if Ascii.eqb a newlineChar then str1 backslashChar +:+ "n"
     else str1 a) +:+ escapeLabel v.
Proof.
  change (String a v) with (str1 a +:+ v). unfold escapeLabel.
  rewrite !replaceAll_append. f_equal.
  by destruct a as [[] [] [] [] [] [] [] []]; vm_compute.
Qed.

Lemma escapeHelp_cons (a : ascii) (h : string) :
  escapeHelp (String a h)
  = (if Ascii.eqb a backslashChar then str1 backslashChar +:+ str1 backslashChar
     else if Ascii.eqb a newlineChar then str1 backslashChar +:+ "n"
     else str1 a) +:+ escapeHelp h.
Proof.
  change (String a h) with (str1 a +:+ h). unfold escapeHelp.
  rewrite !replaceAll_append. f_equal.
  by destruct a as [[] [] [] [] [] [] [] []]; vm_compute.
Qed.

(** X6. Escaped label values and escaped help texts contain no line
    break, whatever the original text holds, so neither can end the line
    it is written on. *)
Theorem escaped_text_has_no_line_break (s : string) :
  countChar newlineChar (escapeLabel s) = 0%nat
  /\ countChar newlineChar (escapeHelp s) = 0%nat.
Proof.
  split.
  - induction s as [|a s IH]; [done|].
    rewrite escapeLabel_cons, countChar_append, IH.
    destruct (Ascii.eqb_spec a backslashChar) as [->|H1]; [done|].
    destruct (Ascii.eqb_spec a quoteChar) as [->|H2]; [done|].
    destruct (Ascii.eqb_spec a newlineChar) as [->|H3]; [done|].
    simpl. by destruct (Ascii.eqb_spec a newlineChar).
  - induction s as [|a s IH]; [done|].
    rewrite escapeHelp_cons, countChar_append, IH.
    destruct (Ascii.eqb_spec a backslashChar) as [->|H1]; [done|].
    destruct (Ascii.eqb_spec a newlineChar) as [->|H3]; [done|].
    simpl. by destruct (Ascii.eqb_spec a newlineChar).
Qed.

(** X7. Escaping loses nothing: two label values with the same escaped
    form are equal, and likewise two help texts. *)
Theorem escaping_is_injective (s1 s2 : string) :
  (escapeLabel s1 = escapeLabel s2 -> s1 = s2)
  /\ (escapeHelp s1 = escapeHelp s2 -> s1 = s2).
Proof.
  split.
  - revert s2. induction s1 as [|a s1 IH]; intros [|b s2].
    + done.
    + rewrite escapeLabel_cons. intros H. exfalso. revert H.
      destruct (Ascii.eqb b backslashChar); [discriminate|].
      destruct (Ascii.eqb b quoteChar); [discriminate|].
      destruct (Ascii.eqb b newlineChar); discriminate.
    + rewrite escapeLabel_cons. intros H. exfalso. revert H.
      destruct (Ascii.eqb a backslashChar); [discriminate|].
      destruct (Ascii.eqb a quoteChar); [discriminate|].
      destruct (Ascii.eqb a newlineChar); discriminate.
    + rewrite !escapeLabel_cons.
      destruct (Ascii.eqb_spec a backslashChar) as [->|Ha1];
        [|destruct (Ascii.eqb_spec a quoteChar) as [->|Ha2];
          [|destruct (Ascii.eqb_spec a newlineChar) as [->|Ha3]]];
      (destruct (Ascii.eqb_spec b backslashChar) as [->|Hb1];
        [|destruct (Ascii.eqb_spec b quoteChar) as [->|Hb2];
          [|destruct (Ascii.eqb_spec b newlineChar) as [->|Hb3]]]);
      unfold str1; rewrite ?append_cons, ?append_nil_l; intros H;
      try discriminate H;
      try (injection H as H; f_equal; by apply IH);
      try (injection H as -> H; done);
      try (injection H as <- H; done).
      injection H as -> H. f_equal. by apply IH.
  - revert s2. induction s1 as [|a s1 IH]; intros [|b s2].
    + done.
    + rewrite escapeHelp_cons. intros H. exfalso. revert H.
      destruct (Ascii.eqb b backslashChar); [discriminate|].
      destruct (Ascii.eqb b newlineChar); discriminate.
    + rewrite escapeHelp_cons. intros H. exfalso. revert H.
      destruct (Ascii.eqb a backslashChar); [discriminate|].
      destruct (Ascii.eqb a newlineChar); discriminate.
    + rewrite !escapeHelp_cons.
      destruct (Ascii.eqb_spec a backslashChar) as [->|Ha1];
        [|destruct (Ascii.eqb_spec a newlineChar) as [->|Ha3]];
      (destruct (Ascii.eqb_spec b backslashChar) as [->|Hb1];
        [|destruct (Ascii.eqb_spec b newlineChar) as [->|Hb3]]);
      unfold str1; rewrite ?append_cons, ?append_nil_l; intros H;
      try discriminate H;
      try (injection H as H; f_equal; by apply IH);
      try (injection H as -> H; done);
      try (injection H as <- H; done).
      injection H as -> H. f_equal. by apply IH.
Qed.

(** ** Signatures do not depend on the insertion order of the labels *)

Section SortFacts.
Variable cmp : string -> string -> Z.
Variable ks : list string.
Hypothesis Hks : collatesOn cmp ks.

Lemma collates_total (a b : string) :
  a ∈ ks -> b ∈ ks -> cmp a b <= 0 \/ cmp b a <= 0.
Proof.
  intros Ha Hb. unfold collatesOn in Hks.
  rewrite Forall_forall in Hks. specialize (Hks a Ha).
  rewrite Forall_forall in Hks. by destruct (Hks b Hb) as (? & _).
Qed.

Lemma collates_antisym (a b : string) :
  a ∈ ks -> b ∈ ks -> cmp a b <= 0 -> cmp b a <= 0 -> a = b.
Proof.
  intros Ha Hb. unfold collatesOn in Hks.
  rewrite Forall_forall in Hks. specialize (Hks a Ha).
  rewrite Forall_forall in Hks. by destruct (Hks b Hb) as (_ & ? & _).
Qed.

Lemma collates_trans (a b c : string) :
  a ∈ ks -> b ∈ ks -> c ∈ ks -> cmp a b <= 0 -> cmp b c <= 0 -> cmp a c <= 0.
Proof.
  intros Ha Hb Hc. unfold collatesOn in Hks.
  rewrite Forall_forall in Hks. specialize (Hks a Ha).
  rewrite Forall_forall in Hks. destruct (Hks b Hb) as (_ & _ & H).
  rewrite Forall_forall in H. by apply H.
Qed.

Lemma insertEntry_Forall (P : string * string -> Prop) (e : string * string)
    (l : Labels) :
  P e -> Forall P l -> Forall P (insertEntry cmp e l).
Proof.
  intros He Hl. induction Hl as [|x l Hx Hl IH]; simpl.
  - by constructor.
  - destruct (cmp e.1 x.1 <=? 0); repeat constructor; done.
Qed.

Lemma sortEntries_Forall (P : string * string -> Prop) (l : Labels) :
  Forall P l -> Forall P (sortEntries cmp l).
Proof.
  unfold sortEntries. induction 1 as [|x l Hx Hl IH]; simpl; [done|].
  by apply insertEntry_Forall.
Qed.

Lemma insertEntry_comm (x y : string * string) (l : Labels) :
  x.1 ∈ ks -> y.1 ∈ ks -> Forall (fun e => e.1 ∈ ks) l -> x.1 <> y.1 ->
  insertEntry cmp x (insertEntry cmp y l)
  = insertEntry cmp y (insertEntry cmp x l).
Proof.
  intros Hx Hy Hl Hne. induction Hl as [|e l He Hl IH]; simpl.
  - destruct (Z.leb_spec (cmp x.1 y.1) 0) as [Hxy|Hxy];
      destruct (Z.leb_spec (cmp y.1 x.1) 0) as [Hyx|Hyx]; try done.
    + destruct Hne. by apply collates_antisym.
    + destruct (collates_total x.1 y.1 Hx Hy); lia.
  - destruct (Z.leb_spec (cmp y.1 e.1) 0) as [Hye|Hye];
      destruct (Z.leb_spec (cmp x.1 e.1) 0) as [Hxe|Hxe]; simpl.
    + destruct (Z.leb_spec (cmp x.1 y.1) 0) as [Hxy|Hxy];
        destruct (Z.leb_spec (cmp y.1 x.1) 0) as [Hyx|Hyx]; simpl.
      * destruct Hne. by apply collates_antisym.
      * destruct (Z.leb_spec (cmp y.1 e.1) 0); [done|lia].
      * destruct (Z.leb_spec (cmp x.1 e.1) 0); [done|lia].
      * destruct (collates_total x.1 y.1 Hx Hy); lia.
    + destruct (Z.leb_spec (cmp x.1 y.1) 0) as [Hxy|Hxy]; simpl.
      * pose proof (collates_trans _ _ _ Hx Hy He Hxy Hye). lia.
      * destruct (Z.leb_spec (cmp x.1 e.1) 0); [lia|].
        destruct (Z.leb_spec (cmp y.1 e.1) 0); [done|lia].
    + destruct (Z.leb_spec (cmp y.1 x.1) 0) as [Hyx|Hyx]; simpl.
      * pose proof (collates_trans _ _ _ Hy Hx He Hyx Hxe). lia.
      * destruct (Z.leb_spec (cmp y.1 e.1) 0); [lia|].
        destruct (Z.leb_spec (cmp x.1 e.1) 0); [done|lia].
    + destruct (Z.leb_spec (cmp x.1 e.1) 0); [lia|].
      destruct (Z.leb_spec (cmp y.1 e.1) 0); [lia|].
      by rewrite IH.
Qed.

Lemma sortEntries_Permutation (l1 l2 : Labels) :
  Permutation l1 l2 ->
  Forall (fun e => e.1 ∈ ks) l1 -> NoDup (map fst l1) ->
  sortEntries cmp l1 = sortEntries cmp l2.
Proof.
  unfold sortEntries.
  induction 1 as [|x l l' Hp IH|x y l|l l' l'' Hp1 IH1 Hp2 IH2];
    intros Hin Hnd.
  - done.
  - simpl. inversion Hin; subst. apply NoDup_cons in Hnd as [_ Hnd].
    by rewrite IH.
  - simpl. inversion Hin as [|? ? Hy Hin']; subst.
    inversion Hin' as [|? ? Hx Hl]; subst.
    simpl in Hnd. apply NoDup_cons in Hnd as [Hne _].
    apply insertEntry_comm; [done..| |].
    + by apply (sortEntries_Forall (fun e => e.1 ∈ ks)).
    + intros Heq. apply Hne. rewrite Heq. left.
  - rewrite IH1 by done. apply IH2.
    + by rewrite <- Hp1.
    + by rewrite <- Hp1.
Qed.
End SortFacts.

(** X9. When the collation orders the label keys consistently, the counter
    key and the serializer's label signature of a label set do not depend on
    the order in which the labels were inserted. *)
Theorem signature_ignores_insertion_order (cmp : string -> string -> Z)
    (mname : string) (l1 l2 : Labels) :
  Permutation l1 l2 -> NoDup (map fst l1) -> collatesOn cmp (map fst l1) ->
  metricKey cmp mname l1 = metricKey cmp mname l2
  /\ labelSignature cmp l1 = labelSignature cmp l2.
Proof.
  intros Hp Hnd Hks.
  assert (Hs : sortEntries cmp l1 = sortEntries cmp l2).
  { apply (sortEntries_Permutation cmp (map fst l1) Hks); [done| |done].
    apply Forall_forall. intros e He. apply list_elem_of_fmap. by exists e. }
  unfold metricKey, labelSignature. by rewrite Hs.
Qed.

Lemma signature_ignores_insertion_order_witness :
  metricKey codeUnitCompare "cloudflare_zone_requests_total" labelsInOrder
  = metricKey codeUnitCompare "cloudflare_zone_requests_total" labelsReordered
  /\ labelSignature codeUnitCompare labelsInOrder
     = labelSignature codeUnitCompare labelsReordered.
Proof.
  apply signature_ignores_insertion_order.
  - unfold labelsInOrder, labelsReordered.
    transitivity [("zone", "example.com"); ("status", "200"); ("host", "a")];
      [apply perm_skip, perm_swap|apply perm_swap].
  - refine (bool_decide_unpack _ _). vm_compute. exact I.
  - unfold collatesOn. refine (bool_decide_unpack _ _). vm_compute. exact I.
Defined.

(** ** Filters *)











(** ** Signatures tell label sets apart *)

Lemma join_nonempty (sep x : string) (l : list string) :
  x <> EmptyString -> join sep (x :: l) <> EmptyString.
Proof.
  intros Hx. destruct l as [|y l]; simpl; [done|].
  intros H. apply append_eq_nil in H as [H _]. done.
Qed.

Lemma split_join (c : ascii) (l : list string) :
  l <> [] -> Forall (fun s => countChar c s = 0%nat) l ->
  split c (join (str1 c) l) = l.
Proof.
  induction l as [|x l IH]; [done|]. intros _ Hall.
  apply Forall_cons in Hall as [Hx Hl].
  destruct l as [|y l].
  - simpl. by apply split_no_sep.
  - change (join (str1 c) (x :: y :: l))
      with (x +:+ String c (join (str1 c) (y :: l))).
    rewrite split_append_sep by done. by rewrite IH.
Qed.

Lemma join_inj (c : ascii) (l1 l2 : list string) :
  Forall (fun s => s <> EmptyString /\ countChar c s = 0%nat) l1 ->
  Forall (fun s => s <> EmptyString /\ countChar c s = 0%nat) l2 ->
  join (str1 c) l1 = join (str1 c) l2 -> l1 = l2.
Proof.
  intros H1 H2 Heq.
  destruct l1 as [|x1 l1], l2 as [|x2 l2]; [done| | |].
  - apply Forall_cons in H2 as [[Hx _] _]. symmetry in Heq.
    by apply join_nonempty in Heq.
  - apply Forall_cons in H1 as [[Hx _] _]. by apply join_nonempty in Heq.
  - rewrite <- (split_join c (x1 :: l1)), <- (split_join c (x2 :: l2)).
    + by rewrite Heq.
    + done.
    + eapply Forall_impl; [exact H2|]. by intros s [_ ?].
    + done.
    + eapply Forall_impl; [exact H1|]. by intros s [_ ?].
Qed.

Lemma insertEntry_Permutation (cmp : string -> string -> Z)
    (e : string * string) (l : Labels) :
  insertEntry cmp e l ≡ₚ e :: l.
Proof.
  induction l as [|e' l IH]; simpl; [done|].
  destruct (_ <=? _); [done|]. rewrite IH. apply perm_swap.
Qed.

Lemma sortEntries_perm (cmp : string -> string -> Z) (l : Labels) :
  sortEntries cmp l ≡ₚ l.
Proof.
  unfold sortEntries. induction l as [|e l IH]; simpl; [done|].
  rewrite insertEntry_Permutation. by constructor.
Qed.

(** X10. Rows with the same signature have the same labels: when no key
    holds one of the two separator characters of the signature and no
    value holds the entry separator, two label sets with equal signatures
    sort to the same list of entries, so they are the same entries up to
    order. *)
Theorem signature_is_injective (localeCompare : string -> string -> Z)
    (l1 l2 : Labels) :
  separatorFree l1 -> separatorFree l2 ->
  labelSignature localeCompare l1 = labelSignature localeCompare l2 ->
  sortEntries localeCompare l1 = sortEntries localeCompare l2 /\ l1 ≡ₚ l2.
Proof.
  intros H1 H2 Hsig.
  assert (Hsorted : forall l, separatorFree l ->
                      separatorFree (sortEntries localeCompare l)).
  { intros l Hl. unfold separatorFree in *. rewrite Forall_forall in *.
    intros kv Hkv. apply Hl. by rewrite <- (sortEntries_perm localeCompare l). }
  assert (Hitems : forall l, separatorFree l ->
             Forall (fun s => s <> EmptyString /\ countChar sohChar s = 0%nat)
                    (map (fun '(k, v) => k +:+ str1 nulChar +:+ v) l)).
  { intros l Hl. apply Forall_fmap. eapply Forall_impl; [exact Hl|].
    intros [k v] (Hk0 & Hk1 & Hv1). simpl in *. split.
    - intros H. apply append_eq_nil in H as [_ H]. discriminate H.
    - by rewrite !countChar_append, Hk1, Hv1. }
  assert (Hmap : map (fun '(k, v) => k +:+ str1 nulChar +:+ v)
                     (sortEntries localeCompare l1)
                 = map (fun '(k, v) => k +:+ str1 nulChar +:+ v)
                       (sortEntries localeCompare l2)).
  { apply (join_inj sohChar); [apply Hitems, Hsorted, H1
                              |apply Hitems, Hsorted, H2|exact Hsig]. }
  assert (Heq : sortEntries localeCompare l1 = sortEntries localeCompare l2).
  { pose proof (Hsorted l1 H1) as Hs1. pose proof (Hsorted l2 H2) as Hs2.
    revert Hmap Hs1 Hs2.
    generalize (sortEntries localeCompare l1) (sortEntries localeCompare l2).
    intros a. induction a as [|[k v] a IH]; intros [|[k' v'] b]; simpl;
      try done.
    intros [= Hkv Hrest] Ha Hb.
    apply Forall_cons in Ha as [(Hk0 & _) Ha].
    apply Forall_cons in Hb as [(Hk0' & _) Hb].
    unfold str1 in Hkv. rewrite !append_cons, !append_nil_l in Hkv.
    apply append_sep_prefix in Hkv as [-> ->]; [|done..].
    f_equal. by apply IH. }
  split; [exact Heq|].
  by rewrite <- (sortEntries_perm localeCompare l1), Heq, sortEntries_perm.
Qed.

Lemma signature_is_injective_witness :
  sortEntries codeUnitCompare [("zone", "example.com"); ("host", "a")]
  = sortEntries codeUnitCompare [("host", "a"); ("zone", "example.com")]
  /\ [("zone", "example.com"); ("host", "a")]
     ≡ₚ [("host", "a"); ("zone", "example.com")].
Proof.
  apply (signature_is_injective codeUnitCompare).
  - repeat constructor.
  - repeat constructor.
  - reflexivity.
Defined.

(** ** Counter map: shape, frame and continuation *)

Section CounterMapFacts.
Variable localeCompare : string -> string -> Z.

Lemma processValues_frame (mname : string) (vs : list MetricValue) :
  forall counters : gmap string CounterState,
    map labels (fst (processValues localeCompare mname vs counters))
    = map labels vs
    /\ dom (snd (processValues localeCompare mname vs counters))
       = dom counters
         ∪ list_to_set
             (map (fun v => metricKey localeCompare mname (labels v)) vs)
    /\ forall key,
        key ∉ map (fun v => metricKey localeCompare mname (labels v)) vs ->
        snd (processValues localeCompare mname vs counters) !! key
        = counters !! key.
Proof.
  induction vs as [|v vs IH]; intros counters; simpl.
  - split; [done|]. split; [|done].
    by rewrite (right_id_L ∅ (∪)).
  - set (k0 := metricKey localeCompare mname (labels v)).
    set (c := updateCounter (counters !! k0) (value v)).
    specialize (IH (<[k0 := c]> counters)).
    destruct (processValues localeCompare mname vs (<[k0 := c]> counters))
      as [out final].
    simpl in *. destruct IH as (Hl & Hd & Hf).
    split; [by rewrite Hl|]. split.
    + rewrite Hd, dom_insert_L. apply set_eq. intros x.
      rewrite !elem_of_union. tauto.
    + intros key Hkey. rewrite Hf.
      * apply lookup_insert_ne. intros ->. apply Hkey. left.
      * intros H. apply Hkey. by right.
Qed.

Lemma processMetrics_frame (raw : list MetricDefinition) :
  forall counters : gmap string CounterState,
    Forall2 sameShape raw (fst (processMetrics localeCompare raw counters))
    /\ dom (snd (processMetrics localeCompare raw counters))
       = dom counters ∪ list_to_set (signaturesOf localeCompare raw)
    /\ forall key,
        key ∉ signaturesOf localeCompare raw ->
        snd (processMetrics localeCompare raw counters) !! key
        = counters !! key.
Proof.
  induction raw as [|m raw IH]; intros counters; simpl.
  - split; [constructor|]. split; [|done].
    by rewrite (right_id_L ∅ (∪)).
  - destruct (type m) eqn:Hty.
    + pose proof (processValues_frame (name m) (values m) counters)
        as (Hl & Hd & Hf).
      destruct (processValues localeCompare (name m) (values m) counters)
        as [pv mid].
      specialize (IH mid).
      destruct (processMetrics localeCompare raw mid) as [out final].
      simpl in *. destruct IH as (Hs & Hd' & Hf').
      split; [|split].
      * constructor; [|done]. unfold sameShape. simpl. by rewrite Hl.
      * by rewrite Hd', Hd, list_to_set_app_L, (assoc_L (∪)).
      * intros key Hkey. rewrite Hf', Hf; [done| |].
        -- intros H. apply Hkey. apply elem_of_app. by left.
        -- intros H. apply Hkey. apply elem_of_app. by right.
    + specialize (IH counters).
      destruct (processMetrics localeCompare raw counters) as [out final].
      simpl in *. destruct IH as (Hs & Hd' & Hf').
      split; [|done]. constructor; [|done]. by unfold sameShape.
Qed.

(** X11. [processCounters] changes nothing but the values of counter rows:
    the returned metrics have the names, help texts, types and label sets of
    the input, in the same order. The returned counter map holds exactly the
    signatures it held before plus those of this snapshot's counter rows, and
    the entry of every other signature is the one it had. *)
Theorem processCounters_shape_and_frame (raw : list MetricDefinition)
    (existing : gmap string CounterState) :
  let out := processCounters localeCompare raw existing in
  Forall2 sameShape raw (fst out)
  /\ dom (snd out) = dom existing ∪ list_to_set (signaturesOf localeCompare raw)
  /\ forall key, key ∉ signaturesOf localeCompare raw ->
                 snd out !! key = existing !! key.
Proof. apply processMetrics_frame. Qed.


End CounterMapFacts.


Lemma processCounters_shape_and_frame_witness :
  snd (processCounters codeUnitCompare [sampleCounter 2]
         {[ "other{}" := {| accumulated := 9 |} ]}) !! "other{}"
  = ({[ "other{}" := {| accumulated := 9 |} ]} : gmap string CounterState)
      !! "other{}".
Proof.
  apply (processCounters_shape_and_frame codeUnitCompare [sampleCounter 2]
           {[ "other{}" := {| accumulated := 9 |} ]}).
  intros H. apply list_elem_of_In in H. vm_compute in H.
  destruct H as [H|H]; [discriminate H|exact H].
Defined.

(** ** Query exporter: scheduling, persistence and context *)

(** X13. With a positive refresh interval and the jitter the source draws
    (at least 1000 ms, less than 5000 ms), the alarm is set strictly more
    than a second after the clock reading and less than one interval plus
    five seconds after it, and it lies exactly [jitter] after a multiple of
    the interval. *)
Theorem next_alarm_lies_in_next_interval (config : ResolvedConfig)
    (now jitter : Z) :
  0 < metricRefreshIntervalSeconds config ->
  1000 <= jitter < 5000 ->
  exists t,
    MetricExporter.scheduleNextAlarm config now jitter
    = MetricExporter.SetAlarm t
    /\ now + 1000 < t < now + metricRefreshIntervalSeconds config * 1000 + 5000
    /\ (t - jitter) mod (metricRefreshIntervalSeconds config * 1000) = 0.
Proof.
  intros Hpos Hj. unfold MetricExporter.scheduleNextAlarm.
  set (i := metricRefreshIntervalSeconds config * 1000).
  assert (Hi : 0 < i) by (unfold i; lia).
  eexists. split; [reflexivity|].
  pose proof (Z.mod_pos_bound now i Hi) as Hm.
  pose proof (Z.div_mod now i ltac:(lia)) as Hd.
  split; [nia|].
  replace (now / i * i + i + jitter - jitter) with ((now / i + 1) * i) by lia.
  apply Z.mod_mul. lia.
Qed.

Lemma next_alarm_lies_in_next_interval_witness :
  exists t,
    MetricExporter.scheduleNextAlarm sampleConfig 1700000012345 2500
    = MetricExporter.SetAlarm t
    /\ 1700000012345 + 1000 < t
       < 1700000012345 + metricRefreshIntervalSeconds sampleConfig * 1000 + 5000
    /\ (t - 2500) mod (metricRefreshIntervalSeconds sampleConfig * 1000) = 0.
Proof.
  apply (next_alarm_lies_in_next_interval sampleConfig 1700000012345 2500).
  - vm_compute. reflexivity.
  - lia.
Defined.

Lemma fetchMetrics_calls (client : Client) (state : MetricExporter.State)
    (timeRange : TimeRange) :
  snd (MetricExporter.fetchMetrics client state timeRange) = []
  \/ snd (MetricExporter.fetchMetrics client state timeRange)
     = [MetricExporter.UpstreamCall (MetricExporter.queryName state)].
Proof.
  unfold MetricExporter.fetchMetrics, MetricExporter.fetchAccountScopedMetrics,
    MetricExporter.fetchZoneScopedMetrics.
  destruct (MetricExporter.scopeType state).
  - destruct (isAccountLevelQuery _); [by right|].
    destruct (isZoneLevelQuery _); [|by left].
    destruct (_ && _); [by left|by right].
  - destruct (MetricExporter.zoneMetadata state); [|by left].
    destruct (decide _); [by right|]. destruct (decide _); [by right|by left].
Qed.

(** X14. Every run of [refreshWithTimeRange], whatever the upstream does,
    ends by scheduling the next alarm, makes at most one upstream call, and
    either leaves the state as it was without writing, or writes exactly
    the state it returns, once, just before the alarm. *)
Theorem refresh_persists_and_reschedules
    (localeCompare : string -> string -> Z) (client : Client)
    (state : MetricExporter.State) (timeRange : TimeRange)
    (config : ResolvedConfig) (now jitter : Z) :
  let out :=
    MetricExporter.refreshWithTimeRange localeCompare client state timeRange
      config now jitter in
  exists calls,
    (calls = [] \/ calls = [MetricExporter.UpstreamCall (MetricExporter.queryName state)])
    /\ ((fst out = state
         /\ snd out = [MetricExporter.scheduleNextAlarm config now jitter])
        \/ snd out
           = calls ++ [MetricExporter.StoragePut (fst out);
                       MetricExporter.scheduleNextAlarm config now jitter]).
Proof.
  unfold MetricExporter.refreshWithTimeRange.
  destruct (MetricExporter.skipsFetch state config now).
  - exists []. split; [by left|]. by left.
  - pose proof (fetchMetrics_calls client state timeRange) as Hc.
    destruct (MetricExporter.fetchMetrics client state timeRange)
      as [[e|raw] calls]; simpl in *;
      (exists calls; split; [exact Hc|by right]).
Qed.

Lemma refresh_keeps_identity
    (localeCompare : string -> string -> Z) (client : Client)
    (state : MetricExporter.State) (timeRange : TimeRange)
    (config : ResolvedConfig) (now jitter : Z) :
  let st :=
    fst (MetricExporter.refreshWithTimeRange localeCompare client state
           timeRange config now jitter) in
  MetricExporter.scopeType st = MetricExporter.scopeType state
  /\ MetricExporter.scopeId st = MetricExporter.scopeId state
  /\ MetricExporter.queryName st = MetricExporter.queryName state
  /\ MetricExporter.accountId st = MetricExporter.accountId state
  /\ MetricExporter.accountName st = MetricExporter.accountName state
  /\ MetricExporter.zones st = MetricExporter.zones state
  /\ MetricExporter.firewallRules st = MetricExporter.firewallRules state
  /\ MetricExporter.zoneMetadata st = MetricExporter.zoneMetadata state.
Proof.
  unfold MetricExporter.refreshWithTimeRange.
  destruct (MetricExporter.skipsFetch state config now); [done|].
  destruct (MetricExporter.fetchMetrics client state timeRange)
    as [[e|raw] calls]; done.
Qed.

(** X15. The certificate cache of a zone-scoped exporter: after a refresh
    that fetched successfully at a positive clock reading [now], every
    alarm that fires before [now + sslCertsCacheTtlSeconds * 1000] makes no
    upstream call and writes nothing: it leaves the state unchanged and
    only schedules the next alarm. *)
Theorem ssl_cache_suppresses_refetch
    (localeCompare : string -> string -> Z) (client client' : Client)
    (state : MetricExporter.State) (timeRange : TimeRange)
    (config : ResolvedConfig) (now jitter now' jitter' : Z)
    (raw : list MetricDefinition) (calls : list MetricExporter.Effect) :
  MetricExporter.scopeType state = scope_zone ->
  MetricExporter.skipsFetch state config now = false ->
  MetricExporter.fetchMetrics client state timeRange = (inr raw, calls) ->
  0 < now ->
  now <= now' < now + sslCertsCacheTtlSeconds config * 1000 ->
  let st1 :=
    fst (MetricExporter.refreshWithTimeRange localeCompare client state
           timeRange config now jitter) in
  MetricExporter.alarm localeCompare client' st1 config now' jitter'
  = (st1, [MetricExporter.scheduleNextAlarm config now' jitter']).
Proof.
  intros Hscope Hskip Hfetch Hnow Hwin st1.
  assert (Hst1 : MetricExporter.scopeType st1 = scope_zone
                 /\ MetricExporter.lastSslFetch st1 = now).
  { unfold st1, MetricExporter.refreshWithTimeRange.
    rewrite Hskip, Hfetch. simpl. by rewrite Hscope. }
  destruct Hst1 as [Hs Hl].
  unfold MetricExporter.alarm, MetricExporter.refreshWithTimeRange at 1.
  assert (Hskip' : MetricExporter.skipsFetch st1 config now' = true).
  { unfold MetricExporter.skipsFetch. rewrite Hs, Hl.
    apply orb_true_iff. right. apply andb_true_iff. split.
    - apply Z.ltb_lt. lia.
    - apply Z.ltb_lt. lia. }
  by rewrite Hskip'.
Qed.

Lemma ssl_cache_suppresses_refetch_witness :
  let st1 :=
    fst (MetricExporter.refreshWithTimeRange codeUnitCompare emptyClient
           sslExporterState {| mintime := 0; maxtime := 60000 |}
           sampleConfig 1700000000000 1500) in
  MetricExporter.alarm codeUnitCompare failingClient st1 sampleConfig 1700000060000 2500
  = (st1, [MetricExporter.scheduleNextAlarm sampleConfig 1700000060000 2500]).
Proof.
  apply (ssl_cache_suppresses_refetch codeUnitCompare emptyClient failingClient
           sslExporterState {| mintime := 0; maxtime := 60000 |}
           sampleConfig 1700000000000 1500 1700000060000 2500 []
           [MetricExporter.UpstreamCall "ssl-certificates"]).
  - reflexivity.
  - vm_compute. reflexivity.
  - vm_compute. reflexivity.
  - lia.
  - vm_compute. split; [discriminate|reflexivity].
Defined.

(** X16. A refresh whose fetch failed leaves no trace in what the next
    refresh computes: counters and snapshot after the following refresh
    are those the following refresh would have produced from the state
    before the failure. *)
Theorem failed_refresh_leaves_no_trace
    (localeCompare : string -> string -> Z) (client client' : Client)
    (state : MetricExporter.State) (timeRange timeRange' : TimeRange)
    (config : ResolvedConfig) (now jitter now' jitter' : Z)
    (error : Thrown) (calls : list MetricExporter.Effect) :
  MetricExporter.skipsFetch state config now = false ->
  MetricExporter.fetchMetrics client state timeRange = (inl error, calls) ->
  let failed :=
    fst (MetricExporter.refreshWithTimeRange localeCompare client state
           timeRange config now jitter) in
  let after :=
    fst (MetricExporter.refreshWithTimeRange localeCompare client' failed
           timeRange' config now' jitter') in
  let direct :=
    fst (MetricExporter.refreshWithTimeRange localeCompare client' state
           timeRange' config now' jitter') in
  MetricExporter.counters after = MetricExporter.counters direct
  /\ MetricExporter.metrics after = MetricExporter.metrics direct
  /\ MetricExporter.lastRefresh after = MetricExporter.lastRefresh direct
  /\ (MetricExporter.skipsFetch state config now' = false -> after = direct).
Proof.
  intros Hskip Hfetch failed after direct.
  assert (Hf : failed
               = MetricExporter.withLastError state (Some (errorMessage error))).
  { unfold failed, MetricExporter.refreshWithTimeRange.
    by rewrite Hskip, Hfetch. }
  unfold after, direct. rewrite Hf. clear.
  unfold MetricExporter.refreshWithTimeRange.
  change (MetricExporter.skipsFetch
            (MetricExporter.withLastError state (Some (errorMessage error)))
            config now')
    with (MetricExporter.skipsFetch state config now').
  change (MetricExporter.fetchMetrics client'
            (MetricExporter.withLastError state (Some (errorMessage error)))
            timeRange')
    with (MetricExporter.fetchMetrics client' state timeRange').
  destruct (MetricExporter.skipsFetch state config now'); [done|].
  destruct (MetricExporter.fetchMetrics client' state timeRange')
    as [[e|raw] calls']; done.
Qed.

Lemma failed_refresh_leaves_no_trace_witness :
  MetricExporter.counters
    (fst (MetricExporter.refreshWithTimeRange codeUnitCompare emptyClient
            (fst (MetricExporter.refreshWithTimeRange codeUnitCompare
                    failingClient sampleExporterState
                    {| mintime := 0; maxtime := 60000 |} sampleConfig
                    1700000060000 1500))
            {| mintime := 60000; maxtime := 120000 |} sampleConfig
            1700000120000 2500))
  = MetricExporter.counters
      (fst (MetricExporter.refreshWithTimeRange codeUnitCompare emptyClient
              sampleExporterState {| mintime := 60000; maxtime := 120000 |}
              sampleConfig 1700000120000 2500)).
Proof.
  apply (failed_refresh_leaves_no_trace codeUnitCompare failingClient
           emptyClient sampleExporterState
           {| mintime := 0; maxtime := 60000 |}
           {| mintime := 60000; maxtime := 120000 |} sampleConfig
           1700000060000 1500 1700000120000 2500
           (JsError "upstream unavailable")
           [MetricExporter.UpstreamCall "worker-totals"]);
    vm_compute; reflexivity.
Defined.

Lemma paid_tier_is_zone_level (q : string) :
  isPaidTierGraphQLQuery q = true ->
  isZoneLevelQuery q = true /\ isAccountLevelQuery q = false.
Proof.
  unfold isPaidTierGraphQLQuery, isZoneLevelQuery, isAccountLevelQuery, includes.
  intros H. apply bool_decide_eq_true in H.
  unfold PAID_TIER_GRAPHQL_QUERIES in H.
  repeat (apply elem_of_cons in H as [->|H]; [by vm_compute|]).
  by apply elem_of_nil in H.
Qed.

(** X17. For a paid-tier GraphQL query the exporter asks the upstream about
    the zones that are not on the free plan, in their stored order, and
    about no other zone; when every zone is on the free plan (or there is
    none) it makes no call at all and the result is the empty list. *)
Theorem paid_tier_query_skips_free_zones (client : Client)
    (state : MetricExporter.State) (timeRange : TimeRange) :
  isPaidTierGraphQLQuery (MetricExporter.queryName state) = true ->
  let paid :=
    List.filter (fun z => negb (isFreeTierZone z)) (MetricExporter.zones state) in
  Forall (fun z => zone_plan_id z <> FREE_PLAN_ID) paid
  /\ MetricExporter.fetchAccountScopedMetrics client state timeRange
     = match paid with
       | [] => (inr [], [])
       | _ =>
           (getZoneMetrics client (MetricExporter.queryName state)
              (map zone_id paid) paid (MetricExporter.firewallRules state)
              timeRange,
            [MetricExporter.UpstreamCall (MetricExporter.queryName state)])
       end.
Proof.
  intros Hpaid paid.
  destruct (paid_tier_is_zone_level _ Hpaid) as [Hz Ha].
  split.
  - apply Forall_forall. intros z Hz'.
    apply list_elem_of_In, filter_In in Hz' as [_ Hz'].
    unfold isFreeTierZone in Hz'. apply negb_true_iff in Hz'.
    by apply bool_decide_eq_false in Hz'.
  - unfold MetricExporter.fetchAccountScopedMetrics.
    rewrite Ha, Hz, Hpaid. unfold partitionZonesByTier. simpl fst. fold paid.
    destruct paid; [by rewrite bool_decide_eq_true_2|].
    by rewrite bool_decide_eq_false_2.
Qed.

Lemma paid_tier_query_skips_free_zones_witness :
  MetricExporter.fetchAccountScopedMetrics failingClient
    (httpExporterState [freeZone; sampleZone; freeZone])
    {| mintime := 0; maxtime := 60000 |}
  = (getZoneMetrics failingClient "http-metrics" ["z1"] [sampleZone] ∅
       {| mintime := 0; maxtime := 60000 |},
     [MetricExporter.UpstreamCall "http-metrics"])
  /\ MetricExporter.fetchAccountScopedMetrics failingClient
       (httpExporterState [freeZone]) {| mintime := 0; maxtime := 60000 |}
     = (inr [], []).
Proof.
  split.
  - pose proof (paid_tier_query_skips_free_zones failingClient
                  (httpExporterState [freeZone; sampleZone; freeZone])
                  {| mintime := 0; maxtime := 60000 |}) as H.
    destruct H as [_ H]; [vm_compute; reflexivity|]. exact H.
  - pose proof (paid_tier_query_skips_free_zones failingClient
                  (httpExporterState [freeZone])
                  {| mintime := 0; maxtime := 60000 |}) as H.
    destruct H as [_ H]; [vm_compute; reflexivity|]. exact H.
Defined.

(** X18. [initialize] on an exporter without stored state throws exactly
    when the id fails the pattern; otherwise it stores one state whose
    scope, scope id and query name spell the id again, with no counters and
    an empty snapshot. That exporter serves the empty snapshot, and until
    a coordinator pushes context every refresh leaves it unchanged and
    makes no upstream call. *)
Theorem fresh_exporter_waits_for_context
    (localeCompare : string -> string -> Z) (config : ResolvedConfig)
    (id : string) :
  (MetricExporter.initialize None config id = None <-> regexTest idPattern id = false)
  /\ forall st effects,
      MetricExporter.initialize None config id = Some (st, effects) ->
      effects = [MetricExporter.StoragePut st]
      /\ idText (MetricExporter.scopeType st) (MetricExporter.scopeId st)
                (MetricExporter.queryName st) = id
      /\ MetricExporter.counters st = ∅
      /\ MetricExporter.export (Some st) = (inr [], [])
      /\ forall client timeRange config' now jitter,
          MetricExporter.refreshWithTimeRange localeCompare client st
            timeRange config' now jitter
          = (st, [MetricExporter.scheduleNextAlarm config' now jitter]).
Proof.
  split.
  - unfold MetricExporter.initialize.
    destruct (regexTest idPattern id) eqn:Ht.
    + apply regexTest_matches, idPattern_matches in Ht
        as (t & a & b & -> & [Ha Hca] & [Hb Hcb]).
      rewrite parse_idText by done. simpl. split; discriminate.
    + unfold MetricExporterIdSchema_parse. rewrite Ht. done.
  - intros st effects H. unfold MetricExporter.initialize in H.
    destruct (MetricExporterIdSchema_parse id) as [parsed|] eqn:Hp;
      [|discriminate H].
    simpl in H. injection H as <- <-.
    apply parse_Some_inv in Hp as (Hid & _).
    split; [done|]. split; [by rewrite Hid|]. split; [done|].
    split; [done|].
    intros client timeRange config' now jitter.
    unfold MetricExporter.refreshWithTimeRange, MetricExporter.skipsFetch.
    simpl. by destruct (id_scopeType parsed).
Qed.

Lemma fresh_exporter_waits_for_context_witness :
  exists st,
    MetricExporter.initialize None sampleConfig "zone:z1:ssl-certificates"
    = Some (st, [MetricExporter.StoragePut st])
    /\ MetricExporter.refreshWithTimeRange codeUnitCompare failingClient st
         {| mintime := 0; maxtime := 60000 |} sampleConfig 1700000000000 1500
       = (st, [MetricExporter.scheduleNextAlarm sampleConfig 1700000000000 1500]).
Proof.
  destruct (MetricExporter.initialize None sampleConfig "zone:z1:ssl-certificates")
    as [[st effects]|] eqn:Hinit; [|vm_compute in Hinit; discriminate Hinit].
  exists st.
  pose proof (fresh_exporter_waits_for_context codeUnitCompare sampleConfig
                "zone:z1:ssl-certificates") as [_ H].
  destruct (H st effects Hinit) as (-> & _ & _ & _ & Hrefresh).
  split; [reflexivity|apply Hrefresh].
Defined.

(** X19. A context push fetches only the first time. [updateZoneContext]
    does nothing on a zone-scoped exporter; on an account-scoped one it
    always stores the pushed account, zones and firewall rules, which are
    still in place in the state it leaves, and it makes an upstream call
    only if no zones were stored, the pushed list is not empty and no
    refresh has succeeded yet. [initializeZone] does nothing on an
    account-scoped exporter; on a zone-scoped one it always stores the zone
    and the account, and it makes an upstream call only if no zone was
    stored and no refresh has succeeded yet. *)
Theorem context_push_fetches_only_first
    (localeCompare : string -> string -> Z) (client : Client)
    (state : MetricExporter.State) (config : ResolvedConfig)
    (newAccountId newAccountName : string) (newZones : list Zone)
    (newFirewallRules : gmap string string) (zone : Zone)
    (timeRange : TimeRange) (now jitter : Z) :
  let pushed :=
    MetricExporter.updateZoneContext localeCompare client state config newAccountId
      newAccountName newZones newFirewallRules timeRange now jitter in
  let initialized :=
    MetricExporter.initializeZone localeCompare client state config zone newAccountId
      newAccountName timeRange now jitter in
  let fetches (effects : list MetricExporter.Effect) :=
    exists e, e ∈ effects /\ MetricExporter.isUpstreamCall e = true in
  (MetricExporter.scopeType state = scope_zone ->
   pushed = (state, [])
   /\ head (snd initialized)
      = Some (MetricExporter.StoragePut
                (MetricExporter.withZoneMetadata state zone newAccountId newAccountName))
   /\ MetricExporter.zoneMetadata (fst initialized) = Some zone
   /\ MetricExporter.accountId (fst initialized) = newAccountId
   /\ MetricExporter.accountName (fst initialized) = newAccountName
   /\ (fetches (snd initialized) ->
       MetricExporter.zoneMetadata state = None
       /\ MetricExporter.lastRefresh state = 0))
  /\ (MetricExporter.scopeType state = scope_account ->
      initialized = (state, [])
      /\ head (snd pushed)
         = Some (MetricExporter.StoragePut
                   (MetricExporter.withZoneContext state newAccountId newAccountName
                      newZones newFirewallRules))
      /\ MetricExporter.accountId (fst pushed) = newAccountId
      /\ MetricExporter.accountName (fst pushed) = newAccountName
      /\ MetricExporter.zones (fst pushed) = newZones
      /\ MetricExporter.firewallRules (fst pushed) = newFirewallRules
      /\ (fetches (snd pushed) ->
          MetricExporter.zones state = [] /\ newZones <> []
          /\ MetricExporter.lastRefresh state = 0)).
Proof.
  intros pushed initialized fetches.
  assert (Hsingle : forall s,
             ~ fetches [MetricExporter.StoragePut s]).
  { intros s (e & He & Hcall). apply list_elem_of_singleton in He as ->.
    discriminate Hcall. }
  unfold pushed, initialized, MetricExporter.updateZoneContext, MetricExporter.initializeZone.
  split; intros ->.
  - split; [done|].
    destruct (bool_decide (MetricExporter.zoneMetadata state = None)) eqn:Hz;
      simpl; [destruct (MetricExporter.lastRefresh state =? 0) eqn:Hl; simpl|].
    2, 3: repeat (split; [done|]); intros H; by apply Hsingle in H.
    pose proof (refresh_keeps_identity localeCompare client
                  (MetricExporter.withZoneMetadata state zone newAccountId newAccountName)
                  timeRange config now jitter) as Hk.
    destruct (MetricExporter.refreshWithTimeRange _ _ _ _ _ _ _)
      as [st'' effects].
    simpl in *. destruct Hk as (_ & _ & _ & Ha & Hn' & _ & _ & Hm).
    repeat (split; [done|]). intros _.
    apply bool_decide_eq_true in Hz. apply Z.eqb_eq in Hl. done.
  - split; [done|].
    destruct (bool_decide (MetricExporter.zones state = [])) eqn:Hz; simpl;
      [destruct (bool_decide (newZones = [])) eqn:Hn; simpl;
       [|destruct (MetricExporter.lastRefresh state =? 0) eqn:Hl; simpl]|].
    1, 3, 4: repeat (split; [done|]); intros H; by apply Hsingle in H.
    pose proof (refresh_keeps_identity localeCompare client
                  (MetricExporter.withZoneContext state newAccountId newAccountName
                     newZones newFirewallRules)
                  timeRange config now jitter) as Hk.
    destruct (MetricExporter.refreshWithTimeRange _ _ _ _ _ _ _)
      as [st'' effects].
    simpl in *. destruct Hk as (_ & _ & _ & Ha & Hn' & Hzs & Hf & _).
    repeat (split; [done|]). intros _.
    apply bool_decide_eq_true in Hz. apply bool_decide_eq_false in Hn.
    apply Z.eqb_eq in Hl. done.
Qed.

Lemma context_push_fetches_only_first_witness :
  MetricExporter.updateZoneContext codeUnitCompare failingClient sslExporterState
    sampleConfig "acc1" "Example" [sampleZone] ∅
    {| mintime := 0; maxtime := 60000 |} 1700000000000 1500
  = (sslExporterState, [])
  /\ MetricExporter.zones
       (fst (MetricExporter.updateZoneContext codeUnitCompare failingClient
               (httpExporterState []) sampleConfig "acc1" "Example"
               [sampleZone] ∅ {| mintime := 0; maxtime := 60000 |}
               1700000000000 1500))
     = [sampleZone].
Proof.
  split.
  - pose proof (context_push_fetches_only_first codeUnitCompare failingClient
                  sslExporterState sampleConfig "acc1" "Example" [sampleZone]
                  ∅ sampleZone {| mintime := 0; maxtime := 60000 |}
                  1700000000000 1500) as [H _].
    destruct H as [H _]; [reflexivity|exact H].
  - pose proof (context_push_fetches_only_first codeUnitCompare failingClient
                  (httpExporterState []) sampleConfig "acc1" "Example"
                  [sampleZone] ∅ sampleZone
                  {| mintime := 0; maxtime := 60000 |}
                  1700000000000 1500) as [_ H].
    destruct H as (_ & _ & _ & _ & H & _); [reflexivity|exact H].
Defined.

(** ** Account coordinator: scheduling, zone cache and exporter ids *)

Lemma zoneListStale_spec (state : AccountMetricCoordinator.State)
    (config : ResolvedConfig) (now : Z) :
  (zoneListCacheTtlSeconds config * 1000
     <=? now - AccountMetricCoordinator.lastZoneFetch state)
  || bool_decide (AccountMetricCoordinator.zones state = []) = true
  <-> AccountMetricCoordinator.zoneListStale state config now.
Proof.
  unfold AccountMetricCoordinator.zoneListStale.
  rewrite orb_true_iff, Z.leb_le, bool_decide_eq_true. done.
Qed.

Lemma pushContext_not_listing (state : AccountMetricCoordinator.State)
    (config : ResolvedConfig) (zs : list Zone) (e : AccountMetricCoordinator.Event) :
  e ∈ AccountMetricCoordinator.pushContext state config zs ->
  exists id, e = AccountMetricCoordinator.UpdateZoneContext id
             \/ e = AccountMetricCoordinator.InitializeZone id.
Proof.
  unfold AccountMetricCoordinator.pushContext. intros He.
  apply elem_of_app in He as [He|He].
  - apply list_elem_of_fmap in He as (q & -> & _). eexists. by left.
  - destruct (AccountMetricCoordinator.isFreeTierAccount config state).
    + by apply elem_of_nil in He.
    + apply list_elem_of_In, in_flat_map in He as (z & _ & He).
      apply list_elem_of_In, list_elem_of_fmap in He as (q & -> & _).
      eexists. by right.
Qed.

(** X20. The zone-list cache of the account coordinator: the upstream is
    asked for the zones exactly when the cached list is empty or at least
    [zoneListCacheTtlSeconds] old. Otherwise the state is returned as it
    is and the only events are the context pushes. When it is asked and
    answers, the stored list is the answer restricted to the zone
    allow-list (the whole answer when none is configured), in the order of
    the answer, [totalZoneCount] is the length of the whole answer, and the
    fetch time is the clock reading. *)
Theorem zone_list_is_cached (client : Client)
    (state : AccountMetricCoordinator.State) (config : ResolvedConfig) (now : Z) :
  let out :=
    AccountMetricCoordinator.refreshZonesAndPushContext client state config now in
  (AccountMetricCoordinator.GetZones (AccountMetricCoordinator.accountId state)
     ∈ snd out
   <-> AccountMetricCoordinator.zoneListStale state config now)
  /\ (~ AccountMetricCoordinator.zoneListStale state config now ->
      out = (inr state,
             AccountMetricCoordinator.pushContext state config
               (AccountMetricCoordinator.zones state)))
  /\ (forall allZones,
        AccountMetricCoordinator.zoneListStale state config now ->
        getZones client (AccountMetricCoordinator.accountId state) = inr allZones ->
        exists state',
          fst out = inr state'
          /\ AccountMetricCoordinator.zones state'
             = match cfZones config with
               | Some s =>
                   filter (fun z => zone_id z ∈ parseCommaSeparated s) allZones
               | None => allZones
               end
          /\ AccountMetricCoordinator.totalZoneCount state'
             = Z.of_nat (length allZones)
          /\ AccountMetricCoordinator.lastZoneFetch state' = now
          /\ AccountMetricCoordinator.StoragePut state' ∈ snd out).
Proof.
  intros out.
  pose proof (zoneListStale_spec state config now) as Hspec.
  unfold out, AccountMetricCoordinator.refreshZonesAndPushContext.
  destruct (_ || _) eqn:Hstale.
  - assert (Hs : AccountMetricCoordinator.zoneListStale state config now) by (by apply Hspec).
    split; [|split].
    + split; [done|]. intros _.
      destruct (getZones client _); simpl; left.
    + done.
    + intros allZones _ ->. simpl. eexists. split; [reflexivity|].
      split; [done|]. split; [done|]. split; [done|].
      apply elem_of_cons. right. apply elem_of_app. left.
      apply elem_of_app. right. left.
  - assert (Hs : ~ AccountMetricCoordinator.zoneListStale state config now).
    { intros Hs. apply Hspec in Hs. congruence. }
    split; [|split].
    + split; [|done]. simpl. intros He.
      apply pushContext_not_listing in He as (id & [He|He]); discriminate He.
    + done.
    + done.
Qed.

Lemma zone_list_is_cached_witness :
  AccountMetricCoordinator.refreshZonesAndPushContext failingClient
    (sampleCoordinatorState 1700000000000) sampleConfig 1700000060000
  = (inr (sampleCoordinatorState 1700000000000),
     AccountMetricCoordinator.pushContext
       (sampleCoordinatorState 1700000000000) sampleConfig [sampleZone]).
Proof.
  pose proof (zone_list_is_cached failingClient
                (sampleCoordinatorState 1700000000000) sampleConfig
                1700000060000) as (_ & H & _).
  apply H. unfold AccountMetricCoordinator.zoneListStale. vm_compute.
  intros [Hle|Hnil]; [apply Hle; reflexivity|discriminate Hnil].
Defined.

(** X21. Whatever happens, [refresh] of the account coordinator ends by
    setting the alarm one refresh interval after the clock reading, and it
    never changes the account id or name. When the zone listing is
    rejected it contacts no exporter and returns the state as it was,
    without writing; otherwise [lastRefresh] becomes the clock reading and
    the returned state is written just before the alarm. *)
Theorem account_refresh_always_reschedules (client : Client)
    (state : AccountMetricCoordinator.State) (config : ResolvedConfig) (now : Z) :
  let out := AccountMetricCoordinator.refresh client state config now in
  let alarm :=
    AccountMetricCoordinator.SetAlarm
      (now + metricRefreshIntervalSeconds config * 1000) in
  last (snd out) = Some alarm
  /\ AccountMetricCoordinator.accountId (fst out)
     = AccountMetricCoordinator.accountId state
  /\ AccountMetricCoordinator.accountName (fst out)
     = AccountMetricCoordinator.accountName state
  /\ (forall e,
        AccountMetricCoordinator.zoneListStale state config now ->
        getZones client (AccountMetricCoordinator.accountId state) = inl e ->
        out = (state,
               [AccountMetricCoordinator.GetZones
                  (AccountMetricCoordinator.accountId state); alarm]))
  /\ ((~ AccountMetricCoordinator.zoneListStale state config now
       \/ exists allZones,
           getZones client (AccountMetricCoordinator.accountId state)
           = inr allZones) ->
      AccountMetricCoordinator.lastRefresh (fst out) = now
      /\ exists pre,
          snd out = pre ++ [AccountMetricCoordinator.StoragePut (fst out); alarm]).
Proof.
  intros out alarm.
  pose proof (zoneListStale_spec state config now) as Hspec.
  unfold out, AccountMetricCoordinator.refresh,
    AccountMetricCoordinator.refreshZonesAndPushContext.
  destruct (_ || _) eqn:Hstale.
  - destruct (getZones client _) as [e|allZones] eqn:Hget; simpl.
    + split; [done|]. split; [done|]. split; [done|]. split; [done|].
      intros [Hn|[zs Hzs]]; [|discriminate Hzs].
      exfalso. apply Hn. by apply Hspec.
    + split.
      { rewrite app_comm_cons, !last_app. done. }
      split; [done|]. split; [done|]. split; [done|].
      intros _. split; [done|]. by eexists (_ :: _).
  - simpl. split.
    { by rewrite last_app. }
    split; [done|]. split; [done|]. split.
    + intros e Hs. apply Hspec in Hs. congruence.
    + intros _. split; [done|]. by eexists.
Qed.

Lemma account_refresh_always_reschedules_witness :
  AccountMetricCoordinator.refresh failingClient (sampleCoordinatorState 0)
    sampleConfig 1700000000000
  = (sampleCoordinatorState 0,
     [AccountMetricCoordinator.GetZones "acc1";
      AccountMetricCoordinator.SetAlarm
        (1700000000000 + metricRefreshIntervalSeconds sampleConfig * 1000)]).
Proof.
  pose proof (account_refresh_always_reschedules failingClient
                (sampleCoordinatorState 0) sampleConfig 1700000000000)
    as (_ & _ & _ & H & _).
  apply (H (JsError "upstream unavailable")).
  - left. vm_compute. discriminate.
  - reflexivity.
Defined.

Lemma accountQueries_parts (config : ResolvedConfig)
    (state : AccountMetricCoordinator.State) (q : string) :
  q ∈ AccountMetricCoordinator.accountQueries config state ->
  q <> EmptyString /\ countChar colonChar q = 0%nat
  /\ q ∈ AccountMetricCoordinator.ACCOUNT_SCOPED_QUERIES.
Proof.
  unfold AccountMetricCoordinator.accountQueries.
  assert (Hall : forall q,
             q ∈ AccountMetricCoordinator.ACCOUNT_SCOPED_QUERIES ->
             q <> EmptyString /\ countChar colonChar q = 0%nat).
  { intros q' H. vm_compute in H.
    repeat (apply elem_of_cons in H as [->|H]; [by vm_compute|]).
    by apply elem_of_nil in H. }
  destruct (decide _).
  - intros H. apply list_elem_of_In, filter_In in H as [H _].
    apply list_elem_of_In in H. destruct (Hall q H). done.
  - intros H. destruct (Hall q H). done.
Qed.

Lemma accountExporterId_idText (state : AccountMetricCoordinator.State)
    (q : string) :
  AccountMetricCoordinator.accountExporterId state q
  = idText scope_account (AccountMetricCoordinator.accountId state) q.
Proof. reflexivity. Qed.

Lemma zoneExporterId_idText (zone : Zone) (q : string) :
  AccountMetricCoordinator.zoneExporterId zone q
  = idText scope_zone (zone_id zone) q.
Proof. reflexivity. Qed.

(** X22. The ids under which the account coordinator addresses its
    exporters are ids the exporter accepts: for an account id (zone id)
    that is not empty and holds no colon, the id built for a query parses
    back to the account (zone) scope, that id and that query. With an
    empty account id, or one holding a colon, the exporter rejects every
    id built for the account's queries. *)
Theorem exporter_ids_parse_back (config : ResolvedConfig)
    (state : AccountMetricCoordinator.State) :
  let wellFormed (s : string) :=
    s <> EmptyString /\ countChar colonChar s = 0%nat in
  (forall q,
     q ∈ AccountMetricCoordinator.accountQueries config state ->
     (wellFormed (AccountMetricCoordinator.accountId state) ->
      MetricExporterIdSchema_parse
        (AccountMetricCoordinator.accountExporterId state q)
      = Some {| id_scopeType := scope_account;
                id_scopeId := AccountMetricCoordinator.accountId state;
                id_queryName := q |})
     /\ (~ wellFormed (AccountMetricCoordinator.accountId state) ->
         MetricExporterIdSchema_parse
           (AccountMetricCoordinator.accountExporterId state q) = None))
  /\ (forall zone q,
        q ∈ AccountMetricCoordinator.ZONE_SCOPED_QUERIES ->
        wellFormed (zone_id zone) ->
        MetricExporterIdSchema_parse
          (AccountMetricCoordinator.zoneExporterId zone q)
        = Some {| id_scopeType := scope_zone; id_scopeId := zone_id zone;
                  id_queryName := q |}).
Proof.
  intros wellFormed. split.
  - intros q Hq. apply accountQueries_parts in Hq as (Hne & Hc & _).
    rewrite accountExporterId_idText. split.
    + intros [Ha Hca]. by apply parse_idText.
    + intros Hbad.
      destruct (MetricExporterIdSchema_parse _) as [id|] eqn:Hp; [|done].
      exfalso. apply Hbad.
      apply parse_Some_inv in Hp as (Hid & [Ha Hca] & [Hb Hcb]).
      set (a := AccountMetricCoordinator.accountId state) in *.
      destruct (decide (countChar colonChar a = 0%nat)) as [Hz|Hnz].
      * assert (Hsplit : [scopeName scope_account; a; q]
                         = [scopeName (id_scopeType id); id_scopeId id;
                            id_queryName id]).
        { rewrite <- !split_idText by done. by rewrite Hid. }
        injection Hsplit as _ -> _. done.
      * exfalso.
        assert (Hcnt : countChar colonChar (idText scope_account a q)
                       = 2%nat).
        { rewrite Hid. by apply countChar_idText. }
        unfold idText in Hcnt. rewrite !countChar_append, Hc in Hcnt.
        vm_compute (countChar colonChar (scopeName scope_account)) in Hcnt.
        vm_compute (countChar colonChar (str1 colonChar)) in Hcnt.
        lia.
  - intros zone q Hq [Hz Hcz]. rewrite zoneExporterId_idText.
    apply parse_idText; try done.
    + vm_compute in Hq.
      repeat (apply elem_of_cons in Hq as [->|Hq]; [done|]).
      by apply elem_of_nil in Hq.
    + vm_compute in Hq.
      repeat (apply elem_of_cons in Hq as [->|Hq]; [done|]).
      by apply elem_of_nil in Hq.
Qed.

Lemma exporter_ids_parse_back_witness :
  MetricExporterIdSchema_parse
    (AccountMetricCoordinator.accountExporterId (sampleCoordinatorState 0)
       "http-metrics")
  = Some {| id_scopeType := scope_account; id_scopeId := "acc1";
            id_queryName := "http-metrics" |}.
Proof.
  pose proof (exporter_ids_parse_back sampleConfig (sampleCoordinatorState 0))
    as [H _].
  destruct (H "http-metrics") as [Hok _].
  - refine (bool_decide_unpack _ _). vm_compute. exact I.
  - apply Hok. split; [discriminate|reflexivity].
Defined.

Lemma refresh_addressed (client : Client)
    (state : AccountMetricCoordinator.State) (config : ResolvedConfig) (now : Z)
    (e : AccountMetricCoordinator.Event) (id : string) :
  e ∈ snd (AccountMetricCoordinator.refresh client state config now) ->
  AccountMetricCoordinator.addressedExporter e = Some id ->
  exists zs, e ∈ AccountMetricCoordinator.pushContext state config zs.
Proof.
  unfold AccountMetricCoordinator.refresh,
    AccountMetricCoordinator.refreshZonesAndPushContext.
  destruct (_ || _).
  - destruct (getZones client _) as [err|allZones]; simpl.
    + intros He Hid.
      repeat (apply elem_of_cons in He as [->|He]; [discriminate Hid|]).
      by apply elem_of_nil in He.
    + intros He Hid.
      apply elem_of_cons in He as [->|He]; [discriminate Hid|].
      apply elem_of_app in He as [He|He].
      * apply elem_of_app in He as [He|He].
        -- apply elem_of_app in He as [He|He].
           ++ apply list_elem_of_fmap in He as (z & -> & _). discriminate Hid.
           ++ apply list_elem_of_singleton in He as ->. discriminate Hid.
        -- by eexists.
      * repeat (apply elem_of_cons in He as [->|He]; [discriminate Hid|]).
        by apply elem_of_nil in He.
  - simpl. intros He Hid. apply elem_of_app in He as [He|He].
    + by eexists.
    + repeat (apply elem_of_cons in He as [->|He]; [discriminate Hid|]).
      by apply elem_of_nil in He.
Qed.

Lemma refresh_accountId (client : Client)
    (state : AccountMetricCoordinator.State) (config : ResolvedConfig) (now : Z) :
  AccountMetricCoordinator.accountId
    (fst (AccountMetricCoordinator.refresh client state config now))
  = AccountMetricCoordinator.accountId state.
Proof.
  unfold AccountMetricCoordinator.refresh,
    AccountMetricCoordinator.refreshZonesAndPushContext.
  destruct (_ || _); [|done].
  by destruct (getZones client _).
Qed.

(** X23. For an account listed in [CF_FREE_TIER_ACCOUNTS] the coordinator
    addresses three exporters only, those of the account-level queries:
    whatever zones it holds, it initializes no zone-scoped exporter, and
    every exporter it pushes context to or pulls a snapshot from belongs to
    one of those three queries. *)
Theorem free_tier_account_uses_account_level_only (client : Client)
    (exporterExport : string -> Thrown + list MetricDefinition)
    (state : AccountMetricCoordinator.State) (config : ResolvedConfig) (now : Z) :
  AccountMetricCoordinator.accountId state
    ∈ parseCommaSeparated (cfFreeTierAccounts config) ->
  AccountMetricCoordinator.accountQueries config state = ACCOUNT_LEVEL_QUERIES
  /\ forall e id,
      e ∈ snd (AccountMetricCoordinator.export client exporterExport state
                 config now) ->
      AccountMetricCoordinator.addressedExporter e = Some id ->
      (forall id', e <> AccountMetricCoordinator.InitializeZone id')
      /\ exists q,
          q ∈ ACCOUNT_LEVEL_QUERIES
          /\ id = AccountMetricCoordinator.accountExporterId state q.
Proof.
  intros Hfree.
  assert (Hq : forall st,
             AccountMetricCoordinator.accountId st
             = AccountMetricCoordinator.accountId state ->
             AccountMetricCoordinator.accountQueries config st
             = ACCOUNT_LEVEL_QUERIES
             /\ AccountMetricCoordinator.isFreeTierAccount config st = true).
  { intros st Hid. unfold AccountMetricCoordinator.accountQueries,
      AccountMetricCoordinator.isFreeTierAccount.
    rewrite Hid, decide_True by done. split; [by vm_compute|].
    by apply bool_decide_eq_true. }
  split; [by apply Hq|].
  assert (Hpush : forall zs e id,
             e ∈ AccountMetricCoordinator.pushContext state config zs ->
             AccountMetricCoordinator.addressedExporter e = Some id ->
             (forall id', e <> AccountMetricCoordinator.InitializeZone id')
             /\ exists q, q ∈ ACCOUNT_LEVEL_QUERIES
                          /\ id = AccountMetricCoordinator.accountExporterId state q).
  { intros zs e id He Hid. unfold AccountMetricCoordinator.pushContext in He.
    destruct (Hq state eq_refl) as [H1 H2]. rewrite H1, H2, app_nil_r in He.
    apply list_elem_of_fmap in He as (q & -> & Hin). simpl in Hid.
    injection Hid as <-. split; [done|]. by exists q. }
  assert (Hpull : forall st e id,
             AccountMetricCoordinator.accountId st
             = AccountMetricCoordinator.accountId state ->
             e ∈ map AccountMetricCoordinator.ExporterExport
                   (map (AccountMetricCoordinator.accountExporterId st)
                        (AccountMetricCoordinator.accountQueries config st)
                    ++ (if AccountMetricCoordinator.isFreeTierAccount config st
                        then []
                        else flat_map
                               (fun zone =>
                                  map (AccountMetricCoordinator.zoneExporterId zone)
                                      AccountMetricCoordinator.ZONE_SCOPED_QUERIES)
                               (AccountMetricCoordinator.zones st))) ->
             AccountMetricCoordinator.addressedExporter e = Some id ->
             (forall id', e <> AccountMetricCoordinator.InitializeZone id')
             /\ exists q, q ∈ ACCOUNT_LEVEL_QUERIES
                          /\ id = AccountMetricCoordinator.accountExporterId state q).
  { intros st e id Hst He Hid.
    destruct (Hq st Hst) as [H1 H2]. rewrite H1, H2, app_nil_r in He.
    apply list_elem_of_fmap in He as (x & -> & He).
    apply list_elem_of_fmap in He as (q & -> & Hin). simpl in Hid.
    injection Hid as <-. split; [done|]. exists q. split; [done|].
    unfold AccountMetricCoordinator.accountExporterId. by rewrite Hst. }
  intros e id He Hid.
  unfold AccountMetricCoordinator.export in He.
  destruct (AccountMetricCoordinator.needsRefresh state config now).
  - pose proof (refresh_accountId client state config now) as Hacc.
    pose proof (refresh_addressed client state config now e id) as Hadd.
    destruct (AccountMetricCoordinator.refresh client state config now)
      as [st revs].
    simpl in *. apply elem_of_app in He as [He|He].
    + destruct (Hadd He Hid) as [zs Hzs]. by apply (Hpush zs).
    + by apply (Hpull st).
  - simpl in He. by apply (Hpull state).
Qed.

Lemma free_tier_account_uses_account_level_only_witness :
  AccountMetricCoordinator.accountQueries freeTierConfig
    (sampleCoordinatorState 0)
  = ACCOUNT_LEVEL_QUERIES.
Proof.
  apply (free_tier_account_uses_account_level_only oneZoneClient
           (fun _ => inr []) (sampleCoordinatorState 0) freeTierConfig
           1700000000000).
  refine (bool_decide_unpack _ _). vm_compute. exact I.
Defined.

Lemma concat_pull_elem
    (exporterExport : string -> Thrown + list MetricDefinition)
    (ids : list string) (m : MetricDefinition) :
  m ∈ concat (map (AccountMetricCoordinator.pull exporterExport) ids)
  <-> exists id ms, id ∈ ids /\ exporterExport id = inr ms /\ m ∈ ms.
Proof.
  rewrite list_elem_of_In, in_concat. split.
  - intros (l & Hl & Hm). apply list_elem_of_In in Hm.
    apply list_elem_of_In, list_elem_of_fmap in Hl as (id & -> & Hid).
    unfold AccountMetricCoordinator.pull in Hm.
    destruct (exporterExport id) as [e|ms] eqn:He.
    + by apply elem_of_nil in Hm.
    + by exists id, ms.
  - intros (id & ms & Hid & He & Hm).
    exists (AccountMetricCoordinator.pull exporterExport id). split.
    + apply list_elem_of_In, list_elem_of_fmap. by exists id.
    + apply list_elem_of_In. unfold AccountMetricCoordinator.pull.
      by rewrite He.
Qed.

(** X24. The account coordinator's [export] never fails on an exporter: its
    metrics are exactly the metrics of the snapshots of the exporters it
    pulled that resolved, a rejecting exporter contributing nothing. Of the
    zone counts, [filtered] is the length of the stored zone list,
    [skippedFreeTier] counts its free-plan zones and so lies between 0 and
    [filtered], and [processed] is not negative. *)
Theorem account_export_collects_resolved_snapshots (client : Client)
    (exporterExport : string -> Thrown + list MetricDefinition)
    (initialState : AccountMetricCoordinator.State)
    (config : ResolvedConfig) (now : Z) :
  let out :=
    AccountMetricCoordinator.export client exporterExport initialState config now in
  let result := fst (fst out) in
  let state := snd (fst out) in
  (forall m,
     m ∈ export_metrics result
     <-> exists id ms,
          AccountMetricCoordinator.ExporterExport id ∈ snd out
          /\ exporterExport id = inr ms /\ m ∈ ms)
  /\ filtered (export_zoneCounts result)
     = Z.of_nat (length (AccountMetricCoordinator.zones state))
  /\ total (export_zoneCounts result)
     = AccountMetricCoordinator.totalZoneCount state
  /\ 0 <= skippedFreeTier (export_zoneCounts result)
       <= filtered (export_zoneCounts result)
  /\ 0 <= processed (export_zoneCounts result).
Proof.
  intros out result state. unfold result, state, out,
    AccountMetricCoordinator.export.
  pose proof (refresh_events client initialState config now) as [Hnone _].
  destruct (AccountMetricCoordinator.needsRefresh initialState config now).
  - destruct (AccountMetricCoordinator.refresh client initialState config now)
      as [st revs].
    simpl in *. split; [|split; [done|split; [done|split; [|lia]]]].
    + intros m. rewrite concat_pull_elem. split.
      * intros (id & ms & Hid & He & Hm). exists id, ms.
        split; [|done]. apply elem_of_app. right.
        apply list_elem_of_fmap. by exists id.
      * intros (id & ms & Hid & He & Hm). exists id, ms.
        split; [|done]. apply elem_of_app in Hid as [Hid|Hid].
        -- rewrite Forall_forall in Hnone. by apply Hnone in Hid.
        -- apply list_elem_of_fmap in Hid as (x & [= ->] & Hx). done.
    + split; [lia|]. apply inj_le. apply List.filter_length_le.
  - simpl. split; [|split; [done|split; [done|split; [|lia]]]].
    + intros m. rewrite concat_pull_elem. split.
      * intros (id & ms & Hid & He & Hm). exists id, ms.
        split; [|done]. apply list_elem_of_fmap. by exists id.
      * intros (id & ms & Hid & He & Hm). exists id, ms.
        split; [|done].
        apply list_elem_of_fmap in Hid as (x & [= ->] & Hx). done.
    + split; [lia|]. apply inj_le. apply List.filter_length_le.
Qed.

(** X25. A coordinator that has just been initialized holds no zones and has
    never refreshed, so its first [export], at any clock reading, starts by
    asking the upstream for the zones of its account; [initialize] itself
    writes the state once and sets the first alarm one refresh interval
    ahead, and it does nothing on a coordinator that has a state. *)
Theorem first_export_lists_zones (client : Client)
    (exporterExport : string -> Thrown + list MetricDefinition)
    (config config' : ResolvedConfig) (newAccountId newAccountName : string)
    (now0 now : Z) (stored : AccountMetricCoordinator.State) :
  let created := AccountMetricCoordinator.initialize None config newAccountId newAccountName now0 in
  snd created
  = [AccountMetricCoordinator.StoragePut (fst created);
     AccountMetricCoordinator.SetAlarm
       (now0 + metricRefreshIntervalSeconds config * 1000)]
  /\ head (snd (AccountMetricCoordinator.export client exporterExport
                  (fst created) config' now))
     = Some (AccountMetricCoordinator.GetZones newAccountId)
  /\ AccountMetricCoordinator.initialize (Some stored) config newAccountId newAccountName now0
     = (stored, []).
Proof.
  intros created. split; [done|]. split; [|done].
  unfold AccountMetricCoordinator.export, AccountMetricCoordinator.needsRefresh.
  simpl AccountMetricCoordinator.lastRefresh. simpl (0 =? 0). simpl orb.
  unfold AccountMetricCoordinator.refresh,
    AccountMetricCoordinator.refreshZonesAndPushContext.
  simpl AccountMetricCoordinator.zones.
  rewrite bool_decide_eq_true_2, orb_true_r by done.
  simpl AccountMetricCoordinator.accountId.
  destruct (getZones client newAccountId); done.
Qed.

(** ** Fleet coordinator: error tallies, totals and the account cache *)

Section TallyFacts.
Import MetricCoordinator.
Variable accountExport : Account -> Thrown + AccountExport.

Lemma countOf_bump (l : list ErrorTally) (c c' : string) :
  countOf (bump l c') c = countOf l c + (if decide (c = c') then 1 else 0).
Proof.
  unfold countOf. induction l as [|e l IH]; simpl.
  - destruct (decide (c = c')) as [->|Hne].
    + by rewrite bool_decide_eq_true_2.
    + by rewrite bool_decide_eq_false_2.
  - destruct (decide (code e = c')) as [He|He]; simpl.
    + destruct (decide (code e = c)) as [Hc|Hc].
      * rewrite !bool_decide_eq_true_2 by done. simpl.
        rewrite decide_True by congruence. done.
      * rewrite !bool_decide_eq_false_2 by done.
        rewrite decide_False by congruence. lia.
    + destruct (decide (code e = c)) as [Hc|Hc].
      * rewrite !bool_decide_eq_true_2 by done.
        rewrite decide_False by congruence. lia.
      * rewrite !bool_decide_eq_false_2 by done. apply IH.
Qed.

Lemma tallyOf_recordError (errs : list (string * list ErrorTally))
    (a : Account) (error : Thrown) (accountId c : string) :
  tallyOf (recordError errs a error) accountId c
  = tallyOf errs accountId c
    + (if decide (account_id a = accountId /\ thrownCode error = c)
       then 1 else 0).
Proof.
  unfold tallyOf, recordError.
  destruct (decide (account_id a = accountId)) as [<-|Hne].
  - rewrite mapGet_mapSet_eq. simpl. rewrite countOf_bump.
    fold (thrownCode error).
    destruct (decide (c = thrownCode error)) as [->|Hc].
    + by rewrite decide_True.
    + rewrite decide_False; [done|]. intros [_ H]. by apply Hc.
  - rewrite mapGet_mapSet_ne by done.
    rewrite decide_False; [lia|]. by intros [H _].
Qed.

Lemma tallyOf_fanOut (accounts : list Account) (accountId c : string) :
  forall errs,
    tallyOf (snd (fanOut accountExport accounts errs)) accountId c
    = tallyOf errs accountId c + failuresOf accountExport accounts accountId c.
Proof.
  unfold failuresOf.
  induction accounts as [|a accounts IH]; intros errs; simpl; [lia|].
  destruct (accountExport a) as [e|r] eqn:Ha.
  - specialize (IH (recordError errs a e)).
    destruct (fanOut accountExport accounts (recordError errs a e)).
    simpl in *. rewrite IH, tallyOf_recordError.
    destruct (decide _) as [Hd|Hd].
    + rewrite bool_decide_eq_true_2 by done. simpl length. lia.
    + rewrite bool_decide_eq_false_2 by done. lia.
  - specialize (IH errs). destruct (fanOut accountExport accounts errs).
    simpl in *. by rewrite IH.
Qed.

Lemma bump_codes_list (l : list ErrorTally) (c : string) :
  map code (bump l c)
  = if decide (c ∈ map code l) then map code l else map code l ++ [c].
Proof.
  induction l as [|e l IH].
  - destruct (decide (c ∈ map code [])) as [H|H];
      [by apply elem_of_nil in H|done].
  - cbn [bump]. destruct (decide (code e = c)) as [He|He]; cbn [map code].
    + destruct (decide (c ∈ code e :: map code l)) as [H|H]; [done|].
      exfalso. apply H. rewrite He. left.
    + rewrite IH.
      destruct (decide (c ∈ map code l)) as [Hin|Hin];
        destruct (decide (c ∈ code e :: map code l)) as [H|H]; try done.
      * exfalso. apply H. by right.
      * exfalso. apply elem_of_cons in H as [H|H]; [by apply He|done].
Qed.

Lemma bump_wellFormed (l : list ErrorTally) (c : string) :
  NoDup (map code l) -> Forall (fun e => 0 < count e) l ->
  NoDup (map code (bump l c)) /\ Forall (fun e => 0 < count e) (bump l c).
Proof.
  intros Hnd Hpos. split.
  - rewrite bump_codes_list. destruct (decide _); [done|].
    apply NoDup_app. split; [done|]. split.
    + intros x Hx Hx'. apply list_elem_of_singleton in Hx' as ->. done.
    + apply NoDup_singleton.
  - clear Hnd. induction l as [|e l IH]; simpl.
    + by repeat constructor.
    + apply Forall_cons in Hpos as [He Hl].
      destruct (decide (code e = c)).
      * constructor; [simpl; lia|done].
      * constructor; [done|by apply IH].
Qed.

Lemma recordError_wellFormed (errs : list (string * list ErrorTally))
    (a : Account) (error : Thrown) :
  tallyWellFormed errs -> tallyWellFormed (recordError errs a error).
Proof.
  intros [Hk Hes]. unfold recordError. split.
  - by apply mapSet_NoDup.
  - intros accountId errors Hin.
    apply mapSet_elem in Hin as [[-> ->]|Hin]; [|by eapply Hes].
    destruct (mapGet errs (account_id a)) as [l|] eqn:Hget; simpl.
    + apply mapGet_Some_elem in Hget. destruct (Hes _ _ Hget) as [H1 H2].
      by apply bump_wellFormed.
    + split; [apply NoDup_singleton|]. by repeat constructor.
Qed.

Lemma fanOut_wellFormed (accounts : list Account) :
  forall errs,
    tallyWellFormed errs ->
    tallyWellFormed (snd (fanOut accountExport accounts errs)).
Proof.
  induction accounts as [|a accounts IH]; intros errs Hwf; simpl; [done|].
  destruct (accountExport a) as [e|r].
  - specialize (IH (recordError errs a e) (recordError_wellFormed _ _ _ Hwf)).
    by destruct (fanOut accountExport accounts (recordError errs a e)).
  - specialize (IH errs Hwf). by destruct (fanOut accountExport accounts errs).
Qed.

Lemma countOf_elem (l : list ErrorTally) (e : ErrorTally) :
  NoDup (map code l) -> e ∈ l -> countOf l (code e) = count e.
Proof.
  unfold countOf. induction l as [|e0 l IH]; simpl; intros Hnd Hin.
  - by apply elem_of_nil in Hin.
  - apply NoDup_cons in Hnd as [Hn Hnd].
    apply elem_of_cons in Hin as [->|Hin].
    + by rewrite bool_decide_eq_true_2.
    + rewrite bool_decide_eq_false_2; [by apply IH|].
      intros Heq. apply Hn. rewrite Heq. apply list_elem_of_fmap. by exists e.
Qed.

Lemma countOf_pos (l : list ErrorTally) (c : string) :
  0 < countOf l c -> exists e, e ∈ l /\ code e = c /\ count e = countOf l c.
Proof.
  unfold countOf.
  destruct (List.find _ l) as [e|] eqn:Hfind; [|lia].
  intros _. apply find_some in Hfind as [Hin Hc].
  apply bool_decide_eq_true in Hc. exists e.
  split; [by apply list_elem_of_In|done].
Qed.

Lemma errorRows_elem (errs : list (string * list ErrorTally)) (v : MetricValue) :
  v ∈ errorRows errs
  <-> exists accountId errors e,
       (accountId, errors) ∈ errs /\ e ∈ errors
       /\ v = {| labels := errorLabels accountId (code e); value := count e |}.
Proof.
  unfold errorRows. rewrite list_elem_of_In, in_flat_map. split.
  - intros ([accountId errors] & Hin & Hv).
    apply list_elem_of_In, list_elem_of_fmap in Hv as (e & -> & He).
    exists accountId, errors, e. by rewrite list_elem_of_In.
  - intros (accountId & errors & e & Hin & He & ->).
    exists (accountId, errors). split; [by apply list_elem_of_In|].
    apply list_elem_of_In, list_elem_of_fmap. by exists e.
Qed.

Lemma errorRows_labels_NoDup (errs : list (string * list ErrorTally)) :
  tallyWellFormed errs -> NoDup (map labels (errorRows errs)).
Proof.
  unfold tallyWellFormed, mapKeys, errorRows.
  induction errs as [|[accountId errors] errs IH]; intros [Hk Hes]; simpl.
  - constructor.
  - apply NoDup_cons in Hk as [Hfresh Hk].
    rewrite map_app. apply NoDup_app. split; [|split].
    + rewrite map_map. simpl.
      rewrite <- (map_map code (errorLabels accountId)).
      apply NoDup_fmap_2.
      * intros c1 c2 H. by injection H.
      * apply (Hes accountId errors). left.
    + intros ls H1 H2.
      apply list_elem_of_fmap in H1 as (v1 & -> & H1).
      apply list_elem_of_fmap in H1 as (e1 & -> & H1).
      apply list_elem_of_fmap in H2 as (v2 & Heq & H2).
      apply list_elem_of_In, in_flat_map in H2 as ([id2 es2] & Hin2 & H2).
      apply list_elem_of_In, list_elem_of_fmap in H2 as (e2 & -> & H2).
      simpl in Heq. injection Heq as -> _.
      apply Hfresh. apply list_elem_of_fmap. exists (id2, es2).
      split; [done|by apply list_elem_of_In].
    + apply IH. split; [done|]. intros id es Hin. apply (Hes id). by right.
Qed.

(** X26. The rows of [cloudflare_exporter_errors_total] count the failures
    exactly: after the fan-out over the accounts, the rows carry pairwise
    different label sets, every row is labelled with an account id and an
    error code and its value is the number of accounts of the list with that
    id whose export rejected with that code (so at least 1), and every pair
    of id and code with at least one such account has its row. *)
Theorem error_rows_count_failures (accounts : list Account) :
  let rows := errorRows (snd (fanOut accountExport accounts [])) in
  NoDup (map labels rows)
  /\ (forall v, v ∈ rows ->
        exists accountId c,
          labels v = errorLabels accountId c
          /\ value v = failuresOf accountExport accounts accountId c
          /\ 0 < value v)
  /\ (forall accountId c,
        0 < failuresOf accountExport accounts accountId c ->
        {| labels := errorLabels accountId c;
           value := failuresOf accountExport accounts accountId c |} ∈ rows).
Proof.
  intros rows. unfold rows.
  assert (Hwf : tallyWellFormed (snd (fanOut accountExport accounts []))).
  { apply fanOut_wellFormed. split; [constructor|].
    intros id es H. by apply elem_of_nil in H. }
  pose proof (fun id c => tallyOf_fanOut accounts id c []) as Htally.
  set (errs := snd (fanOut accountExport accounts [])) in *.
  split; [by apply errorRows_labels_NoDup|]. split.
  - intros v Hv. apply errorRows_elem in Hv as (id & es & e & Hin & He & ->).
    exists id, (code e). simpl. split; [done|].
    destruct Hwf as [Hk Hes]. destruct (Hes id es Hin) as [Hnd Hpos].
    rewrite Forall_forall in Hpos. split; [|by apply Hpos].
    specialize (Htally id (code e)). unfold tallyOf in Htally.
    rewrite (mapGet_elem_NoDup _ _ _ Hk Hin) in Htally. simpl in Htally.
    rewrite countOf_elem in Htally by done.
    change (countOf [] (code e)) with 0 in Htally. lia.
  - intros id c Hpos. specialize (Htally id c).
    change (tallyOf [] id c) with 0 in Htally.
    rewrite Z.add_0_l in Htally. rewrite <- Htally in *.
    unfold tallyOf in *.
    destruct (mapGet errs id) as [es|] eqn:Hget; simpl in *.
    + apply countOf_pos in Hpos as (e & He & Hc & Hcount).
      apply errorRows_elem. exists id, es, e.
      split; [by apply mapGet_Some_elem|]. split; [done|].
      by rewrite Hc, Hcount.
    + unfold countOf in Hpos. simpl in Hpos. lia.
Qed.

Lemma fold_addCounts (results : list AccountExport) :
  forall (zc : ZoneCounts) (acc : list MetricDefinition),
    fst (fold_left
           (fun '(zc, allMetrics) result =>
              (addCounts zc (export_zoneCounts result),
               allMetrics ++ export_metrics result))
           results (zc, acc))
    = {| total := total zc + sumZ (map (fun r => total (export_zoneCounts r)) results);
         filtered :=
           filtered zc + sumZ (map (fun r => filtered (export_zoneCounts r)) results);
         processed :=
           processed zc + sumZ (map (fun r => processed (export_zoneCounts r)) results);
         skippedFreeTier :=
           skippedFreeTier zc
           + sumZ (map (fun r => skippedFreeTier (export_zoneCounts r)) results) |}.
Proof.
  induction results as [|r results IH]; intros zc acc; simpl.
  - destruct zc. simpl. f_equal; lia.
  - rewrite IH. unfold addCounts. simpl. f_equal; lia.
Qed.

(** X27. The zone gauges of a scrape are sums over the accounts: each of the
    four zone counts handed to [buildExporterInfoMetrics] is the sum, over
    the accounts in order, of that count in the account's export, an account
    whose export rejected counting as 0; the metrics that follow the
    exporter's own are the accounts' metrics concatenated in the order of
    the accounts. *)
Theorem zone_counts_are_sums (accounts : list Account) :
  let kept := map (accountResult accountExport) accounts in
  collect accountExport accounts
  = buildExporterInfoMetrics (Z.of_nat (length accounts))
      {| total := sumZ (map (fun r => total (export_zoneCounts r)) kept);
         filtered := sumZ (map (fun r => filtered (export_zoneCounts r)) kept);
         processed := sumZ (map (fun r => processed (export_zoneCounts r)) kept);
         skippedFreeTier :=
           sumZ (map (fun r => skippedFreeTier (export_zoneCounts r)) kept) |}
      (snd (fanOut accountExport accounts []))
    ++ concat (map export_metrics kept)
  /\ forall a e,
      accountExport a = inl e ->
      accountResult accountExport a
      = {| export_metrics := []; export_zoneCounts := zeroCounts |}.
Proof.
  intros kept. split.
  - rewrite collect_unfold. fold kept. unfold aggregate.
    rewrite fold_addCounts. simpl. f_equal.
    induction kept as [|r kept IH]; simpl; [done|]. by rewrite IH.
  - intros a e He. unfold accountResult. by rewrite He.
Qed.
End TallyFacts.

Lemma error_rows_count_failures_witness :
  {| labels := MetricCoordinator.errorLabels "acc1" "API_RATE_LIMITED";
     value := failuresOf twoFailures sameIdTwice "acc1" "API_RATE_LIMITED" |}
    ∈ MetricCoordinator.errorRows
        (snd (MetricCoordinator.fanOut twoFailures sameIdTwice []))
  /\ failuresOf twoFailures sameIdTwice "acc1" "API_RATE_LIMITED" = 2.
Proof.
  split; [|reflexivity].
  pose proof (error_rows_count_failures twoFailures sameIdTwice) as (_ & _ & H).
  apply H. vm_compute. reflexivity.
Defined.

Lemma accountCacheFresh_spec (state : MetricCoordinator.State)
    (config : ResolvedConfig) (now : Z) :
  negb (bool_decide (MetricCoordinator.accounts state = []))
  && (now - MetricCoordinator.lastAccountFetch state
      <? accountListCacheTtlSeconds config * 1000) = true
  <-> accountCacheFresh state config now.
Proof.
  unfold accountCacheFresh.
  rewrite andb_true_iff, negb_true_iff, bool_decide_eq_false, Z.ltb_lt. done.
Qed.

(** X28. The account-list cache of the fleet coordinator: while the cached
    list is not empty and younger than [accountListCacheTtlSeconds] it is
    returned as it is, the upstream is not consulted and the state does not
    change. Otherwise the upstream is asked; a rejection leaves the method
    as an exception, and an answer is stored restricted to the account
    allow-list (whole when none is configured) in the order of the answer,
    with the clock reading as fetch time and the identifier unchanged. *)
Theorem account_list_is_cached (client : Client)
    (state : MetricCoordinator.State) (config : ResolvedConfig) (now : Z) :
  let out := MetricCoordinator.refreshAccountsIfStale client state config now in
  (accountCacheFresh state config now ->
   out = inr (MetricCoordinator.accounts state, state))
  /\ (~ accountCacheFresh state config now ->
      match getAccounts client with
      | inl e => out = inl e
      | inr allAccounts =>
          exists state',
            out = inr (MetricCoordinator.accounts state', state')
            /\ MetricCoordinator.accounts state'
               = match cfAccounts config with
                 | Some s =>
                     filter (fun a => account_id a ∈ parseCommaSeparated s)
                            allAccounts
                 | None => allAccounts
                 end
            /\ MetricCoordinator.lastAccountFetch state' = now
            /\ MetricCoordinator.identifier state'
               = MetricCoordinator.identifier state
      end).
Proof.
  intros out.
  pose proof (accountCacheFresh_spec state config now) as Hspec.
  unfold out, MetricCoordinator.refreshAccountsIfStale.
  destruct (_ && _).
  - split; [done|]. intros H. exfalso. apply H. by apply Hspec.
  - split.
    + intros H. apply Hspec in H. discriminate H.
    + intros _. destruct (getAccounts client) as [e|allAccounts]; [done|].
      eexists {| MetricCoordinator.identifier := _;
                 MetricCoordinator.accounts := _;
                 MetricCoordinator.lastAccountFetch := _ |}.
      split; [reflexivity|]. simpl. split; [|done].
      by destruct (cfAccounts config).
Qed.

Lemma account_list_is_cached_witness :
  MetricCoordinator.refreshAccountsIfStale failingClient staleCoordinator
    sampleConfig 1700000060000
  = inr (sampleAccounts, staleCoordinator)
  /\ MetricCoordinator.refreshAccountsIfStale failingClient staleCoordinator
       sampleConfig 1700000600000
     = inl (JsError "upstream unavailable").
Proof.
  pose proof (account_list_is_cached failingClient staleCoordinator
                sampleConfig 1700000060000) as [Hhit _].
  pose proof (account_list_is_cached failingClient staleCoordinator
                sampleConfig 1700000600000) as [_ Hmiss].
  split.
  - apply Hhit. split; [discriminate|reflexivity].
  - apply Hmiss. intros [_ H]. vm_compute in H. discriminate H.
Defined.


